(** * swagger-express-validator: the validation middleware of [src/index.js]

    A shallow embedding of the middleware and the properties of its
    schema resolution, request stage and response capture stage.

    Conventions of the embedding.
    - The contract document ([options.schema]) is a JSON tree.  JavaScript
      values are the type [value]; a property read that finds nothing gives
      [VUndefined], a read on [null] or [undefined] throws [TypeError].
      Only own properties (and the [length] of arrays and strings) are
      modelled; no key read by the code names a built-in method.
    - The module-level variables [options] and [pathObjects], the response
      object and the calls made to the host (continuation, response
      methods, callbacks) are threaded through a state-and-exception monad;
      host calls are recorded in a trace.
    - Objects of the contract are held by reference in the source.  In
      the first part the document is read as a tree, a reference is a
      location (a list of keys) and an in-place assignment is a functional
      update at that location: this is what a call returns and emits.
      What an assignment does to an object that several places of the
      contract refer to is the subject of [Module Shared], where the
      objects are in a store. *)

From Stdlib Require Import List String Ascii ZArith Bool Lia.
From Stdlib Require Import Decimal DecimalString.
Import ListNotations.
Local Open Scope string_scope.

(** ** JavaScript values *)

#[warnings="-register-all"]
Inductive value : Type :=
| VUndefined
| VNull
| VBool (b : bool)
| VNum (n : Z)
| VStr (s : string)
| VArr (items : list value)
| VObj (fields : list (string * value)).

(** Exceptions the code can raise or let through: [SchemaCompileError]
    is what [ajv.compile] throws on a schema it rejects, [TemplateError]
    what [pathToRegexp] throws on a template it rejects. *)
Inductive exn : Type :=
| TypeError
| SchemaCompileError
| TemplateError
| DecodeError (failedValidation : bool) (message : string).

Inductive outcome (A : Type) : Type :=
| Ok (a : A)
| Throw (e : exn).
Arguments Ok {A} a.
Arguments Throw {A} e.

(** Truthiness, as tested by [if (x)], [x && y] and [x || y].  Numbers are
    integers here: the code only ever tests a number for being zero. *)
Definition truthy (v : value) : bool :=
  match v with
  | VUndefined | VNull => false
  | VBool b => b
  | VNum n => negb (n =? 0)%Z
  | VStr s => negb (s =? "")
  | VArr _ | VObj _ => true
  end.

(** The property key of array index [i]: its decimal numeral. *)
Definition index_key (i : nat) : string :=
  NilZero.string_of_uint (Nat.to_uint i).

Fixpoint indexed {A : Type} (i : nat) (l : list A) : list (string * A) :=
  match l with
  | [] => []
  | x :: l' => (index_key i, x) :: indexed (S i) l'
  end.

Fixpoint chars (s : string) : list value :=
  match s with
  | EmptyString => []
  | String c s' => VStr (String c EmptyString) :: chars s'
  end.

(** Own enumerable properties, in enumeration order. *)
Definition entries (v : value) : list (string * value) :=
  match v with
  | VObj fs => fs
  | VArr l => indexed 0 l
  | VStr s => indexed 0 (chars s)
  | _ => []
  end.

(** [Object.keys(v)] *)
Definition Object_keys (v : value) : list string := map fst (entries v).

Fixpoint assoc (k : string) (es : list (string * value)) : option value :=
  match es with
  | [] => None
  | (k', v) :: es' => if k =? k' then Some v else assoc k es'
  end.

(** Replace the value of an existing key; the list is unchanged when the
    key is absent. *)
Fixpoint assoc_set (k : string) (x : value) (es : list (string * value))
  : list (string * value) :=
  match es with
  | [] => []
  | (k', v) :: es' =>
      if k =? k' then (k', x) :: es' else (k', v) :: assoc_set k x es'
  end.

(** The value of [v[k]] for [v] neither [null] nor [undefined]. *)
Definition own (v : value) (k : string) : value :=
  match assoc k (entries v) with
  | Some x => x
  | None =>
      match v with
      | VArr l => if k =? "length" then VNum (Z.of_nat (List.length l)) else VUndefined
      | VStr s => if k =? "length" then VNum (Z.of_nat (String.length s)) else VUndefined
      | _ => VUndefined
      end
  end.

(** Property read [v[k]] / [v.k]. *)
Definition get_prop (v : value) (k : string) : outcome value :=
  match v with
  | VUndefined | VNull => Throw TypeError
  | _ => Ok (own v k)
  end.

(** Assignment [v[k] = x].  On an object an absent key is appended, as
    JavaScript does.  On an array only an existing index is written (the
    code assigns only keys it has just enumerated); assignment to a
    property of a primitive is silently dropped (the module is not in
    strict mode). *)
Definition set_prop (v : value) (k : string) (x : value) : value :=
  match v with
  | VObj fs =>
      match assoc k fs with
      | Some _ => VObj (assoc_set k x fs)
      | None => VObj (fs ++ [(k, x)])
      end
  | VArr l => VArr (map snd (assoc_set k x (indexed 0 l)))
  | _ => v
  end.

(** [_.get(v, keys)]: safe navigation, [undefined] when a step is missing. *)
Fixpoint lodash_get (v : value) (keys : list string) : value :=
  match keys with
  | [] => v
  | k :: keys' =>
      match v with
      | VUndefined | VNull => VUndefined
      | _ => lodash_get (own v k) keys'
      end
  end.

(** In-place replacement of the object stored at location [keys] of the
    tree [v]; nothing changes when the location does not exist. *)
Fixpoint set_at (keys : list string) (x : value) (v : value) : value :=
  match keys with
  | [] => x
  | k :: keys' =>
      match assoc k (entries v) with
      | Some child => set_prop v k (set_at keys' x child)
      | None => v
      end
  end.

(** ** Nullable decoration (lines 30-44) *)

Definition null_type : value := VObj [("type", VStr "null")].

(** The object literal [{ oneOf: [p, { type: 'null' }] }]. *)
Definition nullable_wrap (p : value) : value :=
  VObj [("oneOf", VArr [p; null_type])].

(** One iteration of the [forEach] body on the object [props] =
    [schema.properties]: returns the object after the iteration. *)
Definition decorate_prop (props : value) (prop : string) : outcome value :=
  match get_prop props prop with
  | Throw e => Throw e
  | Ok p =>
      match get_prop p "x-nullable" with
      | Throw e => Throw e
      | Ok flag =>
          if truthy flag then Ok (set_prop props prop (nullable_wrap p))
          else Ok props
      end
  end.

(** [keys.forEach(...)]: the object as the loop leaves it, and the
    exception that cut it short, if any.  Assignments made before an
    exception stay. *)
Fixpoint forEach_prop (keys : list string) (props : value)
  : value * option exn :=
  match keys with
  | [] => (props, None)
  | k :: keys' =>
      match decorate_prop props k with
      | Ok props' => forEach_prop keys' props'
      | Throw e => (props, Some e)
      end
  end.

(** [decorateWithNullable] on the value of the schema object: the schema
    as the call leaves it, and the exception raised, if any.  When no
    exception is raised the function returns its (mutated) argument. *)
Definition decorate (schema : value) : value * option exn :=
  if truthy schema then
    match get_prop schema "properties" with
    | Throw e => (schema, Some e)
    | Ok props =>
        if truthy props then
          let (props', e) := forEach_prop (Object_keys props) props in
          (set_prop schema "properties" props', e)
        else (schema, None)
    end
  else (schema, None).

(** ** Requests, responses, module state *)

Definition bytes : Type := list Byte.byte.

(** What a handler can pass to [res.write] and [res.end]: a [Buffer], a
    [String] object, or any other value (a primitive string among them). *)
Inductive jsdata : Type :=
| JBuffer (b : bytes)
| JStringObj (s : string)
| JVal (v : value).

Record request : Type := {
  method : string;
  originalUrl : string;
  body : value
}.

(** The options after [_.defaults]; a callback is known by its presence. *)
Record options : Type := {
  schema : value;
  opt_validateRequest : bool;
  opt_validateResponse : bool;
  allowNullable : bool;
  requestValidationFn : bool;
  responseValidationFn : bool
}.

(** An element of [pathObjects].  [definition], [original] and [pathDef]
    all designate the object stored under [paths[path]] of the contract:
    location [["paths"; path]]. *)
Record pathObject : Type := {
  path : string;
  regexp : string -> bool
}.

(** Calls made to the host, in the order they are made. *)
Inductive event : Type :=
| Next (err : option value)
| ResStatus (code : Z)
| ResJson (payload : value)
| RequestValidationFn (req : request) (body : value) (errors : value)
| ResponseValidationFn (req : request) (val : value) (errors : value)
| OrigWrite (data : jsdata)
| OrigEnd (data : jsdata) (encoding : option string).

(** Module variables, the response object as the stage sees it
    ([statusCode]; whether [res.write]/[res.end] are the capture hooks;
    the [writtenData] array of the hooks' closure) and the trace. *)
Record world : Type := {
  w_options : options;
  w_pathObjects : list pathObject;
  statusCode : option Z;
  hooked : bool;
  writtenData : list jsdata;
  trace : list event
}.

Definition with_schema (o : options) (s : value) : options :=
  {| schema := s;
     opt_validateRequest := opt_validateRequest o;
     opt_validateResponse := opt_validateResponse o;
     allowNullable := allowNullable o;
     requestValidationFn := requestValidationFn o;
     responseValidationFn := responseValidationFn o |}.

Definition with_options (w : world) (o : options) : world :=
  {| w_options := o; w_pathObjects := w_pathObjects w;
     statusCode := statusCode w; hooked := hooked w;
     writtenData := writtenData w; trace := trace w |}.

Definition with_hooked (w : world) (h : bool) : world :=
  {| w_options := w_options w; w_pathObjects := w_pathObjects w;
     statusCode := statusCode w; hooked := h;
     writtenData := writtenData w; trace := trace w |}.

Definition with_writtenData (w : world) (d : list jsdata) : world :=
  {| w_options := w_options w; w_pathObjects := w_pathObjects w;
     statusCode := statusCode w; hooked := hooked w;
     writtenData := d; trace := trace w |}.

Definition with_trace (w : world) (t : list event) : world :=
  {| w_options := w_options w; w_pathObjects := w_pathObjects w;
     statusCode := statusCode w; hooked := hooked w;
     writtenData := writtenData w; trace := t |}.

(** The contract document. *)
Definition contract (w : world) : value := schema (w_options w).

(** ** The state-and-exception monad *)

Definition M (A : Type) : Type := world -> outcome A * world.

Definition ret {A : Type} (a : A) : M A := fun w => (Ok a, w).

Definition throw {A : Type} (e : exn) : M A := fun w => (Throw e, w).

Definition bind {A B : Type} (m : M A) (f : A -> M B) : M B :=
  fun w =>
    match m w with
    | (Ok a, w') => f a w'
    | (Throw e, w') => (Throw e, w')
    end.

Declare Scope js_scope.
Delimit Scope js_scope with js.
Notation "x <- m ;; k" := (bind m (fun x => k))
  (at level 61, m at next level, right associativity) : js_scope.
Notation "m ;; k" := (bind m (fun _ => k))
  (at level 61, right associativity) : js_scope.
Local Open Scope js_scope.

Definition lift {A : Type} (o : outcome A) : M A := fun w => (o, w).

Definition get_world : M world := fun w => (Ok w, w).

Definition emit (e : event) : M unit :=
  fun w => (Ok tt, with_trace w (trace w ++ [e])%list).

(** A value together with the place of the contract it was read from
    ([None] for a value that is not part of the contract). *)
Record jsref : Type := {
  target : value;
  origin : option (list string)
}.

Definition fresh (v : value) : jsref := {| target := v; origin := None |}.

(** [r[k]] *)
Definition read (r : jsref) (k : string) : M jsref :=
  match get_prop (target r) k with
  | Ok v =>
      ret {| target := v;
             origin := option_map (fun l => (l ++ [k])%list) (origin r) |}
  | Throw e => throw e
  end.

(** The object at [loc] of the contract now has value [x].  On the
    tree reading this is the one place that changes; in a contract that
    refers to the object from several places they all see the change
    (see [Shared.assign]). *)
Definition store (loc : option (list string)) (x : value) : M unit :=
  fun w =>
    match loc with
    | Some l =>
        (Ok tt,
         with_options w (with_schema (w_options w) (set_at l x (contract w))))
    | None => (Ok tt, w)
    end.

(** [decorateWithNullable(schema)] (lines 30-44): mutates the object in
    place and returns it. *)
Definition decorateWithNullable (schema : jsref) : M jsref :=
  let (schema', e) := decorate (target schema) in
  store (origin schema) schema' ;;
  match e with
  | Some e => throw e
  | None => ret {| target := schema'; origin := origin schema |}
  end.

(** [s.toLowerCase()], on the ASCII letters a method name is made of. *)
Definition lower (c : ascii) : ascii :=
  let n := nat_of_ascii c in
  if (65 <=? n)%nat && (n <=? 90)%nat then ascii_of_nat (n + 32) else c.

Fixpoint toLowerCase (s : string) : string :=
  match s with
  | EmptyString => EmptyString
  | String c s' => String (lower c) (toLowerCase s')
  end.

(** The property key a status code is turned into by [responses[code]]. *)
Definition status_key (code : Z) : string :=
  NilZero.string_of_int (Z.to_int code).

(** [res.statusCode || 200] *)
Definition status_or_200 (sc : option Z) : Z :=
  match sc with
  | Some n => if (n =? 0)%Z then 200%Z else n
  | None => 200%Z
  end.

(** [url.parse(u).pathname] as Node documents it, for a request target
    in origin form (what Express keeps in [req.originalUrl]): the text
    before the start of the query or hash component, delimited by the
    first [?] or [#]; [null] when that text is empty.  No decoding is
    performed; characters the parser would escape are not modelled. *)
Fixpoint path_component (s : string) : string :=
  match s with
  | EmptyString => EmptyString
  | String c s' =>
      if Ascii.eqb c "?" || Ascii.eqb c "#" then EmptyString
      else String c (path_component s')
  end.

Definition pathname (u : string) : option string :=
  match path_component u with
  | EmptyString => None
  | p => Some p
  end.

(** ** The middleware *)

(** *** What the code takes from its libraries *)

Record libraries : Type := {
  (** [url.parse(u).pathname]: the path component, without query string
      and fragment; [None] is [null]. *)
  parseUrl_pathname : string -> option string;
  (** [pathToRegexp(template)]: [None] when the library rejects the
      template (an exception); otherwise the predicate [str.match(re)]
      tests. *)
  pathToRegexp : string -> option (string -> bool);
  (** [ajv.compile(schema)]: [None] when the schema does not compile (an
      exception); the validator gives [None] on success and
      [Some validator.errors] on failure. *)
  ajv_compile : value -> option (value -> option value);
  (** [JSON.parse]: [None] is a [SyntaxError]. *)
  JSON_parse : string -> option value;
  (** [JSON.stringify] *)
  JSON_stringify : value -> value;
  (** [new Buffer(str)] *)
  Buffer_from : string -> bytes;
  (** [buf.toString(encoding)]: [None] when the encoding is unknown (a
      [TypeError]). *)
  Buffer_toString : option string -> bytes -> option string;
  (** Whether a string, converted to a number, is greater than zero. *)
  StringToNumber_gt0 : string -> bool
}.

Section Middleware.

Variable lib : libraries.

(** *** Path registry (lines 12-28) *)

(** [path.replace(/\{/g, ':').replace(/\}/g, '')] *)
Fixpoint colon_template (s : string) : string :=
  match s with
  | EmptyString => EmptyString
  | String c s' =>
      if Ascii.eqb c "{" then String ":" (colon_template s')
      else if Ascii.eqb c "}" then colon_template s'
      else String c (colon_template s')
  end.

(** The callback of [_.map] (lines 12-18) on the entry [(path, pathDef)]. *)
Definition pathObject_of (e : string * value) : outcome pathObject :=
  match pathToRegexp lib (colon_template (fst e)) with
  | Some re => Ok {| path := fst e; regexp := re |}
  | None => Throw TemplateError
  end.

(** [_.map] over the entries, in order: the first exception ends it. *)
Fixpoint map_entries (es : list (string * value)) : outcome (list pathObject) :=
  match es with
  | [] => Ok []
  | e :: es' =>
      match pathObject_of e with
      | Throw x => Throw x
      | Ok obj =>
          match map_entries es' with
          | Throw x => Throw x
          | Ok objs => Ok (obj :: objs)
          end
      end
  end.

(** lodash's [isArrayLike] on a value of the contract. *)
Definition isArrayLike (v : value) : bool :=
  match v with
  | VArr _ | VStr _ => true
  | VObj fs =>
      match assoc "length" fs with
      | Some (VNum n) => (0 <=? n)%Z && (n <=? 9007199254740991)%Z
      | _ => false
      end
  | _ => false
  end.

(** [buildPathObjects(paths)]: [_.map] over the own keys of an object,
    in enumeration order; a template [pathToRegexp] rejects ends it with
    the library's exception.  Over an array-like collection [_.map]
    passes numeric indices, on which [path.replace] is a [TypeError]. *)
Definition buildPathObjects (paths : value) : outcome (list pathObject) :=
  if isArrayLike paths then
    match own paths "length" with
    | VNum 0 => Ok []
    | _ => Throw TypeError
    end
  else map_entries (entries paths).

(** The [definition] field of a path object: the object found by
    [_.get(options.schema, ['paths', path])], held by reference. *)
Definition definition (w : world) (obj : pathObject) : jsref :=
  {| target := lodash_get (contract w) ["paths"; path obj];
     origin := Some ["paths"; path obj] |}.

(** [pathObjects.filter(obj => url.match(obj.regexp))]; with [url]
    [null] the first call of the predicate is a [TypeError]. *)
Definition filter_match (url : option string) (objs : list pathObject)
  : outcome (list pathObject) :=
  match url with
  | Some u => Ok (filter (fun obj => regexp obj u) objs)
  | None =>
      match objs with
      | [] => Ok []
      | _ :: _ => Throw TypeError
      end
  end.

Definition matchUrlWithSchema (reqUrl : string) : M jsref :=
  w <- get_world ;;
  let url := parseUrl_pathname lib reqUrl in
  pathObj <- lift (filter_match url (w_pathObjects w)) ;;
  match pathObj with
  | obj :: _ => ret (definition w obj)
  | [] => ret (fresh VNull)
  end.

(** *** Schema resolution (lines 46-81) *)

Definition resolveResponseModelSchema (req : request) : M jsref :=
  pathObj <- matchUrlWithSchema (originalUrl req) ;;
  schema <-
    (if truthy (target pathObj) then
       let method := toLowerCase (method req) in
       operation <- read pathObj method ;;
       responseSchemas <- read operation "responses" ;;
       w <- get_world ;;
       let code := status_or_200 (statusCode w) in
       descriptor <- read responseSchemas (status_key code) ;;
       if truthy (target descriptor) then read descriptor "schema"
       else ret (fresh VNull)
     else ret (fresh VNull)) ;;
  w <- get_world ;;
  if allowNullable (w_options w) then decorateWithNullable schema
  else ret schema.

(** [x > 0] *)
Fixpoint js_gt0 (v : value) : bool :=
  match v with
  | VNum n => (0 <? n)%Z
  | VBool b => b
  | VStr s => StringToNumber_gt0 lib s
  | VArr [x] =>
      match x with
      | VNum n => (0 <? n)%Z
      | VStr s => StringToNumber_gt0 lib s
      | VArr _ => js_gt0 x
      | _ => false
      end
  | _ => false
  end.

Definition resolveRequestModelSchema (req : request) : M jsref :=
  pathObj <- matchUrlWithSchema (originalUrl req) ;;
  schema <-
    (if truthy (target pathObj) then
       let method := toLowerCase (method req) in
       operation <- read pathObj method ;;
       requestSchemas <-
         (if truthy (target operation) then read operation "parameters"
          else ret (fresh VNull)) ;;
       if truthy (target requestSchemas) then
         len <- read requestSchemas "length" ;;
         if js_gt0 (target len) then
           first <- read requestSchemas "0" ;;
           read first "schema"
         else ret (fresh VNull)
       else ret (fresh VNull)
     else ret (fresh VNull)) ;;
  w <- get_world ;;
  if allowNullable (w_options w) then decorateWithNullable schema
  else ret schema.

(** *** Request validation stage (lines 83-118) *)

Definition failure_message (req : request) : string :=
  "Response schema validation failed for " ++ method req ++ originalUrl req.

Definition failure_object (req : request) : value :=
  VObj [("message", VStr (failure_message req))].

Definition compile (schema : value) : M (value -> option value) :=
  match ajv_compile lib schema with
  | Some validator => ret validator
  | None => throw SchemaCompileError
  end.

Definition validateRequest (req : request) : M unit :=
  requestSchema <- resolveRequestModelSchema req ;;
  if negb (truthy (target requestSchema)) then emit (Next None)
  else
    validator <- compile (target requestSchema) ;;
    match validator (body req) with
    | Some errors =>
        w <- get_world ;;
        if requestValidationFn (w_options w) then
          emit (RequestValidationFn req (body req) errors) ;;
          emit (Next None)
        else
          emit (ResStatus 400) ;;
          emit (ResJson (failure_object req))
    | None => emit (Next None)
    end.

(** *** Response capture and validation stage (lines 120-215) *)

(** [_.isString(data)] *)
Definition isString (data : jsdata) : bool :=
  match data with
  | JStringObj _ | JVal (VStr _) => true
  | _ => false
  end.

Definition truthy_data (data : jsdata) : bool :=
  match data with
  | JBuffer _ | JStringObj _ => true
  | JVal v => truthy v
  end.

Definition isBuffer (data : jsdata) : bool :=
  match data with
  | JBuffer _ => true
  | _ => false
  end.

(** [JSON.stringify(data)], for [data] neither a [Buffer] nor a string. *)
Definition stringify (data : jsdata) : jsdata :=
  match data with
  | JVal v => JVal (JSON_stringify lib v)
  | _ => data
  end.

(** [sendData(res, data, encoding)] (lines 120-126).  Both call sites are
    in the finalize hook after it has put [res.end] back, so [res.end] is
    the host's operation. *)
Definition sendData (data : jsdata) (encoding : option string) : M unit :=
  let data :=
    if negb (isBuffer data) && negb (isString data) then stringify data
    else data in
  emit (OrigEnd data encoding).

(** [Buffer.concat(list)]: a [TypeError] unless every element is a
    [Buffer]. *)
Fixpoint Buffer_concat (l : list jsdata) : outcome bytes :=
  match l with
  | [] => Ok []
  | JBuffer b :: l' =>
      match Buffer_concat l' with
      | Ok rest => Ok (b ++ rest)%list
      | Throw e => Throw e
      end
  | _ :: _ => Throw TypeError
  end.

(** [writtenData.push(data)] *)
Definition push (data : jsdata) : M unit :=
  fun w => (Ok tt, with_writtenData w (writtenData w ++ [data])%list).

(** [Buffer.concat(writtenData)] *)
Definition concat_writtenData : M bytes :=
  w <- get_world ;; lift (Buffer_concat (writtenData w)).

(** The hook installed as [res.write] (lines 145-149). *)
Definition write_hook (data : jsdata) : M unit :=
  match data with
  | JVal VUndefined => ret tt
  | _ => push data
  end.

(** The closure variable [val] once lines 153-165 have run: a [Buffer]
    made by [Buffer.concat], or a value that is neither a [Buffer] nor
    a [String] object. *)
Inductive captured : Type :=
| CBuffer (b : bytes)
| CValue (v : value).

(** Lines 153-165. *)
Definition capture (data : jsdata) : M captured :=
  if truthy_data data then
    match data with
    | JBuffer _ =>
        push data ;;
        b <- concat_writtenData ;;
        ret (CBuffer b)
    | JStringObj s =>
        push (JBuffer (Buffer_from lib s)) ;;
        b <- concat_writtenData ;;
        ret (CBuffer b)
    | JVal v => ret (CValue v)
    end
  else
    w <- get_world ;;
    match writtenData w with
    | [] => ret (CValue VUndefined)
    | _ :: _ =>
        b <- concat_writtenData ;;
        ret (CBuffer b)
    end.

Definition toString (encoding : option string) (b : bytes) : M string :=
  match Buffer_toString lib encoding b with
  | Some s => ret s
  | None => throw TypeError
  end.

(** Lines 167-169: the argument of [debug] is evaluated. *)
Definition debug_data (data : jsdata) (encoding : option string) : M unit :=
  match data with
  | JBuffer b => toString encoding b ;; ret tt
  | _ => ret tt
  end.

(** Lines 171-172. *)
Definition restore : M unit :=
  fun w => (Ok tt, with_hooked w false).

(** Lines 174-176. *)
Definition decode (encoding : option string) (val : captured) : M value :=
  match val with
  | CBuffer b => s <- toString encoding b ;; ret (VStr s)
  | CValue v => ret v
  end.

Definition decode_message : string :=
  "Value expected to be an array/object but is not".

(** Lines 178-187. *)
Definition parse (val : value) : M value :=
  match val with
  | VStr s =>
      match JSON_parse lib s with
      | Some v => ret v
      | None => throw (DecodeError true decode_message)
      end
  | _ => ret val
  end.

(** Lines 153-169: what the hook does before it puts the originals
    back. *)
Definition assemble (data : jsdata) (encoding : option string) : M captured :=
  val <- capture data ;;
  debug_data data encoding ;;
  ret val.

(** Lines 153-176: the body the hook has received, decoded to text when
    it was assembled as a [Buffer]. *)
Definition received (data : jsdata) (encoding : option string) : M value :=
  val <- assemble data encoding ;;
  restore ;;
  decode encoding val.

(** Lines 153-187: everything the finalize hook does before it looks
    for a schema. *)
Definition reassemble (data : jsdata) (encoding : option string) : M value :=
  val <- received data encoding ;;
  parse val.

(** Lines 189-211. *)
Definition conclude (req : request) (val : value) (encoding : option string)
  : M unit :=
  responseSchema <- resolveResponseModelSchema req ;;
  if negb (truthy (target responseSchema)) then sendData (JVal val) encoding
  else
    validator <- compile (target responseSchema) ;;
    match validator val with
    | Some errors =>
        w <- get_world ;;
        if responseValidationFn (w_options w) then
          emit (ResponseValidationFn req val errors) ;;
          sendData (JVal val) encoding
        else emit (Next (Some (failure_object req)))
    | None => sendData (JVal val) encoding
    end.

(** The hook installed as [res.end] (lines 152-212). *)
Definition end_hook (req : request) (data : jsdata) (encoding : option string)
  : M unit :=
  val <- reassemble data encoding ;;
  conclude req val encoding.

(** Lines 140-151: the originals are saved, [writtenData] is a new
    array, and both hooks are installed. *)
Definition install_hooks : M unit :=
  fun w => (Ok tt, with_writtenData (with_hooked w true) []).

Definition validateResponse (req : request) : M unit :=
  install_hooks ;;
  emit (Next None).

(** *** The handler's side of the response object *)

(** [res.write(data)] and [res.end(data, encoding)] as the handler calls
    them: the capture hooks while they are installed, the host's
    operations otherwise. *)
Definition res_write (data : jsdata) : M unit :=
  w <- get_world ;;
  if hooked w then write_hook data else emit (OrigWrite data).

Definition res_end (req : request) (data : jsdata) (encoding : option string)
  : M unit :=
  w <- get_world ;;
  if hooked w then end_hook req data encoding
  else emit (OrigEnd data encoding).

(** A handler that writes [chunks] in order.  *)
Fixpoint write_all (chunks : list jsdata) : M unit :=
  match chunks with
  | [] => ret tt
  | c :: chunks' => res_write c ;; write_all chunks'
  end.

(** *** The middleware (lines 218-227) *)

Definition validate (req : request) : M unit :=
  w <- get_world ;;
  (if opt_validateRequest (w_options w) then validateRequest req
   else ret tt) ;;
  w <- get_world ;;
  if opt_validateResponse (w_options w) then validateResponse req
  else ret tt.

(** *** Initialisation (lines 240-251) *)

(** The argument of [init]: flags may be left undefined. *)
Record init_options : Type := {
  i_schema : value;
  i_validateRequest : option bool;
  i_validateResponse : option bool;
  i_allowNullable : option bool;
  i_requestValidationFn : bool;
  i_responseValidationFn : bool
}.

Definition or_default (o : option bool) (d : bool) : bool :=
  match o with
  | Some b => b
  | None => d
  end.

(** [_.defaults(opts, {...})] *)
Definition defaults (opts : init_options) : options :=
  {| schema := i_schema opts;
     opt_validateRequest := or_default (i_validateRequest opts) true;
     opt_validateResponse := or_default (i_validateResponse opts) true;
     allowNullable := or_default (i_allowNullable opts) true;
     requestValidationFn := i_requestValidationFn opts;
     responseValidationFn := i_responseValidationFn opts |}.

(** The module state [init] leaves, for an exchange whose response has
    status [sc]. *)
Definition init (opts : init_options) (sc : option Z) : outcome world :=
  let options := defaults opts in
  match get_prop (schema options) "paths" with
  | Throw e => Throw e
  | Ok paths =>
      match buildPathObjects paths with
      | Throw e => Throw e
      | Ok objs =>
          Ok {| w_options := options; w_pathObjects := objs;
                statusCode := sc; hooked := false;
                writtenData := []; trace := [] |}
      end
  end.

End Middleware.


(** * The contract as a store of shared objects

    In the source the contract is a graph of objects: a schema that two
    operations refer to is one object, and what [decorateWithNullable]
    assigns into it is seen from both.  This module embeds lines 12-118
    and 189-211 once more with the objects of the contract in a store,
    addressed by reference, so that sharing and cycles are expressible.
    The parsed bodies that are validated stay JSON trees. *)

Module Shared.

Definition addr : Type := nat.

(** A JavaScript value of the contract: a primitive, or a reference to
    an object of the store. *)
Inductive hval : Type :=
| HUndefined
| HNull
| HBool (b : bool)
| HNum (n : Z)
| HStr (s : string)
| HRef (a : addr).

(** An object of the store: its own properties in enumeration order.
    An array is an object whose properties are its indices, in order,
    and whose [length] is their number. *)
Record object : Type := {
  fields : list (string * hval);
  is_array : bool
}.

(** The store: the object at address [a] is the [a]-th one, and a new
    object gets the next address. *)
Definition heap : Type := list object.

Definition truthy (v : hval) : bool :=
  match v with
  | HUndefined | HNull => false
  | HBool b => b
  | HNum n => negb (n =? 0)%Z
  | HStr s => negb (s =? "")
  | HRef _ => true
  end.

Definition unreadable (v : hval) : bool :=
  match v with
  | HUndefined | HNull => true
  | _ => false
  end.

Fixpoint field (k : string) (fs : list (string * hval)) : option hval :=
  match fs with
  | [] => None
  | (k', v) :: fs' => if k =? k' then Some v else field k fs'
  end.

(** Replace the value of an existing key. *)
Fixpoint set_field (k : string) (x : hval) (fs : list (string * hval))
  : list (string * hval) :=
  match fs with
  | [] => []
  | (k', v) :: fs' =>
      if k =? k' then (k', x) :: fs' else (k', v) :: set_field k x fs'
  end.

Fixpoint chars (s : string) : list hval :=
  match s with
  | EmptyString => []
  | String c s' => HStr (String c EmptyString) :: chars s'
  end.

(** Own enumerable properties, in enumeration order. *)
Definition entries (h : heap) (v : hval) : list (string * hval) :=
  match v with
  | HRef a =>
      match nth_error h a with
      | Some o => fields o
      | None => []
      end
  | HStr s => indexed 0 (chars s)
  | _ => []
  end.

(** The [length] of arrays and strings. *)
Definition length_of (h : heap) (v : hval) : hval :=
  match v with
  | HRef a =>
      match nth_error h a with
      | Some o =>
          if is_array o then HNum (Z.of_nat (List.length (fields o)))
          else HUndefined
      | None => HUndefined
      end
  | HStr s => HNum (Z.of_nat (String.length s))
  | _ => HUndefined
  end.

(** The value of [v[k]] for [v] neither [null] nor [undefined]. *)
Definition own (h : heap) (v : hval) (k : string) : hval :=
  match field k (entries h v) with
  | Some x => x
  | None => if k =? "length" then length_of h v else HUndefined
  end.

(** Property read [v[k]] / [v.k]. *)
Definition get_prop (h : heap) (v : hval) (k : string) : outcome hval :=
  if unreadable v then Throw TypeError else Ok (own h v k).

(** [Object.keys(v)] *)
Definition Object_keys (h : heap) (v : hval) : list string :=
  map fst (entries h v).

(** [_.get(v, keys)] *)
Fixpoint lodash_get (h : heap) (v : hval) (keys : list string) : hval :=
  match keys with
  | [] => v
  | k :: keys' =>
      if unreadable v then HUndefined else lodash_get h (own h v k) keys'
  end.

Fixpoint update (a : addr) (o : object) (h : heap) : heap :=
  match h, a with
  | [], _ => []
  | _ :: h', O => o :: h'
  | o' :: h', S a' => o' :: update a' o h'
  end.

(** Assignment [v[k] = x]: the object [v] refers to is changed in the
    store, for whoever holds a reference to it.  On an object an absent
    key is appended; on an array only an existing index is written (the
    code assigns only keys it has just enumerated); assignment to a
    property of a primitive is silently dropped (the module is not in
    strict mode). *)
Definition assign (h : heap) (v : hval) (k : string) (x : hval) : heap :=
  match v with
  | HRef a =>
      match nth_error h a with
      | Some o =>
          match field k (fields o) with
          | Some _ =>
              update a {| fields := set_field k x (fields o);
                          is_array := is_array o |} h
          | None =>
              if is_array o then h
              else update a {| fields := (fields o ++ [(k, x)])%list;
                               is_array := false |} h
          end
      | None => h
      end
  | _ => h
  end.

(** ** Nullable decoration (lines 30-44) *)

(** The object literal [{ oneOf: [p, { type: 'null' }] }]: three new
    objects. *)
Definition nullable_wrap (p : hval) (h : heap) : hval * heap :=
  let n := List.length h in
  (HRef (n + 2),
   (h ++ [ {| fields := [("type", HStr "null")]; is_array := false |};
           {| fields := [("0", p); ("1", HRef n)]; is_array := true |};
           {| fields := [("oneOf", HRef (n + 1))]; is_array := false |} ])%list).

(** One iteration of the [forEach] body (lines 33-40). *)
Definition decorate_prop (schema : hval) (prop : string) (h : heap)
  : outcome unit * heap :=
  match get_prop h schema "properties" with
  | Throw e => (Throw e, h)
  | Ok props =>
      match get_prop h props prop with
      | Throw e => (Throw e, h)
      | Ok p =>
          match get_prop h p "x-nullable" with
          | Throw e => (Throw e, h)
          | Ok flag =>
              if truthy flag then
                let (wrapper, h1) := nullable_wrap p h in
                (Ok tt, assign h1 props prop wrapper)
              else (Ok tt, h)
          end
      end
  end.

(** [keys.forEach(...)]: assignments made before an exception stay. *)
Fixpoint forEach_prop (keys : list string) (schema : hval) (h : heap)
  : outcome unit * heap :=
  match keys with
  | [] => (Ok tt, h)
  | k :: keys' =>
      match decorate_prop schema k h with
      | (Ok _, h') => forEach_prop keys' schema h'
      | (Throw e, h') => (Throw e, h')
      end
  end.

(** [decorateWithNullable(schema)]: returns the reference it was given. *)
Definition decorateWithNullable (schema : hval) (h : heap)
  : outcome hval * heap :=
  if truthy schema then
    match get_prop h schema "properties" with
    | Throw e => (Throw e, h)
    | Ok props =>
        if truthy props then
          match forEach_prop (Object_keys h props) schema h with
          | (Ok _, h') => (Ok schema, h')
          | (Throw e, h') => (Throw e, h')
          end
        else (Ok schema, h)
    end
  else (Ok schema, h).

(** ** Module state *)

(** An element of [pathObjects]; [definition] is the reference
    [_.get(options.schema, ['paths', path])] found at [init]. *)
Record pathObject : Type := {
  path : string;
  regexp : string -> bool;
  definition : hval
}.

(** The store, the module variables [options] and [pathObjects], the
    status of the response and the calls made to the host. *)
Record world : Type := {
  objects : heap;
  schema : hval;
  allowNullable : bool;
  requestValidationFn : bool;
  responseValidationFn : bool;
  pathObjects : list pathObject;
  statusCode : option Z;
  trace : list event
}.

Definition with_objects (w : world) (h : heap) : world :=
  {| objects := h; schema := schema w; allowNullable := allowNullable w;
     requestValidationFn := requestValidationFn w;
     responseValidationFn := responseValidationFn w;
     pathObjects := pathObjects w; statusCode := statusCode w;
     trace := trace w |}.

Definition emit (e : event) (w : world) : world :=
  {| objects := objects w; schema := schema w; allowNullable := allowNullable w;
     requestValidationFn := requestValidationFn w;
     responseValidationFn := responseValidationFn w;
     pathObjects := pathObjects w; statusCode := statusCode w;
     trace := (trace w ++ [e])%list |}.

Section Middleware.

Variable lib : libraries.

(** [ajv.compile(schema)] on a schema of the store: [None] when the
    schema does not compile.  The engine reads the store and leaves it
    as it is. *)
Variable ajv_compile : heap -> hval -> option (value -> option value).

(** ** Path registry (lines 12-28) *)

Definition isArrayLike (h : heap) (v : hval) : bool :=
  match v with
  | HStr _ => true
  | HRef a =>
      match nth_error h a with
      | Some o =>
          if is_array o then true
          else match field "length" (fields o) with
               | Some (HNum n) => (0 <=? n)%Z && (n <=? 9007199254740991)%Z
               | _ => false
               end
      | None => false
      end
  | _ => false
  end.

Fixpoint map_keys (h : heap) (schema : hval) (keys : list string)
  : outcome (list pathObject) :=
  match keys with
  | [] => Ok []
  | k :: keys' =>
      match pathToRegexp lib (colon_template k) with
      | None => Throw TemplateError
      | Some re =>
          match map_keys h schema keys' with
          | Throw x => Throw x
          | Ok objs =>
              Ok ({| path := k; regexp := re;
                     definition := lodash_get h schema ["paths"; k] |} :: objs)
          end
      end
  end.

Definition buildPathObjects (h : heap) (schema paths : hval)
  : outcome (list pathObject) :=
  if isArrayLike h paths then
    match own h paths "length" with
    | HNum 0 => Ok []
    | _ => Throw TypeError
    end
  else map_keys h schema (Object_keys h paths).

Definition matchUrlWithSchema (reqUrl : string) (w : world) : outcome hval :=
  match parseUrl_pathname lib reqUrl with
  | Some url =>
      match filter (fun obj => regexp obj url) (pathObjects w) with
      | obj :: _ => Ok (definition obj)
      | [] => Ok HNull
      end
  | None =>
      match pathObjects w with
      | [] => Ok HNull
      | _ :: _ => Throw TypeError
      end
  end.

(** ** Schema resolution (lines 46-81) *)

(** Lines 47-56: the schema the response resolver finds. *)
Definition find_response_schema (req : request) (w : world) : outcome hval :=
  let h := objects w in
  match matchUrlWithSchema (originalUrl req) w with
  | Throw e => Throw e
  | Ok pathObj =>
      if truthy pathObj then
        match get_prop h pathObj (toLowerCase (method req)) with
        | Throw e => Throw e
        | Ok operation =>
            match get_prop h operation "responses" with
            | Throw e => Throw e
            | Ok responseSchemas =>
                let code := status_or_200 (statusCode w) in
                match get_prop h responseSchemas (status_key code) with
                | Throw e => Throw e
                | Ok descriptor =>
                    if truthy descriptor then get_prop h descriptor "schema"
                    else Ok HNull
                end
            end
        end
      else Ok HNull
  end.

(** Lines 58-61 and 77-80. *)
Definition finish (found : outcome hval) (w : world) : outcome hval * world :=
  match found with
  | Throw e => (Throw e, w)
  | Ok schema =>
      if allowNullable w then
        let (r, h') := decorateWithNullable schema (objects w) in
        (r, with_objects w h')
      else (Ok schema, w)
  end.

Definition resolveResponseModelSchema (req : request) (w : world)
  : outcome hval * world :=
  finish (find_response_schema req w) w.

(** [x > 0]: an array is converted through its only element; a cycle
    of such arrays converts to the empty string. *)
Fixpoint js_gt0 (fuel : nat) (h : heap) (v : hval) : bool :=
  match v with
  | HNum n => (0 <? n)%Z
  | HBool b => b
  | HStr s => StringToNumber_gt0 lib s
  | HRef a =>
      match fuel with
      | O => false
      | S fuel' =>
          match nth_error h a with
          | Some {| fields := [(_, x)]; is_array := true |} =>
              match x with
              | HNum n => (0 <? n)%Z
              | HStr s => StringToNumber_gt0 lib s
              | HRef _ => js_gt0 fuel' h x
              | _ => false
              end
          | _ => false
          end
      end
  | _ => false
  end.

(** Lines 65-76: the schema the request resolver finds. *)
Definition find_request_schema (req : request) (w : world) : outcome hval :=
  let h := objects w in
  match matchUrlWithSchema (originalUrl req) w with
  | Throw e => Throw e
  | Ok pathObj =>
      if truthy pathObj then
        match get_prop h pathObj (toLowerCase (method req)) with
        | Throw e => Throw e
        | Ok operation =>
            let requestSchemas :=
              if truthy operation then own h operation "parameters"
              else HNull in
            if truthy requestSchemas
               && js_gt0 (S (List.length h)) h (own h requestSchemas "length")
            then
              get_prop h (own h requestSchemas "0") "schema"
            else Ok HNull
        end
      else Ok HNull
  end.

Definition resolveRequestModelSchema (req : request) (w : world)
  : outcome hval * world :=
  finish (find_request_schema req w) w.

(** ** The stages around the resolution *)

(** [validateRequest] (lines 83-118). *)
Definition validateRequest (req : request) (w : world) : outcome unit * world :=
  match resolveRequestModelSchema req w with
  | (Throw e, w1) => (Throw e, w1)
  | (Ok requestSchema, w1) =>
      if negb (truthy requestSchema) then (Ok tt, emit (Next None) w1)
      else
        match ajv_compile (objects w1) requestSchema with
        | None => (Throw SchemaCompileError, w1)
        | Some validator =>
            match validator (body req) with
            | Some errors =>
                if requestValidationFn w1 then
                  (Ok tt,
                   emit (Next None)
                     (emit (RequestValidationFn req (body req) errors) w1))
                else
                  (Ok tt,
                   emit (ResJson (failure_object req)) (emit (ResStatus 400) w1))
            | None => (Ok tt, emit (Next None) w1)
            end
        end
  end.

(** [sendData(res, val, encoding)] on the parsed body (lines 120-126). *)
Definition sendData (val : value) (encoding : option string) (w : world)
  : world :=
  let data := JVal val in
  let data :=
    if negb (isBuffer data) && negb (isString data) then stringify lib data
    else data in
  emit (OrigEnd data encoding) w.

(** Lines 189-211 of the finalize hook, once the body is reassembled
    and parsed into [val]. *)
Definition conclude (req : request) (val : value) (encoding : option string)
           (w : world) : outcome unit * world :=
  match resolveResponseModelSchema req w with
  | (Throw e, w1) => (Throw e, w1)
  | (Ok responseSchema, w1) =>
      if negb (truthy responseSchema) then (Ok tt, sendData val encoding w1)
      else
        match ajv_compile (objects w1) responseSchema with
        | None => (Throw SchemaCompileError, w1)
        | Some validator =>
            match validator val with
            | Some errors =>
                if responseValidationFn w1 then
                  (Ok tt,
                   sendData val encoding
                     (emit (ResponseValidationFn req val errors) w1))
                else (Ok tt, emit (Next (Some (failure_object req))) w1)
            | None => (Ok tt, sendData val encoding w1)
            end
        end
  end.

(** ** Initialisation (lines 240-251) *)

(** The module state [init] leaves for the contract [schema] held in
    the store [h]; the flags are those [_.defaults] has left in
    [options]. *)
Definition init (h : heap) (schema : hval) (allow_nullable request_fn response_fn : bool)
           (sc : option Z) : outcome world :=
  match get_prop h schema "paths" with
  | Throw e => Throw e
  | Ok paths =>
      match buildPathObjects h schema paths with
      | Throw e => Throw e
      | Ok objs =>
          Ok {| objects := h; schema := schema;
                allowNullable := allow_nullable;
                requestValidationFn := request_fn;
                responseValidationFn := response_fn;
                pathObjects := objs; statusCode := sc; trace := [] |}
      end
  end.

End Middleware.

End Shared.

(** * Notions used by the properties *)

Definition is_container (v : value) : bool :=
  match v with
  | VObj _ | VArr _ => true
  | _ => false
  end.

(** [null] and [undefined]: values whose properties cannot be read. *)
Definition unreadable (v : value) : bool :=
  match v with
  | VUndefined | VNull => true
  | _ => false
  end.

Definition is_null (v : value) : bool :=
  match v with
  | VNull => true
  | _ => false
  end.

Definition mem (k : string) (keys : list string) : bool :=
  existsb (String.eqb k) keys.

(** [p['x-nullable']] is read and is truthy. *)
Definition nullable (p : value) : bool :=
  match get_prop p "x-nullable" with
  | Ok flag => truthy flag
  | Throw _ => false
  end.

(** What the decoration may do to one property: leave it, or wrap it
    when it is nullable. *)
Definition rewritten (v v' : value) : Prop :=
  v' = v \/ (nullable v = true /\ v' = nullable_wrap v).

Definition entry_rewritten (e e' : string * value) : Prop :=
  fst e' = fst e /\ rewritten (snd e) (snd e').

(** What the decoration may do to the object holding the properties. *)
Inductive props_rewritten : value -> value -> Prop :=
| rewritten_object (fs fs' : list (string * value)) :
    Forall2 entry_rewritten fs fs' -> props_rewritten (VObj fs) (VObj fs')
| rewritten_array (l l' : list value) :
    Forall2 rewritten l l' -> props_rewritten (VArr l) (VArr l')
| rewritten_same (v : value) : props_rewritten v v.

(** Two locations part ways: after a common prefix they continue with
    different keys. *)
Definition diverge (l l' : list string) : Prop :=
  exists common k k' rest rest',
    l = (common ++ k :: rest)%list /\ l' = (common ++ k' :: rest')%list
    /\ (k' =? k) = false.

(** ** Schema resolution as a reading of the contract tree *)

(** The reference to what the contract holds at location [l]. *)
Definition at_loc (doc : value) (l : list string) : jsref :=
  {| target := lodash_get doc l; origin := Some l |}.

(** The first path object whose matcher accepts the path of the URL. *)
Definition matched (lib : libraries) (w : world) (reqUrl : string)
  : outcome (option pathObject) :=
  match parseUrl_pathname lib reqUrl with
  | Some u => Ok (find (fun obj => regexp obj u) (w_pathObjects w))
  | None =>
      match w_pathObjects w with
      | [] => Ok None
      | _ :: _ => Throw TypeError
      end
  end.

Definition operation_loc (obj : pathObject) (req : request) : list string :=
  ["paths"; path obj; toLowerCase (method req)].

Definition parameters_loc (obj : pathObject) (req : request) : list string :=
  (operation_loc obj req ++ ["parameters"])%list.

(** Where the schema of the first declared parameter is. *)
Definition request_schema_loc (obj : pathObject) (req : request) : list string :=
  (parameters_loc obj req ++ ["0"; "schema"])%list.

Definition responses_loc (obj : pathObject) (req : request) : list string :=
  (operation_loc obj req ++ ["responses"])%list.

Definition descriptor_loc (w : world) (obj : pathObject) (req : request)
  : list string :=
  (responses_loc obj req ++ [status_key (status_or_200 (statusCode w))])%list.

(** Where the schema of the response descriptor is. *)
Definition response_schema_loc (w : world) (obj : pathObject) (req : request)
  : list string :=
  (descriptor_loc w obj req ++ ["schema"])%list.

(** What lines 64-76 leave in [schema]. *)
Definition request_schema_ref (lib : libraries) (w : world) (req : request)
  : outcome jsref :=
  let doc := contract w in
  match matched lib w (originalUrl req) with
  | Throw e => Throw e
  | Ok None => Ok (fresh VNull)
  | Ok (Some obj) =>
      if truthy (lodash_get doc ["paths"; path obj])
         && truthy (lodash_get doc (operation_loc obj req))
         && truthy (lodash_get doc (parameters_loc obj req))
         && js_gt0 lib (lodash_get doc (parameters_loc obj req ++ ["length"]))
      then
        if unreadable (lodash_get doc (parameters_loc obj req ++ ["0"]))
        then Throw TypeError
        else Ok (at_loc doc (request_schema_loc obj req))
      else Ok (fresh VNull)
  end.

(** What lines 47-56 leave in [schema]. *)
Definition response_schema_ref (lib : libraries) (w : world) (req : request)
  : outcome jsref :=
  let doc := contract w in
  match matched lib w (originalUrl req) with
  | Throw e => Throw e
  | Ok None => Ok (fresh VNull)
  | Ok (Some obj) =>
      if truthy (lodash_get doc ["paths"; path obj]) then
        if unreadable (lodash_get doc (operation_loc obj req))
           || unreadable (lodash_get doc (responses_loc obj req))
        then Throw TypeError
        else if truthy (lodash_get doc (descriptor_loc w obj req))
             then Ok (at_loc doc (response_schema_loc w obj req))
             else Ok (fresh VNull)
      else Ok (fresh VNull)
  end.

(** What a resolution may do to the schema object it resolves: leave it,
    or rewrite nullable entries of its [properties]. *)
Definition schema_rewritten (s s' : value) : Prop :=
  s' = s
  \/ exists fs props props',
       s = VObj fs /\ assoc "properties" fs = Some props
       /\ props_rewritten props props'
       /\ s' = VObj (assoc_set "properties" props' fs).

(** What a resolution may do to the contract, on its tree reading:
    nothing, or rewrite one schema object in place. *)
Definition contract_rewritten (doc doc' : value) : Prop :=
  doc' = doc
  \/ exists loc s',
       schema_rewritten (lodash_get doc loc) s' /\ doc' = set_at loc s' doc.

(** The resolver that returned [r] has rewritten, of the contract, the
    schema [r] alone, in place: the contract now holds [r] where it was
    read.  A result that is not part of the contract leaves the world as
    it was. *)
Definition resolved_in_place (w w1 : world) (r : jsref) : Prop :=
  match origin r with
  | Some loc =>
      schema_rewritten (lodash_get (contract w) loc) (target r)
      /\ contract w1 = set_at loc (target r) (contract w)
      /\ lodash_get (contract w1) loc = target r
  | None => w1 = w
  end.

(** Everything of the world but the contract. *)
Definition same_but_contract (w w' : world) : Prop :=
  w' = with_options w (with_schema (w_options w) (contract w')).

(** Registry and options of [w'] are those of [w], the contract apart. *)
Definition registry_kept (w w' : world) : Prop :=
  w_pathObjects w' = w_pathObjects w
  /\ w_options w' = with_schema (w_options w) (contract w').

(** The world once the contract has become [d]. *)
Definition rewrite_world (w : world) (d : value) : world :=
  with_options w (with_schema (w_options w) d).


(** How many times the continuation is called in a trace. *)
Fixpoint count_next (t : list event) : nat :=
  match t with
  | [] => 0
  | Next _ :: t' => S (count_next t')
  | _ :: t' => count_next t'
  end.

(** How many times the host's [res.end] is called in a trace. *)
Fixpoint count_end (t : list event) : nat :=
  match t with
  | [] => 0
  | OrigEnd _ _ :: t' => S (count_end t')
  | _ :: t' => count_end t'
  end.

(** ** The stages once the schema is resolved *)

(** What the request stage does once the schema is resolved. *)
Definition request_verdict (lib : libraries) (req : request) (r : jsref)
           (w1 : world) : outcome unit * world :=
  if negb (truthy (target r)) then emit (Next None) w1
  else
    match ajv_compile lib (target r) with
    | None => (Throw SchemaCompileError, w1)
    | Some validator =>
        match validator (body req) with
        | Some errors =>
            if requestValidationFn (w_options w1) then
              (Ok tt,
               with_trace w1
                 (trace w1 ++ [RequestValidationFn req (body req) errors;
                               Next None]))
            else
              (Ok tt,
               with_trace w1
                 (trace w1 ++ [ResStatus 400; ResJson (failure_object req)]))
        | None => emit (Next None) w1
        end
    end.

(** What is passed to the host's [res.end]. *)
Definition payload (lib : libraries) (val : value) : jsdata :=
  match val with
  | VStr _ => JVal val
  | _ => JVal (JSON_stringify lib val)
  end.

(** What the finalize hook does once the schema is resolved. *)
Definition response_verdict (lib : libraries) (req : request) (val : value)
           (encoding : option string) (r : jsref) (w1 : world)
  : outcome unit * world :=
  if negb (truthy (target r)) then sendData lib (JVal val) encoding w1
  else
    match ajv_compile lib (target r) with
    | None => (Throw SchemaCompileError, w1)
    | Some validator =>
        match validator val with
        | Some errors =>
            if responseValidationFn (w_options w1) then
              (Ok tt,
               with_trace w1
                 (trace w1 ++ [ResponseValidationFn req val errors;
                               OrigEnd (payload lib val) encoding]))
            else
              (Ok tt,
               with_trace w1 (trace w1 ++ [Next (Some (failure_object req))]))
        | None => sendData lib (JVal val) encoding w1
        end
    end.

(** Only the hooks and the capture buffer of the world change. *)
Definition capture_only (w w' : world) : Prop :=
  w_options w' = w_options w /\ w_pathObjects w' = w_pathObjects w
  /\ statusCode w' = statusCode w /\ trace w' = trace w.

(** ** A reference reading of JSON Schema *)

(** The three JSON Schema keywords the decoration involves, as the
    validation engine interprets them: [type] (one type name), [oneOf]
    (exactly one alternative accepts) and [properties] (each listed
    property that the instance has is accepted by its schema).  Other
    keywords, [x-nullable] among them, are ignored. *)
Module Reference.

Definition has_type (t : string) (instance : value) : bool :=
  match instance with
  | VNull => t =? "null"
  | VBool _ => t =? "boolean"
  | VNum _ => (t =? "number") || (t =? "integer")
  | VStr _ => t =? "string"
  | VArr _ => t =? "array"
  | VObj _ => t =? "object"
  | VUndefined => false
  end.

Fixpoint accepts (schema instance : value) {struct schema} : bool :=
  match schema with
  | VObj keywords =>
      (fix each (kws : list (string * value)) : bool :=
         match kws with
         | [] => true
         | (kw, arg) :: rest =>
             (if kw =? "type" then
                match arg with
                | VStr t => has_type t instance
                | _ => true
                end
              else if kw =? "oneOf" then
                match arg with
                | VArr alternatives =>
                    Nat.eqb
                      ((fix count (l : list value) : nat :=
                          match l with
                          | [] => 0
                          | a :: l' =>
                              (if accepts a instance then 1 else 0) + count l'
                          end) alternatives) 1
                | _ => true
                end
              else if kw =? "properties" then
                match arg, instance with
                | VObj ps, VObj fields =>
                    (fix props (ps : list (string * value)) : bool :=
                       match ps with
                       | [] => true
                       | (name, s) :: ps' =>
                           match assoc name fields with
                           | Some x => accepts s x
                           | None => true
                           end && props ps'
                       end) ps
                | _, _ => true
                end
              else true) && each rest
         end) keywords
  | _ => true
  end.

End Reference.

(** ** Example schemas *)

(** A schema whose property [x] is a nullable string. *)
Definition nullable_string_schema : value :=
  VObj [("type", VStr "object");
        ("properties",
         VObj [("x", VObj [("type", VStr "string");
                           ("x-nullable", VBool true)])])].

(** The decorated form of [nullable_string_schema]. *)
Definition nullable_string_decorated : value :=
  VObj [("type", VStr "object");
        ("properties",
         VObj [("x", nullable_wrap (VObj [("type", VStr "string");
                                          ("x-nullable", VBool true)]))])].

(** A schema whose property [x] is marked nullable and constrains
    nothing else. *)
Definition nullable_untyped_schema : value :=
  VObj [("properties", VObj [("x", VObj [("x-nullable", VBool true)])])].

(** ** A concrete host, for examples *)

Module Demo.

(** Segments of a path, split at [/]. *)
Fixpoint segments (s : string) (current : string) : list string :=
  match s with
  | EmptyString => [current]
  | String c s' =>
      if Ascii.eqb c "/" then current :: segments s' EmptyString
      else segments s' (current ++ String c EmptyString)
  end.

Definition segment_matches (t u : string) : bool :=
  match t with
  | String ":" _ => negb (u =? "")
  | _ => t =? u
  end.

Fixpoint all_match (ts us : list string) : bool :=
  match ts, us with
  | [], [] => true
  | t :: ts', u :: us' => segment_matches t u && all_match ts' us'
  | _, _ => false
  end.

(** A matcher for templates whose placeholders [:name] stand for one
    non-empty segment. *)
Definition matcher (template url : string) : bool :=
  all_match (segments template EmptyString) (segments url EmptyString).

(** This host has no groups: it rejects a template with a parenthesis. *)
Fixpoint plain_template (t : string) : bool :=
  match t with
  | EmptyString => true
  | String c t' =>
      negb (Ascii.eqb c "(") && negb (Ascii.eqb c ")") && plain_template t'
  end.

Definition compile_template (template : string) : option (string -> bool) :=
  if plain_template template then Some (matcher template) else None.

(** The path object registered for a template this host accepts. *)
Definition entry (p : string) : pathObject :=
  {| path := p; regexp := matcher (colon_template p) |}.

Definition compile_schema (schema : value) : option (value -> option value) :=
  match schema with
  | VObj _ =>
      Some (fun instance =>
              if Reference.accepts schema instance then None
              else Some (VArr [VObj [("message", VStr "invalid")]]))
  | _ => None
  end.

Definition parse_json (s : string) : option value :=
  if s =? "" then None
  else if s =? "null" then Some VNull
  else if s =? "true" then Some (VBool true)
  else if s =? "{}" then Some (VObj [])
  else if s =? "[]" then Some (VArr [])
  else match NilEmpty.uint_of_string s with
       | Some d => Some (VNum (Z.of_nat (Nat.of_uint d)))
       | None => None
       end.

Definition stringify_json (v : value) : value :=
  match v with
  | VUndefined => VUndefined
  | VNull => VStr "null"
  | VBool true => VStr "true"
  | VBool false => VStr "false"
  | VNum n => VStr (status_key n)
  | VStr s => VStr s
  | VArr _ => VStr "[]"
  | VObj _ => VStr "{}"
  end.

Definition to_string (encoding : option string) (b : bytes) : option string :=
  match encoding with
  | None => Some (string_of_list_byte b)
  | Some e => if e =? "utf8" then Some (string_of_list_byte b) else None
  end.

Definition number_gt0 (s : string) : bool :=
  match NilEmpty.uint_of_string s with
  | Some d => negb (Nat.eqb (Nat.of_uint d) 0)
  | None => false
  end.

Definition lib : libraries :=
  {| parseUrl_pathname := pathname;
     pathToRegexp := compile_template;
     ajv_compile := compile_schema;
     JSON_parse := parse_json;
     JSON_stringify := stringify_json;
     Buffer_from := list_byte_of_string;
     Buffer_toString := to_string;
     StringToNumber_gt0 := number_gt0 |}.

(** A nullable string property, and a schema requiring it. *)
Definition name_schema : value :=
  VObj [("type", VStr "object");
        ("properties",
         VObj [("name", VObj [("type", VStr "string");
                              ("x-nullable", VBool true)])])].

(** [name_schema] once decorated. *)
Definition name_schema_decorated : value :=
  VObj [("type", VStr "object");
        ("properties",
         VObj [("name", nullable_wrap (VObj [("type", VStr "string");
                                             ("x-nullable", VBool true)]))])].

Definition number_schema : value := VObj [("type", VStr "number")].

(** [GET /items/{id}] answers 200 with a number; [POST /items/{id}] takes
    a body described by [name_schema]; [/items/special] is registered
    after the template it also matches. *)
Definition contract_paths : value :=
  VObj [("/items/{id}",
         VObj [("get",
                VObj [("responses",
                       VObj [("200", VObj [("schema", number_schema)])])]);
               ("post",
                VObj [("parameters",
                       VArr [VObj [("in", VStr "body");
                                   ("schema", name_schema)]]);
                      ("responses", VObj [])])]);
        ("/items/special",
         VObj [("get", VObj [("parameters", VArr []);
                             ("responses", VObj [])])])].

Definition contract_document : value := VObj [("paths", contract_paths)].

Definition opts (allow_nullable request_fn response_fn : bool) : init_options :=
  {| i_schema := contract_document;
     i_validateRequest := None;
     i_validateResponse := None;
     i_allowNullable := Some allow_nullable;
     i_requestValidationFn := request_fn;
     i_responseValidationFn := response_fn |}.

(** The world [init] leaves, or an empty one if [init] throws. *)
Definition world_of (o : outcome world) : world :=
  match o with
  | Ok w => w
  | Throw _ =>
      {| w_options := defaults (opts false false false);
         w_pathObjects := []; statusCode := None; hooked := false;
         writtenData := []; trace := [] |}
  end.

Definition start (allow_nullable request_fn response_fn : bool) : world :=
  world_of (init lib (opts allow_nullable request_fn response_fn) None).

Definition get_item : request :=
  {| method := "GET"; originalUrl := "/items/7?verbose=1"; body := VUndefined |}.

Definition post_item (b : value) : request :=
  {| method := "POST"; originalUrl := "/items/7"; body := b |}.

Definition put_item : request :=
  {| method := "PUT"; originalUrl := "/items/7"; body := VUndefined |}.

End Demo.

(** * Further notions *)

(** How many times [res.status] is called in a trace. *)
Fixpoint count_status (t : list event) : nat :=
  match t with
  | [] => 0
  | ResStatus _ :: t' => S (count_status t')
  | _ :: t' => count_status t'
  end.

(** No character of [s] is a brace. *)
Fixpoint brace_free (s : string) : bool :=
  match s with
  | EmptyString => true
  | String c s' =>
      negb (Ascii.eqb c "{") && negb (Ascii.eqb c "}") && brace_free s'
  end.

(** ** Further examples *)

Module Examples.

(** [POST /search] declares a query parameter without schema before its
    body parameter. *)
Definition search_document : value :=
  VObj [("paths",
         VObj [("/search",
                VObj [("post",
                       VObj [("parameters",
                              VArr [VObj [("in", VStr "query");
                                          ("name", VStr "q")];
                                    VObj [("in", VStr "body");
                                          ("schema", Demo.name_schema)]]);
                             ("responses", VObj [])])])])].

Definition options_for (document : value) : init_options :=
  {| i_schema := document;
     i_validateRequest := None;
     i_validateResponse := None;
     i_allowNullable := None;
     i_requestValidationFn := false;
     i_responseValidationFn := false |}.

Definition search_start : world :=
  Demo.world_of (init Demo.lib (options_for search_document) None).

Definition post_search (b : value) : request :=
  {| method := "POST"; originalUrl := "/search"; body := b |}.

(** A schema one of whose properties is [null]. *)
Definition broken_schema : value :=
  VObj [("type", VStr "object");
        ("properties",
         VObj [("name", VObj [("type", VStr "string");
                              ("x-nullable", VBool true)]);
               ("age", VNull)])].

(** A schema none of whose properties is nullable. *)
Definition plain_schema : value :=
  VObj [("type", VStr "object");
        ("properties",
         VObj [("name", VObj [("type", VStr "string")]);
               ("age", VObj [("type", VStr "number");
                             ("x-nullable", VBool false)])])].

(** A request whose URL has no path component. *)
Definition query_only : request :=
  {| method := "GET"; originalUrl := "?verbose=1"; body := VUndefined |}.

(** The request of [Demo.get_item] with its method in lower case. *)
Definition get_item_lower : request :=
  {| method := "get"; originalUrl := "/items/7?verbose=1"; body := VUndefined |}.

(** The example contract with both stages switched off. *)
Definition stages_off : init_options :=
  {| i_schema := Demo.contract_document;
     i_validateRequest := Some false;
     i_validateResponse := Some false;
     i_allowNullable := None;
     i_requestValidationFn := false;
     i_responseValidationFn := false |}.

End Examples.

(** * Notions for the store of shared objects *)

Module SharedNotions.
Import Shared.

(** [v] is the reference to the object at [a]. *)
Definition refers (v : hval) (a : addr) : bool :=
  match v with
  | HRef b => Nat.eqb a b
  | _ => false
  end.

(** The three objects of [{ oneOf: [p, { type: 'null' }] }] are at the
    addresses [n], [n + 1] and [n + 2] of the store. *)
Definition wrapped_at (h : heap) (n : addr) (p : hval) : Prop :=
  nth_error h n = Some {| fields := [("type", HStr "null")]; is_array := false |}
  /\ nth_error h (n + 1)
     = Some {| fields := [("0", p); ("1", HRef n)]; is_array := true |}
  /\ nth_error h (n + 2)
     = Some {| fields := [("oneOf", HRef (n + 1))]; is_array := false |}.

(** Iterating on property [k] of [props] changes nothing: the property
    can be read and carries no truthy [x-nullable]. *)
Definition settled (h : heap) (props : hval) (k : string) : Prop :=
  unreadable (own h props k) = false
  /\ truthy (own h (own h props k) "x-nullable") = false.

(** Every object of [h] but the one [props] refers to is in [h'] as it
    was; objects may have been added. *)
Definition kept_but (props : hval) (h h' : heap) : Prop :=
  List.length h <= List.length h'
  /\ forall a, a < List.length h -> refers props a = false ->
               nth_error h' a = nth_error h a.

(** The values a resolver reads a property of, from the path object on. *)
Fixpoint chain (h : heap) (v : hval) (keys : list string) : list hval :=
  v :: match keys with
       | [] => []
       | k :: keys' => chain h (own h v k) keys'
       end.

(** [v] is a primitive, or refers to an object of the store other than
    the one [props] refers to. *)
Definition apart (h : heap) (props v : hval) : bool :=
  match v with
  | HRef a => Nat.ltb a (List.length h) && negb (refers props a)
  | _ => true
  end.

(** One iteration of the loop of [decorateWithNullable] when
    [schema.properties] is [props]. *)
Definition step (props : hval) (k : string) (h : heap) : outcome unit * heap :=
  let p := own h props k in
  if unreadable p then (Throw TypeError, h)
  else if truthy (own h p "x-nullable") then
         (Ok tt,
          assign (snd (nullable_wrap p h)) props k (fst (nullable_wrap p h)))
       else (Ok tt, h).

Fixpoint steps (props : hval) (keys : list string) (h : heap)
  : outcome unit * heap :=
  match keys with
  | [] => (Ok tt, h)
  | k :: keys' =>
      match step props k h with
      | (Ok _, h') => steps props keys' h'
      | (Throw e, h') => (Throw e, h')
      end
  end.

End SharedNotions.

Module SharedFrame.
Import Shared SharedNotions.

(** What a resolver that looks for a schema ([found]) and ends in
    [result] may do to the world [w].  Registry, options and trace are
    as they were.  With [allowNullable] off, or when the search throws,
    nothing changes.  Otherwise, for the schema [s] found: the result,
    if any, is [s] itself; no object of the store is changed but the one
    [s.properties] refers to, and objects may have been added; and when
    the resolver returns (and [s.properties] is not [s] itself), the
    properties object has the same keys, each property that carried a
    truthy [x-nullable] now refers to a new wrapper of what it referred
    to, each other property is as it was, and decorating [s] again
    changes nothing. *)
Definition confined (w : world) (found : outcome hval)
           (result : outcome hval * world) : Prop :=
  let h := objects w in
  let w1 := snd result in
  let h1 := objects w1 in
  (pathObjects w1 = pathObjects w /\ schema w1 = schema w
   /\ allowNullable w1 = allowNullable w
   /\ requestValidationFn w1 = requestValidationFn w
   /\ responseValidationFn w1 = responseValidationFn w
   /\ statusCode w1 = statusCode w /\ trace w1 = trace w)
  /\ (allowNullable w = false -> result = (found, w))
  /\ (forall e, found = Throw e -> result = (Throw e, w))
  /\ forall s,
       found = Ok s ->
       let props := own h s "properties" in
       (forall r, fst result = Ok r -> r = s)
       /\ kept_but props h h1
       /\ (props <> s ->
           (forall e, fst result = Throw e -> e = TypeError)
           /\ (allowNullable w = true -> fst result = Ok s ->
               own h1 s "properties" = props
               /\ Object_keys h1 props = Object_keys h props
               /\ (forall k,
                     In k (Object_keys h props) ->
                     (truthy (own h (own h props k) "x-nullable") = true ->
                      exists n, List.length h <= n
                                /\ own h1 props k = HRef (n + 2)
                                /\ wrapped_at h1 n (own h props k))
                     /\ (truthy (own h (own h props k) "x-nullable") = false ->
                         own h1 props k = own h props k))
               /\ decorateWithNullable s h1 = (Ok s, h1))).

End SharedFrame.

(** ** A contract with a shared schema *)

Module SharedExamples.
Import Shared.

Definition obj (fs : list (string * hval)) : object :=
  {| fields := fs; is_array := false |}.

Definition arr (l : list hval) : object :=
  {| fields := indexed 0 l; is_array := true |}.

(** [POST /a] and [POST /b] take a body described by one and the same
    schema object (at address 10), which is also the schema of their
    response 200; its property [name] is nullable. *)
Definition contract : heap :=
  [ obj [("paths", HRef 1)];
    obj [("/a", HRef 2); ("/b", HRef 3)];
    obj [("post", HRef 4)];
    obj [("post", HRef 5)];
    obj [("parameters", HRef 6); ("responses", HRef 13)];
    obj [("parameters", HRef 7); ("responses", HRef 13)];
    arr [HRef 8];
    arr [HRef 9];
    obj [("in", HStr "body"); ("schema", HRef 10)];
    obj [("in", HStr "body"); ("schema", HRef 10)];
    obj [("type", HStr "object"); ("properties", HRef 11)];
    obj [("name", HRef 12); ("age", HRef 14)];
    obj [("type", HStr "string"); ("x-nullable", HBool true)];
    obj [("200", HRef 15)];
    obj [("type", HStr "number")];
    obj [("schema", HRef 10)] ].

Definition world_of (o : outcome world) : world :=
  match o with
  | Ok w => w
  | Throw _ =>
      {| objects := []; schema := HUndefined; allowNullable := false;
         requestValidationFn := false; responseValidationFn := false;
         pathObjects := []; statusCode := None; trace := [] |}
  end.

Definition start (allow_nullable : bool) : world :=
  world_of (init Demo.lib contract (HRef 0) allow_nullable false false None).

Definition post_a : request :=
  {| method := "POST"; originalUrl := "/a"; body := VNull |}.

Definition post_b : request :=
  {| method := "POST"; originalUrl := "/b?x=1"; body := VNull |}.

(** An engine that accepts everything. *)
Definition accept_all (h : heap) (s : hval) : option (value -> option value) :=
  Some (fun _ => None).

End SharedExamples.

(** ** The two readings of a contract *)

Module SharedTrees.
Import Shared.

(** The tree [v] laid out in the store after the objects of [h], each
    object of the tree becoming one object of the store: nothing is
    shared. *)
Fixpoint load (v : value) (h : heap) : hval * heap :=
  match v with
  | VUndefined => (HUndefined, h)
  | VNull => (HNull, h)
  | VBool b => (HBool b, h)
  | VNum n => (HNum n, h)
  | VStr s => (HStr s, h)
  | VArr l =>
      let fix items (l : list value) (h : heap) : list hval * heap :=
        match l with
        | [] => ([], h)
        | x :: rest =>
            let (x', h1) := load x h in
            let (rest', h2) := items rest h1 in
            (x' :: rest', h2)
        end in
      let (l', h') := items l h in
      (HRef (List.length h'),
       (h' ++ [{| fields := indexed 0 l'; is_array := true |}])%list)
  | VObj fs =>
      let fix props (fs : list (string * value)) (h : heap)
        : list (string * hval) * heap :=
        match fs with
        | [] => ([], h)
        | (k, x) :: rest =>
            let (x', h1) := load x h in
            let (rest', h2) := props rest h1 in
            ((k, x') :: rest', h2)
        end in
      let (fs', h') := props fs h in
      (HRef (List.length h'),
       (h' ++ [{| fields := fs'; is_array := false |}])%list)
  end.

(** The tree a value of the store reads as, down to depth [fuel]. *)
Fixpoint tree_of (fuel : nat) (h : heap) (v : hval) : value :=
  match v with
  | HUndefined => VUndefined
  | HNull => VNull
  | HBool b => VBool b
  | HNum n => VNum n
  | HStr s => VStr s
  | HRef a =>
      match fuel with
      | O => VUndefined
      | S fuel' =>
          match nth_error h a with
          | Some o =>
              if is_array o
              then VArr (map (fun f => tree_of fuel' h (snd f)) (fields o))
              else VObj (map (fun f => (fst f, tree_of fuel' h (snd f)))
                             (fields o))
          | None => VUndefined
          end
      end
  end.

(** The example contract of [Demo], laid out in a store. *)
Definition demo_root : hval := fst (load Demo.contract_document []).
Definition demo_store : heap := snd (load Demo.contract_document []).

Definition demo_start (allow_nullable : bool) : world :=
  SharedExamples.world_of
    (init Demo.lib demo_store demo_root allow_nullable false false None).

(** The example engine of [Demo], on the tree a schema of the store
    reads as. *)
Definition demo_compile (h : heap) (s : hval) : option (value -> option value) :=
  Demo.compile_schema (tree_of 12 h s).

End SharedTrees.

(** * Properties *)

(** ** Association lists and property access *)

Lemma assoc_set_same (k : string) (x p : value) (es : list (string * value)) :
  assoc k es = Some p -> assoc k (assoc_set k x es) = Some x.
Proof.
  induction es as [|[k' v] es IH]; simpl; [discriminate|].
  destruct (k =? k') eqn:E; simpl; rewrite E; auto.
Qed.

Lemma assoc_set_other (k k' : string) (x : value) (es : list (string * value)) :
  (k' =? k) = false -> assoc k' (assoc_set k x es) = assoc k' es.
Proof.
  intros Hne. induction es as [|[k0 v] es IH]; simpl; [reflexivity|].
  destruct (k =? k0) eqn:E; simpl.
  - apply String.eqb_eq in E. subst k0. rewrite Hne. reflexivity.
  - rewrite IH. reflexivity.
Qed.

Lemma assoc_set_keys (k : string) (x : value) (es : list (string * value)) :
  map fst (assoc_set k x es) = map fst es.
Proof.
  induction es as [|[k' v] es IH]; simpl; [reflexivity|].
  destruct (k =? k'); simpl; congruence.
Qed.

Lemma assoc_set_unchanged (k : string) (p : value) (es : list (string * value)) :
  assoc k es = Some p -> assoc_set k p es = es.
Proof.
  induction es as [|[k' v] es IH]; simpl; [reflexivity|].
  destruct (k =? k') eqn:E; intros H.
  - congruence.
  - rewrite IH; auto.
Qed.

Lemma assoc_set_twice (k : string) (x : value) (es : list (string * value)) :
  assoc_set k x (assoc_set k x es) = assoc_set k x es.
Proof.
  induction es as [|[k' v] es IH]; simpl; [reflexivity|].
  destruct (k =? k') eqn:E; simpl; rewrite E; congruence.
Qed.

Lemma indexed_keys {A B : Type} (i : nat) (l : list A) (l' : list B) :
  List.length l = List.length l' -> map fst (indexed i l) = map fst (indexed i l').
Proof.
  revert i l'. induction l as [|a l IH]; intros i [|b l']; simpl;
    try discriminate; auto.
  intros H. f_equal. apply IH. lia.
Qed.

Lemma indexed_map_snd (i : nat) (l : list value) (es : list (string * value)) :
  map fst es = map fst (indexed i l) -> indexed i (map snd es) = es.
Proof.
  revert i es. induction l as [|a l IH]; intros i [|[k v] es]; simpl;
    try discriminate; auto.
  intros H. injection H as Hk Hrest. subst k. f_equal. apply IH. exact Hrest.
Qed.

Lemma indexed_length {A : Type} (i : nat) (l : list A) :
  List.length (indexed i l) = List.length l.
Proof. revert i. induction l; intros; simpl; auto. Qed.

(** An array keeps its indices when one of them is assigned. *)
Lemma entries_set_array (k : string) (x : value) (l : list value) :
  indexed 0 (map snd (assoc_set k x (indexed 0 l))) = assoc_set k x (indexed 0 l).
Proof. apply (indexed_map_snd 0 l), assoc_set_keys. Qed.

Lemma set_array_length (k : string) (x : value) (l : list value) :
  List.length (map snd (assoc_set k x (indexed 0 l))) = List.length l.
Proof.
  rewrite length_map, <- (length_map fst), assoc_set_keys, length_map.
  apply indexed_length.
Qed.

(** The key of an array index starts with a digit. *)
Lemma index_key_head (i : nat) :
  exists c rest, index_key i = String c rest /\ (nat_of_ascii c <? 58)%nat = true.
Proof.
  unfold index_key, NilZero.string_of_uint.
  destruct (Nat.to_uint i); simpl; eexists; eexists; split;
    try reflexivity; reflexivity.
Qed.

Lemma assoc_indexed_key {A : Type} (f : A -> value) (k : string) (i : nat)
      (l : list A) (x : value) :
  assoc k (indexed i (map f l)) = Some x -> exists j, k = index_key j.
Proof.
  revert i. induction l as [|a l IH]; intros i; simpl; [discriminate|].
  destruct (k =? index_key i) eqn:E.
  - apply String.eqb_eq in E. eauto.
  - apply IH.
Qed.

Lemma assoc_indexed_letter (k : string) (c : ascii) (rest : string) (i : nat)
      (l : list value) :
  k = String c rest -> (nat_of_ascii c <? 58)%nat = false ->
  assoc k (indexed i l) = None.
Proof.
  intros Hk Hc. destruct (assoc k (indexed i l)) eqn:E; [|reflexivity].
  rewrite <- (map_id l) in E.
  apply assoc_indexed_key in E. destruct E as [j Hj].
  destruct (index_key_head j) as (c' & r' & Hj' & Hd).
  rewrite Hk, Hj' in Hj. injection Hj as -> _. congruence.
Qed.

Lemma assoc_chars (k : string) (i : nat) (s : string) (x : value) :
  assoc k (indexed i (chars s)) = Some x -> exists c, x = VStr (String c EmptyString).
Proof.
  revert i. induction s as [|c s IH]; intros i; simpl; [discriminate|].
  destruct (k =? index_key i).
  - intros H. injection H as <-. eauto.
  - apply IH.
Qed.

Lemma get_prop_readable (v : value) (k : string) :
  unreadable v = false -> get_prop v k = Ok (own v k).
Proof. destruct v; simpl; intros; congruence. Qed.

Lemma get_prop_unreadable (v : value) (k : string) :
  unreadable v = true -> get_prop v k = Throw TypeError.
Proof. destruct v; simpl; intros; congruence. Qed.

Lemma truthy_readable (v : value) : truthy v = true -> unreadable v = false.
Proof. destruct v; simpl; intros; congruence. Qed.

Lemma map_snd_indexed (i : nat) (l : list value) : map snd (indexed i l) = l.
Proof. revert i. induction l; intros; simpl; congruence. Qed.

(** Reading a property after an assignment to an existing property. *)
Lemma own_set_prop (v : value) (k k' : string) (x p : value) :
  is_container v = true -> assoc k (entries v) = Some p ->
  own (set_prop v k x) k' = if k' =? k then x else own v k'.
Proof.
  intros Hc Hp. destruct v; try discriminate; simpl in Hp.
  - (* array *)
    unfold own, set_prop. simpl entries. rewrite entries_set_array.
    rewrite set_array_length.
    destruct (k' =? k) eqn:E.
    + apply String.eqb_eq in E. subst k'.
      rewrite (assoc_set_same _ _ _ _ Hp). reflexivity.
    + rewrite (assoc_set_other _ _ _ _ E). reflexivity.
  - (* object *)
    unfold own, set_prop. rewrite Hp. simpl entries.
    destruct (k' =? k) eqn:E.
    + apply String.eqb_eq in E. subst k'.
      rewrite (assoc_set_same _ _ _ _ Hp). reflexivity.
    + rewrite (assoc_set_other _ _ _ _ E). reflexivity.
Qed.

Lemma keys_set_prop (v : value) (k : string) (x p : value) :
  assoc k (entries v) = Some p ->
  Object_keys (set_prop v k x) = Object_keys v.
Proof.
  intros Hp. destruct v; try reflexivity; simpl in Hp.
  - unfold Object_keys, set_prop. simpl entries. rewrite entries_set_array.
    apply assoc_set_keys.
  - unfold Object_keys, set_prop. rewrite Hp. simpl entries.
    apply assoc_set_keys.
Qed.

Lemma set_prop_container (v : value) (k : string) (x : value) :
  is_container (set_prop v k x) = is_container v.
Proof.
  destruct v; try reflexivity. simpl. destruct (assoc k fields); reflexivity.
Qed.

Lemma set_prop_primitive (v : value) (k : string) (x : value) :
  is_container v = false -> set_prop v k x = v.
Proof. destruct v; simpl; intros; congruence. Qed.

Lemma set_prop_unchanged (v : value) (k : string) (p : value) :
  assoc k (entries v) = Some p -> set_prop v k p = v.
Proof.
  intros Hp. destruct v; try reflexivity; simpl in *.
  - rewrite (assoc_set_unchanged _ _ _ Hp), map_snd_indexed. reflexivity.
  - rewrite Hp, (assoc_set_unchanged _ _ _ Hp). reflexivity.
Qed.

(** ** The nullable decoration, property by property *)

Lemma nullable_wrap_settled (p : value) :
  nullable (nullable_wrap p) = false /\ unreadable (nullable_wrap p) = false.
Proof. split; reflexivity. Qed.

Lemma decorate_prop_cases (props : value) (k : string) :
  unreadable props = false ->
  decorate_prop props k =
    if unreadable (own props k) then Throw TypeError
    else if nullable (own props k)
         then Ok (set_prop props k (nullable_wrap (own props k)))
         else Ok props.
Proof.
  intros Hr. unfold decorate_prop, nullable.
  rewrite (get_prop_readable _ _ Hr).
  destruct (unreadable (own props k)) eqn:Hu.
  - rewrite (get_prop_unreadable _ _ Hu). reflexivity.
  - rewrite (get_prop_readable _ _ Hu). reflexivity.
Qed.

(** A nullable property is an own property of an object or an array. *)
Lemma nullable_own_present (props : value) (k : string) :
  nullable (own props k) = true ->
  assoc k (entries props) = Some (own props k) /\ is_container props = true.
Proof.
  unfold own. destruct (assoc k (entries props)) as [x|] eqn:E.
  - intros Hn. split; [reflexivity|].
    destruct props; simpl in E; try discriminate; try reflexivity.
    apply assoc_chars in E. destruct E as [c ->]. discriminate.
  - destruct props; simpl; try discriminate;
      destruct (k =? "length"); discriminate.
Qed.

Lemma rewritten_refl (v : value) : rewritten v v.
Proof. left. reflexivity. Qed.

Lemma rewritten_trans (a b c : value) :
  rewritten a b -> rewritten b c -> rewritten a c.
Proof.
  intros [->|[Hn ->]] [->|[Hn' ->]]; try (left; reflexivity);
    try (right; split; [assumption|reflexivity]).
  discriminate.
Qed.

Lemma entry_rewritten_refl (e : string * value) : entry_rewritten e e.
Proof. split; [reflexivity|apply rewritten_refl]. Qed.

Lemma entry_rewritten_trans (a b c : string * value) :
  entry_rewritten a b -> entry_rewritten b c -> entry_rewritten a c.
Proof.
  intros [H1 H2] [H3 H4]. split; [congruence|].
  eapply rewritten_trans; eassumption.
Qed.

Lemma Forall2_refl {A : Type} (R : A -> A -> Prop) (l : list A) :
  (forall a, R a a) -> Forall2 R l l.
Proof. intros H. induction l; constructor; auto. Qed.

Lemma Forall2_trans {A : Type} (R : A -> A -> Prop) (l1 l2 l3 : list A) :
  (forall a b c, R a b -> R b c -> R a c) ->
  Forall2 R l1 l2 -> Forall2 R l2 l3 -> Forall2 R l1 l3.
Proof.
  intros HR H12. revert l3.
  induction H12; intros l3 H23; inversion H23; subst; constructor; eauto.
Qed.

Lemma Forall2_map_snd (es es' : list (string * value)) :
  Forall2 entry_rewritten es es' -> Forall2 rewritten (map snd es) (map snd es').
Proof. induction 1 as [|e e' ? ? [_ H]]; simpl; constructor; auto. Qed.

Lemma props_rewritten_trans (a b c : value) :
  props_rewritten a b -> props_rewritten b c -> props_rewritten a c.
Proof.
  intros Hab Hbc. inversion Hab; subst; inversion Hbc; subst;
    try assumption; constructor.
  - eapply Forall2_trans; eauto using entry_rewritten_trans.
  - eapply Forall2_trans; eauto using rewritten_trans.
Qed.

Lemma assoc_set_rewritten (k : string) (p : value) (es : list (string * value)) :
  assoc k es = Some p -> nullable p = true ->
  Forall2 entry_rewritten es (assoc_set k (nullable_wrap p) es).
Proof.
  intros Hp Hn. induction es as [|[k' v] es IH]; simpl in *; [discriminate|].
  destruct (k =? k') eqn:E.
  - injection Hp as ->. constructor.
    + split; [reflexivity|]. right. split; [assumption|reflexivity].
    + apply Forall2_refl, entry_rewritten_refl.
  - constructor; [apply entry_rewritten_refl|auto].
Qed.

Lemma set_prop_rewritten (props : value) (k : string) :
  nullable (own props k) = true ->
  props_rewritten props (set_prop props k (nullable_wrap (own props k))).
Proof.
  intros Hn. destruct (nullable_own_present _ _ Hn) as [Hp Hc].
  destruct props; try discriminate; simpl in Hp.
  - simpl. constructor.
    rewrite <- (map_snd_indexed 0 items) at 1.
    apply Forall2_map_snd, assoc_set_rewritten; assumption.
  - simpl. rewrite Hp. constructor. apply assoc_set_rewritten; assumption.
Qed.

Lemma props_rewritten_readable (a b : value) :
  props_rewritten a b -> unreadable b = unreadable a.
Proof. destruct 1; reflexivity. Qed.

Lemma props_rewritten_truthy (a b : value) :
  props_rewritten a b -> truthy b = truthy a.
Proof. destruct 1; reflexivity. Qed.

(** One iteration of the loop either throws and leaves the object as it
    is, or rewrites it. *)
Lemma decorate_prop_rewritten (props props' : value) (k : string) :
  unreadable props = false ->
  decorate_prop props k = Ok props' -> props_rewritten props props'.
Proof.
  intros Hr. rewrite (decorate_prop_cases _ _ Hr).
  destruct (unreadable (own props k)); [discriminate|].
  destruct (nullable (own props k)) eqn:Hn; intros H; injection H as <-.
  - apply set_prop_rewritten. exact Hn.
  - constructor.
Qed.

(** The loop only rewrites nullable properties, whether or not it is cut
    short by an exception. *)
Lemma forEach_prop_rewritten (keys : list string) (props : value) :
  unreadable props = false ->
  props_rewritten props (fst (forEach_prop keys props)).
Proof.
  revert props. induction keys as [|k keys IH]; intros props Hr; simpl.
  - constructor.
  - destruct (decorate_prop props k) as [props1|e] eqn:E; simpl.
    + pose proof (decorate_prop_rewritten _ _ _ Hr E) as H1.
      eapply props_rewritten_trans; [exact H1|]. apply IH.
      rewrite (props_rewritten_readable _ _ H1). exact Hr.
    + constructor.
Qed.

Lemma mem_In (k : string) (keys : list string) : In k keys -> mem k keys = true.
Proof.
  intros H. apply existsb_exists. exists k. split; [assumption|].
  apply String.eqb_refl.
Qed.

(** A complete run of the loop: every visited property could be read,
    the nullable ones are wrapped, everything else is as before. *)
Lemma forEach_prop_own (keys : list string) (props props' : value) :
  unreadable props = false ->
  forEach_prop keys props = (props', None) ->
  forall k,
    own props' k =
      (if mem k keys && nullable (own props k)
       then nullable_wrap (own props k) else own props k)
    /\ (mem k keys = true -> unreadable (own props k) = false).
Proof.
  revert props. induction keys as [|k0 keys IH]; intros props Hr Hrun k.
  - simpl in Hrun. injection Hrun as <-. split; [reflexivity|discriminate].
  - simpl in Hrun. pose proof (decorate_prop_cases props k0 Hr) as Hc.
    destruct (decorate_prop props k0) as [props1|e] eqn:E; [|discriminate].
    pose proof (decorate_prop_rewritten _ _ _ Hr E) as Hrw.
    assert (Hr1 : unreadable props1 = false)
      by (rewrite (props_rewritten_readable _ _ Hrw); exact Hr).
    destruct (IH props1 Hr1 Hrun k) as [Hown Hread].
    destruct (unreadable (own props k0)) eqn:Hu; [discriminate|].
    unfold mem in *. simpl existsb.
    destruct (nullable (own props k0)) eqn:Hn; injection Hc as Hc; subst props1.
    + destruct (nullable_own_present _ _ Hn) as [Hp Hcont].
      rewrite (own_set_prop _ _ k _ _ Hcont Hp) in Hown, Hread.
      destruct (k =? k0) eqn:Ek.
      * apply String.eqb_eq in Ek. subst k0. simpl. rewrite Hn. split.
        -- rewrite Hown.
           destruct (existsb (String.eqb k) keys); reflexivity.
        -- intros _. exact Hu.
      * simpl. split; assumption.
    + destruct (k =? k0) eqn:Ek.
      * apply String.eqb_eq in Ek. subst k0. simpl. rewrite Hn in *. split.
        -- rewrite Hown. rewrite andb_false_r. reflexivity.
        -- intros _. exact Hu.
      * simpl. split; assumption.
Qed.

Lemma forEach_prop_keys (keys : list string) (props : value) :
  unreadable props = false ->
  Object_keys (fst (forEach_prop keys props)) = Object_keys props.
Proof.
  revert props. induction keys as [|k keys IH]; intros props Hr; simpl.
  - reflexivity.
  - pose proof (decorate_prop_cases props k Hr) as Hc.
    destruct (decorate_prop props k) as [props1|e] eqn:E; [|reflexivity].
    pose proof (decorate_prop_rewritten _ _ _ Hr E) as Hrw.
    rewrite IH by (rewrite (props_rewritten_readable _ _ Hrw); exact Hr).
    destruct (unreadable (own props k)); [discriminate|].
    destruct (nullable (own props k)) eqn:Hn; injection Hc as Hc; subst props1.
    + destruct (nullable_own_present _ _ Hn) as [Hp _].
      eapply keys_set_prop; eassumption.
    + reflexivity.
Qed.

(** The loop does nothing when no visited property is nullable. *)
Lemma forEach_prop_settled (keys : list string) (props : value) :
  unreadable props = false ->
  (forall k, In k keys ->
     unreadable (own props k) = false /\ nullable (own props k) = false) ->
  forEach_prop keys props = (props, None).
Proof.
  intros Hr. induction keys as [|k keys IH]; intros H; simpl.
  - reflexivity.
  - rewrite (decorate_prop_cases _ _ Hr).
    destruct (H k (or_introl eq_refl)) as [-> ->].
    apply IH. intros k' Hin. apply H. right. exact Hin.
Qed.

(** A second run of the loop over the same object changes nothing. *)
Lemma forEach_prop_twice (props props' : value) :
  unreadable props = false ->
  forEach_prop (Object_keys props) props = (props', None) ->
  forEach_prop (Object_keys props') props' = (props', None).
Proof.
  intros Hr Hrun.
  pose proof (forEach_prop_rewritten (Object_keys props) props Hr) as Hrw.
  pose proof (forEach_prop_keys (Object_keys props) props Hr) as Hk.
  rewrite Hrun in Hrw, Hk. simpl in Hrw, Hk. rewrite Hk.
  apply forEach_prop_settled.
  - rewrite (props_rewritten_readable _ _ Hrw). exact Hr.
  - intros k Hin.
    destruct (forEach_prop_own _ _ _ Hr Hrun k) as [Hown Hread].
    rewrite (mem_In _ _ Hin) in Hown. simpl in Hown.
    specialize (Hread (mem_In _ _ Hin)).
    destruct (nullable (own props k)) eqn:Hn; rewrite Hown.
    + split; reflexivity.
    + split; assumption.
Qed.

(** [properties] of a schema object. *)
Lemma own_properties_object (schema : value) :
  truthy (own schema "properties") = true ->
  exists fs, schema = VObj fs
             /\ assoc "properties" fs = Some (own schema "properties").
Proof.
  unfold own. destruct schema; simpl; try discriminate.
  - rewrite (assoc_indexed_letter "properties" "p" "roperties" 0 _ eq_refl eq_refl).
    discriminate.
  - rewrite (assoc_indexed_letter "properties" "p" "roperties" 0 _ eq_refl eq_refl).
    discriminate.
  - destruct (assoc "properties" fields) eqn:E; [eauto|discriminate].
Qed.

(** [decorateWithNullable] either returns its argument untouched or
    rewrites nullable entries of [schema.properties]. *)
Lemma decorate_cases (schema : value) :
  decorate schema = (schema, None)
  \/ exists fs props,
       schema = VObj fs /\ assoc "properties" fs = Some props
       /\ truthy props = true
       /\ decorate schema =
            (VObj (assoc_set "properties"
                     (fst (forEach_prop (Object_keys props) props)) fs),
             snd (forEach_prop (Object_keys props) props)).
Proof.
  unfold decorate. destruct (truthy schema) eqn:Ht; [|left; reflexivity].
  rewrite (get_prop_readable _ _ (truthy_readable _ Ht)).
  destruct (truthy (own schema "properties")) eqn:Hp; [|left; reflexivity].
  destruct (own_properties_object _ Hp) as (fs & -> & Hfs).
  right. exists fs, (own (VObj fs) "properties").
  repeat split; try assumption.
  destruct (forEach_prop _ _); simpl. rewrite Hfs. reflexivity.
Qed.

(** Idempotence on the schema object: a second call changes nothing and
    returns the same object. *)
Lemma decorate_twice (schema schema' : value) :
  decorate schema = (schema', None) -> decorate schema' = (schema', None).
Proof.
  intros H. destruct (decorate_cases schema) as [H0|(fs & props & -> & Hfs & Ht & Hd)].
  - rewrite H0 in H. injection H as <-. exact H0.
  - rewrite Hd in H. injection H as <- He.
    destruct (forEach_prop (Object_keys props) props) as [props' e] eqn:Hrun.
    simpl in *. subst e.
    assert (Hr : unreadable props = false) by (apply truthy_readable; exact Ht).
    pose proof (forEach_prop_rewritten (Object_keys props) props Hr) as Hrw.
    rewrite Hrun in Hrw. simpl in Hrw.
    unfold decorate. simpl truthy. cbv iota.
    unfold get_prop, own. simpl entries.
    rewrite (assoc_set_same _ _ _ _ Hfs).
    rewrite (props_rewritten_truthy _ _ Hrw), Ht.
    rewrite (forEach_prop_twice _ _ Hr Hrun).
    unfold set_prop. rewrite (assoc_set_same _ _ _ _ Hfs).
    rewrite assoc_set_twice. reflexivity.
Qed.


Lemma decorate_object (fs : list (string * value)) (props : value) :
  assoc "properties" fs = Some props -> truthy props = true ->
  decorate (VObj fs) =
    (VObj (assoc_set "properties"
             (fst (forEach_prop (Object_keys props) props)) fs),
     snd (forEach_prop (Object_keys props) props)).
Proof.
  intros Hfs Ht. unfold decorate, get_prop, own. simpl. rewrite Hfs, Ht.
  destruct (forEach_prop _ _). reflexivity.
Qed.

Lemma assoc_mem (k : string) (p : value) (es : list (string * value)) :
  assoc k es = Some p -> mem k (map fst es) = true.
Proof.
  unfold mem. induction es as [|[k' v] es IH]; simpl; [discriminate|].
  destruct (k =? k'); [reflexivity|exact IH].
Qed.

Lemma container_truthy (v : value) : is_container v = true -> truthy v = true.
Proof. destruct v; simpl; intros; congruence. Qed.

(** After a complete decoration, a nullable top-level property is the
    choice between its former schema and the null type. *)
Lemma decorate_nullable_property (schema schema' : value) (prop : string) :
  decorate schema = (schema', None) ->
  nullable (own (own schema "properties") prop) = true ->
  own (own schema' "properties") prop
  = nullable_wrap (own (own schema "properties") prop).
Proof.
  intros Hd Hn. destruct (nullable_own_present _ _ Hn) as [Hp Hc].
  pose proof (container_truthy _ Hc) as Ht.
  destruct (own_properties_object _ Ht) as (fs & -> & Hfs).
  set (props := own (VObj fs) "properties") in *.
  rewrite (decorate_object _ _ Hfs Ht) in Hd.
  destruct (forEach_prop (Object_keys props) props) as [props' e] eqn:Hrun.
  simpl in Hd. injection Hd as <- ->.
  assert (Hprops' : own (VObj (assoc_set "properties" props' fs)) "properties"
                    = props').
  { unfold own. simpl entries. rewrite (assoc_set_same _ _ _ _ Hfs). reflexivity. }
  rewrite Hprops'.
  destruct (forEach_prop_own _ _ _ (truthy_readable _ Ht) Hrun prop) as [Hown _].
  rewrite Hown. unfold Object_keys. rewrite (assoc_mem _ _ _ Hp), Hn.
  reflexivity.
Qed.


(** ** The reference reading of [oneOf] and of the null type *)

Lemma reference_accepts_oneOf (a b instance : value) :
  Reference.accepts (VObj [("oneOf", VArr [a; b])]) instance
  = xorb (Reference.accepts a instance) (Reference.accepts b instance).
Proof.
  simpl. destruct (Reference.accepts a instance), (Reference.accepts b instance);
    reflexivity.
Qed.

Lemma reference_accepts_null_type (instance : value) :
  Reference.accepts null_type instance = is_null instance.
Proof. destruct instance; reflexivity. Qed.

(** ** Locations of the contract tree *)

Lemma lodash_get_unreadable (v : value) (l : list string) :
  unreadable v = true -> l <> [] -> lodash_get v l = VUndefined.
Proof. destruct l; [congruence|]. destruct v; simpl; intros; congruence. Qed.

Lemma lodash_get_undefined (l : list string) : lodash_get VUndefined l = VUndefined.
Proof. destruct l; reflexivity. Qed.

Lemma lodash_get_cons (v : value) (k : string) (l : list string) :
  unreadable v = false -> lodash_get v (k :: l) = lodash_get (own v k) l.
Proof. destruct v; simpl; intros; congruence. Qed.

Lemma lodash_get_app (v : value) (l m : list string) :
  lodash_get v (l ++ m) = lodash_get (lodash_get v l) m.
Proof.
  revert v. induction l as [|k l IH]; intros v; [reflexivity|].
  destruct (unreadable v) eqn:Hu.
  - rewrite <- app_comm_cons.
    rewrite (lodash_get_unreadable v (k :: l ++ m)) by (assumption || discriminate).
    rewrite (lodash_get_unreadable v (k :: l)) by (assumption || discriminate).
    symmetry. apply lodash_get_undefined.
  - rewrite <- app_comm_cons, !lodash_get_cons by assumption. apply IH.
Qed.

Lemma lodash_get_snoc (v : value) (l : list string) (k : string) :
  unreadable (lodash_get v l) = false ->
  lodash_get v (l ++ [k]) = own (lodash_get v l) k.
Proof. intros H. rewrite lodash_get_app. apply lodash_get_cons. exact H. Qed.

Lemma container_readable (v : value) : is_container v = true -> unreadable v = false.
Proof. destruct v; simpl; intros; congruence. Qed.

(** A property that is an object or an array is an own property of an
    object or an array. *)
Lemma own_container_present (v : value) (k : string) :
  is_container (own v k) = true ->
  assoc k (entries v) = Some (own v k) /\ is_container v = true.
Proof.
  unfold own. destruct (assoc k (entries v)) as [x|] eqn:E.
  - intros Hc. split; [reflexivity|].
    destruct v; simpl in E; try discriminate; try reflexivity.
    apply assoc_chars in E. destruct E as [c ->]. discriminate.
  - destruct v; simpl; try discriminate;
      destruct (k =? "length"); discriminate.
Qed.

Lemma own_primitive (v : value) (k : string) :
  is_container v = false -> is_container (own v k) = false.
Proof.
  intros Hv. destruct (is_container (own v k)) eqn:E; [|reflexivity].
  apply own_container_present in E. destruct E as [_ E]. congruence.
Qed.

Lemma lodash_get_primitive (v : value) (l : list string) :
  is_container v = false -> is_container (lodash_get v l) = false.
Proof.
  revert v. induction l as [|k l IH]; intros v Hv; [exact Hv|].
  destruct (unreadable v) eqn:Hu.
  - rewrite lodash_get_unreadable by (assumption || discriminate). reflexivity.
  - rewrite lodash_get_cons by assumption. apply IH, own_primitive, Hv.
Qed.

Lemma lodash_get_container (v : value) (l : list string) :
  is_container (lodash_get v l) = true -> is_container v = true.
Proof.
  intros H. destruct (is_container v) eqn:E; [reflexivity|].
  rewrite (lodash_get_primitive v l E) in H. discriminate.
Qed.

Lemma set_at_cons (v x : value) (k : string) (l : list string) :
  set_at (k :: l) x v =
    match assoc k (entries v) with
    | Some child => set_prop v k (set_at l x child)
    | None => v
    end.
Proof. reflexivity. Qed.

Lemma entries_readable (v : value) (k : string) (child : value) :
  assoc k (entries v) = Some child -> unreadable v = false.
Proof. destruct v; simpl; intros; try reflexivity; discriminate. Qed.

Lemma set_at_primitive (v x : value) (k : string) (l : list string) :
  is_container v = false -> set_at (k :: l) x v = v.
Proof.
  intros Hv. rewrite set_at_cons. destruct (assoc k (entries v)); [|reflexivity].
  apply set_prop_primitive. exact Hv.
Qed.

(** Writing back what a location holds changes nothing. *)
Lemma set_at_same (v : value) (l : list string) :
  set_at l (lodash_get v l) v = v.
Proof.
  revert v. induction l as [|k l IH]; intros v; [reflexivity|].
  rewrite set_at_cons. destruct (assoc k (entries v)) as [child|] eqn:E; [|reflexivity].
  pose proof (entries_readable _ _ _ E) as Hu.
  rewrite lodash_get_cons by assumption.
  assert (Hown : own v k = child) by (unfold own; rewrite E; reflexivity).
  rewrite Hown, IH. apply set_prop_unchanged. exact E.
Qed.

Lemma set_prop_readable (v : value) (k : string) (x : value) :
  unreadable (set_prop v k x) = unreadable v.
Proof. destruct v; try reflexivity. simpl. destruct (assoc k fields); reflexivity. Qed.

Lemma set_prop_truthy (v : value) (k : string) (x : value) :
  truthy (set_prop v k x) = truthy v.
Proof. destruct v; try reflexivity. simpl. destruct (assoc k fields); reflexivity. Qed.

Lemma own_set_prop_other (v : value) (k k' : string) (x p : value) :
  assoc k (entries v) = Some p -> (k' =? k) = false ->
  own (set_prop v k x) k' = own v k'.
Proof.
  intros Hp Hne. destruct (is_container v) eqn:Hc.
  - rewrite (own_set_prop _ _ _ _ _ Hc Hp), Hne. reflexivity.
  - rewrite set_prop_primitive by assumption. reflexivity.
Qed.

(** Reading the location that was just written. *)
Lemma lodash_get_set_at (v x : value) (l : list string) :
  is_container (lodash_get v l) = true -> lodash_get (set_at l x v) l = x.
Proof.
  revert v. induction l as [|k l IH]; intros v Hc; [reflexivity|].
  pose proof (lodash_get_container _ _ Hc) as Hv.
  pose proof (container_readable _ Hv) as Hu.
  rewrite lodash_get_cons in Hc by assumption.
  pose proof (lodash_get_container _ _ Hc) as Hchild.
  destruct (own_container_present _ _ Hchild) as [Hp _].
  rewrite set_at_cons. rewrite Hp.
  rewrite lodash_get_cons by (rewrite set_prop_readable; exact Hu).
  rewrite (own_set_prop _ _ _ _ _ Hv Hp), String.eqb_refl.
  apply IH. exact Hc.
Qed.

(** Frame: a location that parts ways with the one written reads as
    before. *)
Lemma lodash_get_set_at_diverge (v x : value) (l l' : list string) :
  diverge l l' -> lodash_get (set_at l x v) l' = lodash_get v l'.
Proof.
  intros (common & k & k' & rest & rest' & -> & -> & Hne).
  revert v. induction common as [|k0 common IH]; intros v.
  - rewrite !app_nil_l. rewrite set_at_cons.
    destruct (assoc k (entries v)) as [child|] eqn:E; [|reflexivity].
    pose proof (entries_readable _ _ _ E) as Hu.
    rewrite !lodash_get_cons by (rewrite ?set_prop_readable; exact Hu).
    rewrite (own_set_prop_other _ _ _ _ _ E Hne). reflexivity.
  - rewrite <- !app_comm_cons. rewrite set_at_cons.
    destruct (assoc k0 (entries v)) as [child|] eqn:E; [|reflexivity].
    pose proof (entries_readable _ _ _ E) as Hu.
    assert (Hown : own v k0 = child) by (unfold own; rewrite E; reflexivity).
    destruct (is_container v) eqn:Hc.
    + rewrite !lodash_get_cons by (rewrite ?set_prop_readable; exact Hu).
      rewrite (own_set_prop _ _ _ _ _ Hc E), String.eqb_refl, Hown.
      apply IH.
    + rewrite set_prop_primitive by assumption. reflexivity.
Qed.

(** Above the location written, a value keeps its kind: what is read
    there is the former value with the deeper location rewritten. *)
Lemma lodash_get_set_at_prefix (v x : value) (l : list string) (k : string)
      (m : list string) :
  lodash_get (set_at (l ++ k :: m) x v) l = set_at (k :: m) x (lodash_get v l).
Proof.
  revert v. induction l as [|k0 l IH]; intros v; [reflexivity|].
  rewrite <- app_comm_cons.
  assert (Hprim : forall u, is_container u = false ->
                            lodash_get u (k0 :: l)
                            = set_at (k :: m) x (lodash_get u (k0 :: l))).
  { intros u Hp. symmetry. apply set_at_primitive, lodash_get_primitive, Hp. }
  destruct (is_container v) eqn:Hc.
  - pose proof (container_readable _ Hc) as Hu.
    rewrite set_at_cons. destruct (assoc k0 (entries v)) as [child|] eqn:E.
    + assert (Hown : own v k0 = child) by (unfold own; rewrite E; reflexivity).
      rewrite !lodash_get_cons by (rewrite ?set_prop_readable; exact Hu).
      rewrite (own_set_prop _ _ _ _ _ Hc E), String.eqb_refl, Hown. apply IH.
    + rewrite !lodash_get_cons by exact Hu.
      assert (Hp : is_container (own v k0) = false).
      { destruct (is_container (own v k0)) eqn:E'; [|reflexivity].
        apply own_container_present in E'. destruct E' as [E' _]. congruence. }
      symmetry. apply set_at_primitive, lodash_get_primitive, Hp.
  - rewrite set_at_primitive by assumption. apply Hprim. exact Hc.
Qed.

Lemma set_at_readable (v x : value) (k : string) (m : list string) :
  unreadable (set_at (k :: m) x v) = unreadable v.
Proof.
  rewrite set_at_cons.
  destruct (assoc k (entries v)); [apply set_prop_readable|reflexivity].
Qed.

Lemma set_at_truthy (v x : value) (k : string) (m : list string) :
  truthy (set_at (k :: m) x v) = truthy v.
Proof.
  rewrite set_at_cons.
  destruct (assoc k (entries v)); [apply set_prop_truthy|reflexivity].
Qed.

(** ** The monad *)

Lemma bind_ok {A B : Type} (m : M A) (f : A -> M B) (w w' : world) (a : A) :
  m w = (Ok a, w') -> bind m f w = f a w'.
Proof. unfold bind. intros ->. reflexivity. Qed.

Lemma bind_throw {A B : Type} (m : M A) (f : A -> M B) (w w' : world) (e : exn) :
  m w = (Throw e, w') -> bind m f w = (Throw e, w').
Proof. unfold bind. intros ->. reflexivity. Qed.

Lemma find_filter {A : Type} (f : A -> bool) (l : list A) :
  find f l = match filter f l with x :: _ => Some x | [] => None end.
Proof.
  induction l as [|a l IH]; simpl; [reflexivity|].
  destruct (f a); [reflexivity|exact IH].
Qed.

(** ** Schema resolution, read off the contract tree *)

Lemma matchUrlWithSchema_matched (lib : libraries) (reqUrl : string) (w : world) :
  matchUrlWithSchema lib reqUrl w =
    (match matched lib w reqUrl with
     | Throw e => Throw e
     | Ok None => Ok (fresh VNull)
     | Ok (Some obj) => Ok (at_loc (contract w) ["paths"; path obj])
     end, w).
Proof.
  unfold matchUrlWithSchema, matched, bind, get_world, lift, filter_match, ret.
  destruct (parseUrl_pathname lib reqUrl) as [u|].
  - rewrite find_filter. destruct (filter _ _); reflexivity.
  - destruct (w_pathObjects w); reflexivity.
Qed.

Lemma read_at_loc (w : world) (l : list string) (k : string) :
  read (at_loc (contract w) l) k w =
    if unreadable (lodash_get (contract w) l) then (Throw TypeError, w)
    else (Ok (at_loc (contract w) (l ++ [k])), w).
Proof.
  unfold read, at_loc. simpl target. simpl origin.
  destruct (unreadable (lodash_get (contract w) l)) eqn:Hu.
  - rewrite (get_prop_unreadable _ _ Hu). reflexivity.
  - rewrite (get_prop_readable _ _ Hu), <- (lodash_get_snoc _ _ _ Hu).
    reflexivity.
Qed.

Lemma target_at_loc (doc : value) (l : list string) :
  target (at_loc doc l) = lodash_get doc l.
Proof. reflexivity. Qed.

Lemma bind_ret {A B : Type} (a : A) (f : A -> M B) (w : world) :
  bind (ret a) f w = f a w.
Proof. reflexivity. Qed.

Lemma bind_get_world {B : Type} (f : world -> M B) (w : world) :
  bind get_world f w = f w w.
Proof. reflexivity. Qed.

Lemma bind_if {A B : Type} (b : bool) (m1 m2 : M A) (f : A -> M B) (w : world) :
  bind (if b then m1 else m2) f w = if b then bind m1 f w else bind m2 f w.
Proof. destruct b; reflexivity. Qed.

Lemma bind_assoc {A B C : Type} (m : M A) (f : A -> M B) (g : B -> M C) (w : world) :
  bind (bind m f) g w = bind m (fun a => bind (f a) g) w.
Proof. unfold bind. destruct (m w) as [[a|e] w']; reflexivity. Qed.

Lemma bind_matchUrlWithSchema {B : Type} (lib : libraries) (reqUrl : string)
      (f : jsref -> M B) (w : world) :
  bind (matchUrlWithSchema lib reqUrl) f w =
    match matched lib w reqUrl with
    | Throw e => (Throw e, w)
    | Ok None => f (fresh VNull) w
    | Ok (Some obj) => f (at_loc (contract w) ["paths"; path obj]) w
    end.
Proof.
  unfold bind. rewrite matchUrlWithSchema_matched.
  destruct (matched lib w reqUrl) as [[obj|]|e]; reflexivity.
Qed.

Lemma bind_read_ok {B : Type} (w : world) (l : list string) (k : string)
      (f : jsref -> M B) :
  unreadable (lodash_get (contract w) l) = false ->
  bind (read (at_loc (contract w) l) k) f w
  = f (at_loc (contract w) (l ++ [k])) w.
Proof. intros H. unfold bind. rewrite read_at_loc, H. reflexivity. Qed.

Lemma bind_read_throw {B : Type} (w : world) (l : list string) (k : string)
      (f : jsref -> M B) :
  unreadable (lodash_get (contract w) l) = true ->
  bind (read (at_loc (contract w) l) k) f w = (Throw TypeError, w).
Proof. intros H. unfold bind. rewrite read_at_loc, H. reflexivity. Qed.

Ltac resolved :=
  rewrite ?andb_true_l, ?andb_false_l, ?andb_false_r, ?orb_false_l,
    ?orb_true_l, ?orb_true_r;
  rewrite ?bind_ret;
  try change (truthy (target (fresh VNull))) with false; cbv beta iota;
  rewrite ?bind_ret, ?bind_get_world;
  match goal with
  | |- context [allowNullable ?o] => destruct (allowNullable o); reflexivity
  | _ => reflexivity
  end.

Lemma resolveRequestModelSchema_ref (lib : libraries) (req : request) (w : world) :
  resolveRequestModelSchema lib req w =
    match request_schema_ref lib w req with
    | Throw e => (Throw e, w)
    | Ok r =>
        if allowNullable (w_options w) then decorateWithNullable r w
        else (Ok r, w)
    end.
Proof.
  unfold resolveRequestModelSchema, request_schema_ref.
  rewrite bind_matchUrlWithSchema.
  destruct (matched lib w (originalUrl req)) as [[obj|]|e]; try resolved.
  unfold request_schema_loc, parameters_loc, operation_loc.
  rewrite bind_if, target_at_loc.
  destruct (truthy (lodash_get (contract w) ["paths"; path obj])) eqn:H1;
    [|resolved].
  rewrite bind_assoc, (bind_read_ok _ _ _ _ (truthy_readable _ H1)).
  rewrite bind_assoc, bind_if, target_at_loc.
  change (["paths"; path obj] ++ [toLowerCase (method req)])%list
    with ["paths"; path obj; toLowerCase (method req)].
  destruct (truthy (lodash_get (contract w)
                      ["paths"; path obj; toLowerCase (method req)])) eqn:H2;
    [|resolved].
  rewrite (bind_read_ok _ _ _ _ (truthy_readable _ H2)).
  rewrite bind_if, target_at_loc.
  destruct (truthy (lodash_get (contract w)
                      (["paths"; path obj; toLowerCase (method req)]
                         ++ ["parameters"]))) eqn:H3; [|resolved].
  rewrite bind_assoc, (bind_read_ok _ _ _ _ (truthy_readable _ H3)).
  rewrite bind_if, target_at_loc.
  destruct (js_gt0 lib _) eqn:H4; [|resolved].
  rewrite bind_assoc, (bind_read_ok _ _ _ _ (truthy_readable _ H3)).
  rewrite ?andb_true_l.
  change ["0"; "schema"] with (["0"] ++ ["schema"])%list.
  rewrite (app_assoc _ ["0"] ["schema"]).
  destruct (unreadable
              (lodash_get (contract w)
                 ((["paths"; path obj; toLowerCase (method req)]
                     ++ ["parameters"]) ++ ["0"]))) eqn:H5.
  - rewrite (bind_read_throw _ _ _ _ H5). reflexivity.
  - rewrite (bind_read_ok _ _ _ _ H5). resolved.
Qed.

Lemma resolveResponseModelSchema_ref (lib : libraries) (req : request) (w : world) :
  resolveResponseModelSchema lib req w =
    match response_schema_ref lib w req with
    | Throw e => (Throw e, w)
    | Ok r =>
        if allowNullable (w_options w) then decorateWithNullable r w
        else (Ok r, w)
    end.
Proof.
  unfold resolveResponseModelSchema, response_schema_ref.
  rewrite bind_matchUrlWithSchema.
  destruct (matched lib w (originalUrl req)) as [[obj|]|e]; try resolved.
  unfold response_schema_loc, descriptor_loc, responses_loc, operation_loc.
  rewrite bind_if, target_at_loc.
  destruct (truthy (lodash_get (contract w) ["paths"; path obj])) eqn:H1;
    [|resolved].
  rewrite bind_assoc, (bind_read_ok _ _ _ _ (truthy_readable _ H1)).
  change (["paths"; path obj] ++ [toLowerCase (method req)])%list
    with ["paths"; path obj; toLowerCase (method req)].
  destruct (unreadable (lodash_get (contract w)
                      ["paths"; path obj; toLowerCase (method req)])) eqn:H2.
  { rewrite bind_assoc, (bind_read_throw _ _ _ _ H2). reflexivity. }
  rewrite bind_assoc, (bind_read_ok _ _ _ _ H2).
  rewrite bind_assoc, bind_get_world.
  destruct (unreadable
              (lodash_get (contract w)
                 (["paths"; path obj; toLowerCase (method req)]
                    ++ ["responses"]))) eqn:H3.
  { rewrite bind_assoc, (bind_read_throw _ _ _ _ H3). reflexivity. }
  rewrite bind_assoc, (bind_read_ok _ _ _ _ H3).
  rewrite bind_if, target_at_loc. rewrite ?orb_false_l.
  destruct (truthy
              (lodash_get (contract w)
                 ((["paths"; path obj; toLowerCase (method req)]
                     ++ ["responses"])
                    ++ [status_key (status_or_200 (statusCode w))]))) eqn:H4;
    [|resolved].
  assert (H5 := truthy_readable _ H4).
  rewrite (bind_read_ok _ _ _ _ H5). resolved.
Qed.

(** ** What a resolution does to the world *)

Lemma with_options_same (w : world) :
  with_options w (with_schema (w_options w) (contract w)) = w.
Proof. destruct w as [[] ? ? ? ? ?]. reflexivity. Qed.

Lemma same_but_contract_refl (w : world) : same_but_contract w w.
Proof. unfold same_but_contract. symmetry. apply with_options_same. Qed.

Lemma decorateWithNullable_fresh_null (w : world) :
  decorateWithNullable (fresh VNull) w = (Ok (fresh VNull), w).
Proof. reflexivity. Qed.

(** The decorated schema is written where it was read. *)
Lemma decorateWithNullable_at_loc (w : world) (l : list string) :
  decorateWithNullable (at_loc (contract w) l) w =
    (match snd (decorate (lodash_get (contract w) l)) with
     | Some e => Throw e
     | None => Ok {| target := fst (decorate (lodash_get (contract w) l));
                     origin := Some l |}
     end,
     with_options w
       (with_schema (w_options w)
          (set_at l (fst (decorate (lodash_get (contract w) l))) (contract w)))).
Proof.
  unfold decorateWithNullable. rewrite target_at_loc.
  destruct (decorate (lodash_get (contract w) l)) as [s' [e|]]; reflexivity.
Qed.

Lemma decorate_schema_rewritten (s : value) : schema_rewritten s (fst (decorate s)).
Proof.
  destruct (decorate_cases s) as [H|(fs & props & -> & Hfs & Ht & Hd)].
  - rewrite H. left. reflexivity.
  - rewrite Hd. right. exists fs, props, (fst (forEach_prop (Object_keys props) props)).
    repeat split; try assumption.
    apply forEach_prop_rewritten, truthy_readable, Ht.
Qed.

(** A schema that is not an object is left alone. *)
Lemma decorate_primitive (s : value) :
  is_container s = false -> decorate s = (s, None).
Proof.
  intros Hs. destruct (decorate_cases s) as [H|(fs & props & -> & _)];
    [exact H|discriminate].
Qed.

Lemma decorate_container (s : value) :
  is_container (fst (decorate s)) = is_container s.
Proof.
  destruct (decorate_cases s) as [H|(fs & props & -> & _ & _ & Hd)];
    rewrite ?H, ?Hd; reflexivity.
Qed.

(** The world after a resolved reference has gone through the final
    lines of a resolver. *)
Lemma finish_rewrites (w : world) (r : jsref) :
  r = fresh VNull \/ (exists l, r = at_loc (contract w) l) ->
  let result :=
    if allowNullable (w_options w) then decorateWithNullable r w
    else (Ok r, w) in
  same_but_contract w (snd result)
  /\ contract_rewritten (contract w) (contract (snd result))
  /\ (allowNullable (w_options w) = false -> snd result = w)
  /\ trace (snd result) = trace w
  /\ hooked (snd result) = hooked w
  /\ writtenData (snd result) = writtenData w
  /\ statusCode (snd result) = statusCode w
  /\ w_pathObjects (snd result) = w_pathObjects w.
Proof.
  intros Hr. cbv zeta.
  destruct (allowNullable (w_options w)) eqn:Ha.
  - destruct Hr as [->|[l ->]].
    + rewrite decorateWithNullable_fresh_null. simpl.
      repeat split; try reflexivity; try discriminate.
      * apply same_but_contract_refl.
      * left. reflexivity.
    + rewrite decorateWithNullable_at_loc. simpl snd.
      repeat split; try reflexivity; try discriminate.
      right. exists l, (fst (decorate (lodash_get (contract w) l))).
      split; [apply decorate_schema_rewritten|reflexivity].
  - simpl. repeat split; try reflexivity.
    + apply same_but_contract_refl.
    + left. reflexivity.
Qed.

Lemma request_schema_ref_shape (lib : libraries) (w : world) (req : request)
      (r : jsref) :
  request_schema_ref lib w req = Ok r ->
  r = fresh VNull \/ (exists l, r = at_loc (contract w) l).
Proof.
  unfold request_schema_ref.
  destruct (matched lib w (originalUrl req)) as [[obj|]|e]; try discriminate.
  - destruct (_ && _).
    + destruct (unreadable _); [discriminate|].
      intros H. injection H as <-. right. eauto.
    + intros H. injection H as <-. left. reflexivity.
  - intros H. injection H as <-. left. reflexivity.
Qed.

Lemma response_schema_ref_shape (lib : libraries) (w : world) (req : request)
      (r : jsref) :
  response_schema_ref lib w req = Ok r ->
  r = fresh VNull \/ (exists l, r = at_loc (contract w) l).
Proof.
  unfold response_schema_ref.
  destruct (matched lib w (originalUrl req)) as [[obj|]|e]; try discriminate.
  - destruct (truthy _).
    + destruct (_ || _); [discriminate|]. destruct (truthy _).
      * intros H. injection H as <-. right. eauto.
      * intros H. injection H as <-. left. reflexivity.
    + intros H. injection H as <-. left. reflexivity.
  - intros H. injection H as <-. left. reflexivity.
Qed.

(** ** A resolution repeated *)

Lemma truthy_above (doc x : value) (l : list string) (k : string) (m : list string) :
  truthy (lodash_get (set_at (l ++ k :: m) x doc) l) = truthy (lodash_get doc l).
Proof. rewrite lodash_get_set_at_prefix. apply set_at_truthy. Qed.

Lemma unreadable_above (doc x : value) (l : list string) (k : string)
      (m : list string) :
  unreadable (lodash_get (set_at (l ++ k :: m) x doc) l)
  = unreadable (lodash_get doc l).
Proof. rewrite lodash_get_set_at_prefix. apply set_at_readable. Qed.

Lemma at_loc_inj (doc : value) (l l' : list string) :
  Ok (at_loc doc l) = Ok (at_loc doc l') -> l = l'.
Proof.
  intros H.
  apply (f_equal (fun o => match o with
                           | Ok r => origin r
                           | Throw _ => None
                           end)) in H.
  simpl in H. congruence.
Qed.

Lemma contract_rewrite_world (w : world) (d : value) :
  contract (rewrite_world w d) = d.
Proof. reflexivity. Qed.

Lemma request_schema_ref_stable (lib : libraries) (w : world) (req : request)
      (l : list string) (x : value) :
  request_schema_ref lib w req = Ok (at_loc (contract w) l) ->
  request_schema_ref lib (rewrite_world w (set_at l x (contract w))) req
  = Ok (at_loc (set_at l x (contract w)) l).
Proof.
  unfold request_schema_ref. rewrite contract_rewrite_world.
  change (matched lib (rewrite_world w (set_at l x (contract w))) (originalUrl req))
    with (matched lib w (originalUrl req)).
  destruct (matched lib w (originalUrl req)) as [[obj|]|e]; try discriminate.
  destruct (_ && _) eqn:C; [|discriminate].
  destruct (unreadable _) eqn:U; [discriminate|].
  intros H. apply at_loc_inj in H. subst l.
  apply andb_prop in C. destruct C as [C C4].
  apply andb_prop in C. destruct C as [C C3].
  apply andb_prop in C. destruct C as [C1 C2].
  set (p := path obj) in *. set (m := toLowerCase (method req)) in *.
  change (request_schema_loc obj req)
    with ["paths"; p; m; "parameters"; "0"; "schema"] in *.
  change (parameters_loc obj req) with ["paths"; p; m; "parameters"] in *.
  change (operation_loc obj req) with ["paths"; p; m] in *.
  change (["paths"; p; m; "parameters"] ++ ["0"])%list
    with ["paths"; p; m; "parameters"; "0"] in *.
  change (["paths"; p; m; "parameters"] ++ ["length"])%list
    with ["paths"; p; m; "parameters"; "length"] in *.
  rewrite (truthy_above _ x ["paths"; p] m ["parameters"; "0"; "schema"]), C1.
  rewrite (truthy_above _ x ["paths"; p; m] "parameters" ["0"; "schema"]), C2.
  rewrite (truthy_above _ x ["paths"; p; m; "parameters"] "0" ["schema"]), C3.
  rewrite (unreadable_above _ x ["paths"; p; m; "parameters"; "0"] "schema" []), U.
  rewrite (lodash_get_set_at_diverge _ x
             ["paths"; p; m; "parameters"; "0"; "schema"]
             ["paths"; p; m; "parameters"; "length"]), C4.
  - reflexivity.
  - exists ["paths"; p; m; "parameters"], "0", "length", ["schema"], [].
    repeat split.
Qed.

Lemma response_schema_ref_stable (lib : libraries) (w : world) (req : request)
      (l : list string) (x : value) :
  response_schema_ref lib w req = Ok (at_loc (contract w) l) ->
  response_schema_ref lib (rewrite_world w (set_at l x (contract w))) req
  = Ok (at_loc (set_at l x (contract w)) l).
Proof.
  unfold response_schema_ref. rewrite contract_rewrite_world.
  change (matched lib (rewrite_world w (set_at l x (contract w))) (originalUrl req))
    with (matched lib w (originalUrl req)).
  destruct (matched lib w (originalUrl req)) as [[obj|]|e]; try discriminate.
  destruct (truthy (lodash_get (contract w) ["paths"; path obj])) eqn:C1;
    [|discriminate].
  destruct (_ || _) eqn:U; [discriminate|].
  destruct (truthy (lodash_get (contract w) (descriptor_loc w obj req))) eqn:C4;
    [|discriminate].
  intros H. apply at_loc_inj in H. subst l.
  apply orb_false_elim in U. destruct U as [U2 U3].
  set (p := path obj) in *. set (m := toLowerCase (method req)) in *.
  change (descriptor_loc (rewrite_world w _) obj req)
    with (descriptor_loc w obj req).
  change (response_schema_loc (rewrite_world w _) obj req)
    with (response_schema_loc w obj req).
  set (c := status_key (status_or_200 (statusCode w))) in *.
  change (response_schema_loc w obj req)
    with ["paths"; p; m; "responses"; c; "schema"] in *.
  change (descriptor_loc w obj req) with ["paths"; p; m; "responses"; c] in *.
  change (responses_loc obj req) with ["paths"; p; m; "responses"] in *.
  change (operation_loc obj req) with ["paths"; p; m] in *.
  rewrite (truthy_above _ x ["paths"; p] m ["responses"; c; "schema"]), C1.
  rewrite (unreadable_above _ x ["paths"; p; m] "responses" [c; "schema"]), U2.
  rewrite (unreadable_above _ x ["paths"; p; m; "responses"] c ["schema"]), U3.
  rewrite (truthy_above _ x ["paths"; p; m; "responses"; c] "schema" []), C4.
  reflexivity.
Qed.

(** The final lines of a resolver, run a second time on what they left. *)
Lemma finish_twice (w w1 : world) (l : list string) (r : jsref) :
  (if allowNullable (w_options w)
   then decorateWithNullable (at_loc (contract w) l) w
   else (Ok (at_loc (contract w) l), w)) = (Ok r, w1) ->
  (w1 = w /\ r = at_loc (contract w) l)
  \/ (exists x,
        w1 = rewrite_world w (set_at l x (contract w))
        /\ (if allowNullable (w_options w1)
            then decorateWithNullable (at_loc (contract w1) l) w1
            else (Ok (at_loc (contract w1) l), w1)) = (Ok r, w1)).
Proof.
  destruct (allowNullable (w_options w)) eqn:Ha.
  2:{ intros H. injection H as <- <-. left. split; reflexivity. }
  rewrite decorateWithNullable_at_loc.
  destruct (decorate (lodash_get (contract w) l)) as [s' e] eqn:Hd.
  simpl fst. simpl snd. destruct e as [e|]; [discriminate|].
  intros H. injection H as <- <-.
  destruct (is_container (lodash_get (contract w) l)) eqn:Hc.
  - right. exists s'. split; [reflexivity|].
    fold (rewrite_world w (set_at l s' (contract w))).
    set (w1 := rewrite_world w (set_at l s' (contract w))).
    assert (Ha1 : allowNullable (w_options w1) = true) by exact Ha.
    assert (Hc1 : contract w1 = set_at l s' (contract w)) by reflexivity.
    assert (Hs' : lodash_get (contract w1) l = s')
      by (rewrite Hc1; apply lodash_get_set_at; exact Hc).
    rewrite Ha1, decorateWithNullable_at_loc, Hs', (decorate_twice _ _ Hd).
    simpl fst. simpl snd. f_equal.
    rewrite <- Hs' at 1. rewrite set_at_same. apply with_options_same.
  - left. rewrite (decorate_primitive _ Hc) in Hd. injection Hd as <-.
    rewrite set_at_same. split; [apply with_options_same|reflexivity].
Qed.

Lemma finish_fresh (w w1 : world) (r : jsref) :
  (if allowNullable (w_options w) then decorateWithNullable (fresh VNull) w
   else (Ok (fresh VNull), w)) = (Ok r, w1) ->
  r = fresh VNull /\ w1 = w.
Proof.
  rewrite decorateWithNullable_fresh_null.
  destruct (allowNullable (w_options w)); intros H; injection H as <- <-;
    split; reflexivity.
Qed.

(** A resolution repeated on the world it left finds the same schema and
    changes nothing. *)
Lemma resolveRequestModelSchema_twice (lib : libraries) (req : request)
      (w w1 : world) (r : jsref) :
  resolveRequestModelSchema lib req w = (Ok r, w1) ->
  resolveRequestModelSchema lib req w1 = (Ok r, w1).
Proof.
  rewrite !resolveRequestModelSchema_ref.
  destruct (request_schema_ref lib w req) as [r0|e] eqn:Href; [|discriminate].
  destruct (request_schema_ref_shape _ _ _ _ Href) as [->|[l ->]]; intros H.
  - destruct (finish_fresh _ _ _ H) as [-> ->]. rewrite Href. exact H.
  - destruct (finish_twice _ _ _ _ H) as [[-> ->]|(x & -> & H2)].
    + rewrite Href. exact H.
    + rewrite (request_schema_ref_stable _ _ _ _ x Href). exact H2.
Qed.

Lemma resolveResponseModelSchema_twice (lib : libraries) (req : request)
      (w w1 : world) (r : jsref) :
  resolveResponseModelSchema lib req w = (Ok r, w1) ->
  resolveResponseModelSchema lib req w1 = (Ok r, w1).
Proof.
  rewrite !resolveResponseModelSchema_ref.
  destruct (response_schema_ref lib w req) as [r0|e] eqn:Href; [|discriminate].
  destruct (response_schema_ref_shape _ _ _ _ Href) as [->|[l ->]]; intros H.
  - destruct (finish_fresh _ _ _ H) as [-> ->]. rewrite Href. exact H.
  - destruct (finish_twice _ _ _ _ H) as [[-> ->]|(x & -> & H2)].
    + rewrite Href. exact H.
    + rewrite (response_schema_ref_stable _ _ _ _ x Href). exact H2.
Qed.

(** Whatever its outcome, a resolution leaves everything but the contract
    as it was, and in the contract it rewrites at most one schema. *)
Lemma resolveRequestModelSchema_frame (lib : libraries) (req : request) (w : world) :
  let w1 := snd (resolveRequestModelSchema lib req w) in
  same_but_contract w w1
  /\ contract_rewritten (contract w) (contract w1)
  /\ (allowNullable (w_options w) = false -> w1 = w)
  /\ trace w1 = trace w /\ hooked w1 = hooked w
  /\ writtenData w1 = writtenData w /\ statusCode w1 = statusCode w
  /\ w_pathObjects w1 = w_pathObjects w.
Proof.
  rewrite resolveRequestModelSchema_ref.
  destruct (request_schema_ref lib w req) as [r0|e] eqn:Href.
  - apply finish_rewrites. eapply request_schema_ref_shape. exact Href.
  - simpl. repeat split; try reflexivity.
    + apply same_but_contract_refl.
    + left. reflexivity.
Qed.

Lemma resolveResponseModelSchema_frame (lib : libraries) (req : request) (w : world) :
  let w1 := snd (resolveResponseModelSchema lib req w) in
  same_but_contract w w1
  /\ contract_rewritten (contract w) (contract w1)
  /\ (allowNullable (w_options w) = false -> w1 = w)
  /\ trace w1 = trace w /\ hooked w1 = hooked w
  /\ writtenData w1 = writtenData w /\ statusCode w1 = statusCode w
  /\ w_pathObjects w1 = w_pathObjects w.
Proof.
  rewrite resolveResponseModelSchema_ref.
  destruct (response_schema_ref lib w req) as [r0|e] eqn:Href.
  - apply finish_rewrites. eapply response_schema_ref_shape. exact Href.
  - simpl. repeat split; try reflexivity.
    + apply same_but_contract_refl.
    + left. reflexivity.
Qed.

(** ** The stages, case by case *)

Lemma emit_emit (e1 e2 : event) (w : world) :
  bind (emit e1) (fun _ => emit e2) w
  = (Ok tt, with_trace w (trace w ++ [e1; e2])).
Proof.
  unfold bind, emit, with_trace. simpl. rewrite <- app_assoc. reflexivity.
Qed.

Lemma validateRequest_cases (lib : libraries) (req : request) (w : world) :
  validateRequest lib req w =
    match resolveRequestModelSchema lib req w with
    | (Throw e, w1) => (Throw e, w1)
    | (Ok r, w1) => request_verdict lib req r w1
    end.
Proof.
  unfold validateRequest, request_verdict. unfold bind at 1.
  destruct (resolveRequestModelSchema lib req w) as [[r|e] w1]; [|reflexivity].
  destruct (negb (truthy (target r))); [reflexivity|].
  unfold compile. destruct (ajv_compile lib (target r)) as [validator|];
    [|reflexivity].
  rewrite bind_ret. destruct (validator (body req)) as [errors|]; [|reflexivity].
  rewrite bind_get_world.
  destruct (requestValidationFn (w_options w1)); apply emit_emit.
Qed.

Lemma sendData_payload (lib : libraries) (val : value) (encoding : option string)
      (w : world) :
  sendData lib (JVal val) encoding w
  = (Ok tt, with_trace w (trace w ++ [OrigEnd (payload lib val) encoding])).
Proof. unfold sendData, payload, emit. destruct val; reflexivity. Qed.

Lemma conclude_cases (lib : libraries) (req : request) (val : value)
      (encoding : option string) (w : world) :
  conclude lib req val encoding w =
    match resolveResponseModelSchema lib req w with
    | (Throw e, w1) => (Throw e, w1)
    | (Ok r, w1) => response_verdict lib req val encoding r w1
    end.
Proof.
  unfold conclude, response_verdict. unfold bind at 1.
  destruct (resolveResponseModelSchema lib req w) as [[r|e] w1]; [|reflexivity].
  destruct (negb (truthy (target r))); [reflexivity|].
  unfold compile. destruct (ajv_compile lib (target r)) as [validator|];
    [|reflexivity].
  rewrite bind_ret. destruct (validator val) as [errors|]; [|reflexivity].
  rewrite bind_get_world.
  destruct (responseValidationFn (w_options w1)); [|reflexivity].
  unfold bind, emit. rewrite sendData_payload. simpl.
  rewrite <- app_assoc. reflexivity.
Qed.

Lemma end_hook_cases (lib : libraries) (req : request) (data : jsdata)
      (encoding : option string) (w : world) :
  end_hook lib req data encoding w =
    match received lib data encoding w with
    | (Throw e, w0) => (Throw e, w0)
    | (Ok (VStr s), w0) =>
        match JSON_parse lib s with
        | Some v => conclude lib req v encoding w0
        | None => (Throw (DecodeError true decode_message), w0)
        end
    | (Ok val, w0) => conclude lib req val encoding w0
    end.
Proof.
  unfold end_hook, reassemble. rewrite bind_assoc. unfold bind at 1.
  destruct (received lib data encoding w) as [[val|e] w0]; [|reflexivity].
  unfold parse.
  destruct val; try (rewrite bind_ret; reflexivity).
  destruct (JSON_parse lib s); [rewrite bind_ret|]; reflexivity.
Qed.

(** Flags and registry of a world that differs by its contract only. *)
Lemma same_but_contract_flags (w w1 : world) :
  same_but_contract w w1 ->
  requestValidationFn (w_options w1) = requestValidationFn (w_options w)
  /\ responseValidationFn (w_options w1) = responseValidationFn (w_options w)
  /\ opt_validateRequest (w_options w1) = opt_validateRequest (w_options w)
  /\ opt_validateResponse (w_options w1) = opt_validateResponse (w_options w)
  /\ allowNullable (w_options w1) = allowNullable (w_options w).
Proof. intros ->. repeat split. Qed.

Lemma resolved_request_world (lib : libraries) (req : request) (w w1 : world)
      (o : outcome jsref) :
  resolveRequestModelSchema lib req w = (o, w1) ->
  same_but_contract w w1 /\ trace w1 = trace w /\ hooked w1 = hooked w
  /\ writtenData w1 = writtenData w /\ statusCode w1 = statusCode w
  /\ w_pathObjects w1 = w_pathObjects w
  /\ contract_rewritten (contract w) (contract w1).
Proof.
  intros H. pose proof (resolveRequestModelSchema_frame lib req w) as F.
  rewrite H in F. simpl in F. tauto.
Qed.

Lemma resolved_response_world (lib : libraries) (req : request) (w w1 : world)
      (o : outcome jsref) :
  resolveResponseModelSchema lib req w = (o, w1) ->
  same_but_contract w w1 /\ trace w1 = trace w /\ hooked w1 = hooked w
  /\ writtenData w1 = writtenData w /\ statusCode w1 = statusCode w
  /\ w_pathObjects w1 = w_pathObjects w
  /\ contract_rewritten (contract w) (contract w1).
Proof.
  intros H. pose proof (resolveResponseModelSchema_frame lib req w) as F.
  rewrite H in F. simpl in F. tauto.
Qed.

(** ** What the finalize hook does before it looks for a schema *)

Lemma capture_only_refl (w : world) : capture_only w w.
Proof. repeat split. Qed.

Lemma capture_only_trans (a b c : world) :
  capture_only a b -> capture_only b c -> capture_only a c.
Proof. unfold capture_only. intuition congruence. Qed.

Lemma concat_writtenData_world (w : world) :
  snd (concat_writtenData w) = w.
Proof.
  unfold concat_writtenData, bind, get_world, lift.
  destruct (Buffer_concat (writtenData w)); reflexivity.
Qed.

Lemma capture_world (lib : libraries) (data : jsdata) (w : world) :
  let w' := snd (capture lib data w) in
  capture_only w w' /\ hooked w' = hooked w.
Proof.
  unfold capture, bind, push, get_world, concat_writtenData, lift, ret.
  destruct (truthy_data data).
  - destruct data; simpl;
      try (destruct (Buffer_concat _); simpl; repeat split).
    repeat split.
  - destruct (writtenData w) eqn:E; simpl; [repeat split|].
    rewrite E. destruct (Buffer_concat _); simpl; repeat split.
Qed.

Lemma debug_data_world (lib : libraries) (data : jsdata) (encoding : option string)
      (w : world) :
  snd (debug_data lib data encoding w) = w.
Proof.
  unfold debug_data, toString, bind, ret, throw.
  destruct data; try reflexivity.
  destruct (Buffer_toString lib encoding b); reflexivity.
Qed.

Lemma assemble_world (lib : libraries) (data : jsdata) (encoding : option string)
      (w : world) :
  let w' := snd (assemble lib data encoding w) in
  capture_only w w' /\ hooked w' = hooked w.
Proof.
  unfold assemble, bind.
  pose proof (capture_world lib data w) as Hc.
  destruct (capture lib data w) as [[c|e] w1]; simpl in *; [|exact Hc].
  pose proof (debug_data_world lib data encoding w1) as Hd.
  destruct (debug_data lib data encoding w1) as [[[]|e] w2]; simpl in *;
    subst w2; exact Hc.
Qed.

Lemma decode_world (lib : libraries) (encoding : option string) (val : captured)
      (w : world) :
  snd (decode lib encoding val w) = w.
Proof.
  unfold decode, toString, bind, ret, throw. destruct val; [|reflexivity].
  destruct (Buffer_toString lib encoding b); reflexivity.
Qed.

(** Once the capture has gone through, the originals are back whatever
    the decoding does. *)
Lemma received_world (lib : libraries) (data : jsdata) (encoding : option string)
      (w : world) :
  let w' := snd (received lib data encoding w) in
  capture_only w w'
  /\ (forall c w1, assemble lib data encoding w = (Ok c, w1) -> hooked w' = false)
  /\ (forall e w1, assemble lib data encoding w = (Throw e, w1) ->
                   hooked w' = hooked w).
Proof.
  unfold received, bind.
  pose proof (assemble_world lib data encoding w) as Ha.
  destruct (assemble lib data encoding w) as [[c|e] w1]; simpl in *.
  - unfold restore.
    pose proof (decode_world lib encoding c (with_hooked w1 false)) as Hd.
    destruct (decode lib encoding c (with_hooked w1 false)) as [o w2].
    simpl in *. subst w2. split; [|split].
    + destruct Ha as [Ha _]. exact Ha.
    + reflexivity.
    + discriminate.
  - split; [|split]; try tauto. discriminate.
Qed.

Lemma count_next_app (a b : list event) :
  count_next (a ++ b) = count_next a + count_next b.
Proof.
  induction a as [|e a IH]; simpl; [reflexivity|].
  destruct e; simpl; rewrite IH; reflexivity.
Qed.

Lemma count_end_app (a b : list event) :
  count_end (a ++ b) = count_end a + count_end b.
Proof.
  induction a as [|e a IH]; simpl; [reflexivity|].
  destruct e; simpl; rewrite IH; reflexivity.
Qed.

Lemma reassemble_cases (lib : libraries) (data : jsdata) (encoding : option string)
      (w : world) :
  reassemble lib data encoding w =
    match received lib data encoding w with
    | (Throw e, w0) => (Throw e, w0)
    | (Ok (VStr s), w0) =>
        match JSON_parse lib s with
        | Some v => (Ok v, w0)
        | None => (Throw (DecodeError true decode_message), w0)
        end
    | (Ok val, w0) => (Ok val, w0)
    end.
Proof.
  unfold reassemble, bind.
  destruct (received lib data encoding w) as [[val|e] w0]; [|reflexivity].
  unfold parse. destruct val; try reflexivity.
  destruct (JSON_parse lib s); reflexivity.
Qed.

Lemma reassemble_world (lib : libraries) (data : jsdata) (encoding : option string)
      (w : world) :
  snd (reassemble lib data encoding w) = snd (received lib data encoding w).
Proof.
  rewrite reassemble_cases.
  destruct (received lib data encoding w) as [[val|e] w0]; [|reflexivity].
  destruct val; try reflexivity. destruct (JSON_parse lib s); reflexivity.
Qed.

Lemma reassembled_world (lib : libraries) (data : jsdata) (encoding : option string)
      (w w0 : world) (o : outcome value) :
  reassemble lib data encoding w = (o, w0) -> capture_only w w0.
Proof.
  intros H. pose proof (reassemble_world lib data encoding w) as Hw.
  rewrite H in Hw. simpl in Hw. subst w0. apply received_world.
Qed.

Lemma end_hook_reassembled (lib : libraries) (req : request) (data : jsdata)
      (encoding : option string) (w w0 : world) (val : value) :
  reassemble lib data encoding w = (Ok val, w0) ->
  end_hook lib req data encoding w = conclude lib req val encoding w0.
Proof. intros H. unfold end_hook, bind. rewrite H. reflexivity. Qed.

Lemma validateResponse_world (req : request) (w : world) :
  validateResponse req w =
    (Ok tt,
     with_trace (with_writtenData (with_hooked w true) []) (trace w ++ [Next None])).
Proof. reflexivity. Qed.

Lemma validate_cases (lib : libraries) (req : request) (w : world) :
  opt_validateRequest (w_options w) = true ->
  opt_validateResponse (w_options w) = true ->
  validate lib req w =
    match validateRequest lib req w with
    | (Throw e, w1) => (Throw e, w1)
    | (Ok _, w1) =>
        if opt_validateResponse (w_options w1) then validateResponse req w1
        else (Ok tt, w1)
    end.
Proof.
  intros H1 H2. unfold validate. rewrite bind_get_world, H1. unfold bind at 1.
  destruct (validateRequest lib req w) as [[[]|e] w1]; [|reflexivity].
  rewrite bind_get_world. destruct (opt_validateResponse (w_options w1)); reflexivity.
Qed.

Lemma sendData_hooked (lib : libraries) (data : jsdata) (encoding : option string)
      (w : world) :
  hooked (snd (sendData lib data encoding w)) = hooked w.
Proof. reflexivity. Qed.



Lemma Buffer_concat_buffers (bs : list bytes) (rest : list jsdata) :
  Buffer_concat (map JBuffer bs ++ rest) =
    match Buffer_concat rest with
    | Ok b => Ok (List.concat bs ++ b)%list
    | Throw e => Throw e
    end.
Proof.
  induction bs as [|b bs IH]; simpl.
  - destruct (Buffer_concat rest); reflexivity.
  - rewrite IH. destruct (Buffer_concat rest); [|reflexivity].
    rewrite app_assoc. reflexivity.
Qed.


Lemma find_app_first {A : Type} (f : A -> bool) (before after : list A) (x : A) :
  forallb (fun a => negb (f a)) before = true -> f x = true ->
  find f (before ++ x :: after) = Some x.
Proof.
  intros Hb Hx. induction before as [|a before IH]; simpl in *.
  - rewrite Hx. reflexivity.
  - apply andb_prop in Hb. destruct Hb as [Ha Hb].
    destruct (f a); [discriminate|]. apply IH. exact Hb.
Qed.

Lemma find_none_forallb {A : Type} (f : A -> bool) (l : list A) :
  forallb (fun a => negb (f a)) l = true -> find f l = None.
Proof.
  induction l as [|a l IH]; simpl; [reflexivity|].
  intros H. apply andb_prop in H. destruct H as [Ha Hl].
  destruct (f a); [discriminate|]. apply IH. exact Hl.
Qed.

Lemma matchUrlWithSchema_find (lib : libraries) (w : world) (reqUrl u : string) :
  parseUrl_pathname lib reqUrl = Some u ->
  matchUrlWithSchema lib reqUrl w =
    (Ok (match find (fun obj => regexp obj u) (w_pathObjects w) with
         | Some obj => definition w obj
         | None => fresh VNull
         end), w).
Proof.
  intros Hu. rewrite matchUrlWithSchema_matched. unfold matched. rewrite Hu.
  destruct (find _ _); reflexivity.
Qed.

(** *** The path component of a URL *)

Lemma path_component_idempotent (s : string) :
  path_component (path_component s) = path_component s.
Proof.
  induction s as [|c s IH]; [reflexivity|]. simpl.
  destruct (Ascii.eqb c "?" || Ascii.eqb c "#") eqn:Hc; [reflexivity|].
  simpl. rewrite Hc, IH. reflexivity.
Qed.

(** What follows the first [?] or [#] is no part of the path component. *)
Lemma path_component_strips (p rest : string) (c : ascii) :
  path_component p = p ->
  (c = "?" \/ c = "#")%char ->
  path_component (p ++ String c rest) = p.
Proof.
  intros Hp Hc. induction p as [|d p IH].
  - simpl. destruct Hc as [-> | ->]; reflexivity.
  - simpl in *. destruct (Ascii.eqb d "?" || Ascii.eqb d "#"); [discriminate|].
    injection Hp as Hp. rewrite (IH Hp). reflexivity.
Qed.

Lemma pathname_path_component (reqUrl u : string) :
  pathname reqUrl = Some u -> u = path_component reqUrl /\ path_component u = u.
Proof.
  unfold pathname. destruct (path_component reqUrl) as [|c p] eqn:Hp;
    [discriminate|].
  intros H. injection H as <-. split; [reflexivity|].
  rewrite <- Hp. apply path_component_idempotent.
Qed.

Lemma pathname_strips (p rest : string) (c : ascii) :
  path_component p = p ->
  (c = "?" \/ c = "#")%char ->
  pathname (p ++ String c rest) = pathname p.
Proof.
  intros Hp Hc. unfold pathname.
  rewrite (path_component_strips _ _ _ Hp Hc), Hp. reflexivity.
Qed.

Lemma map_entries_paths (lib : libraries) (es : list (string * value))
      (objs : list pathObject) :
  map_entries lib es = Ok objs -> map path objs = map fst es.
Proof.
  revert objs. induction es as [|e es IH]; intros objs; simpl.
  - intros H. injection H as <-. reflexivity.
  - unfold pathObject_of.
    destruct (pathToRegexp lib (colon_template (fst e))) as [re|]; [|discriminate].
    destruct (map_entries lib es) as [objs'|x]; [|discriminate].
    intros H. injection H as <-. simpl. rewrite (IH objs' eq_refl). reflexivity.
Qed.

Lemma init_pathObjects (lib : libraries) (opts : init_options) (sc : option Z)
      (w0 : world) :
  init lib opts sc = Ok w0 ->
  isArrayLike (own (i_schema opts) "paths") = false ->
  map path (w_pathObjects w0) = Object_keys (own (i_schema opts) "paths").
Proof.
  unfold init. simpl schema.
  destruct (get_prop (i_schema opts) "paths") as [paths|e] eqn:Hp; [|discriminate].
  assert (paths = own (i_schema opts) "paths").
  { destruct (i_schema opts); simpl in Hp; congruence. }
  subst paths. unfold buildPathObjects. intros H Hal. rewrite Hal in H.
  destruct (map_entries lib (entries (own (i_schema opts) "paths")))
    as [objs|x] eqn:Hm; [|discriminate].
  injection H as <-. simpl. apply (map_entries_paths _ _ _ Hm).
Qed.

Lemma finish_null (w : world) :
  (if allowNullable (w_options w) then decorateWithNullable (fresh VNull) w
   else (Ok (fresh VNull), w)) = (Ok (fresh VNull), w).
Proof. destruct (allowNullable (w_options w)); reflexivity. Qed.

Lemma own_array_length (l : list value) :
  own (VArr l) "length" = VNum (Z.of_nat (List.length l)).
Proof.
  unfold own. simpl entries.
  rewrite (assoc_indexed_letter "length" "l" "ength" 0 l eq_refl eq_refl).
  reflexivity.
Qed.

Lemma own_array_first (first : value) (others : list value) :
  own (VArr (first :: others)) "0" = first.
Proof. reflexivity. Qed.

(** Reading a location that was written with the decoration of what it
    held. *)
Lemma lodash_get_set_at_decorated (doc : value) (l : list string) (s' : value) :
  decorate (lodash_get doc l) = (s', None) ->
  lodash_get (set_at l s' doc) l = s'.
Proof.
  intros Hd. destruct (is_container (lodash_get doc l)) eqn:Hc.
  - apply lodash_get_set_at. exact Hc.
  - rewrite (decorate_primitive _ Hc) in Hd. injection Hd as <-.
    rewrite set_at_same. reflexivity.
Qed.

(** The response resolver reads [responses] of the method entry without
    checking that the entry is there. *)
Lemma resolveResponseModelSchema_absent_method
      (lib : libraries) (req : request) (w : world) (u : string)
      (obj : pathObject) :
  parseUrl_pathname lib (originalUrl req) = Some u ->
  find (fun obj => regexp obj u) (w_pathObjects w) = Some obj ->
  truthy (lodash_get (contract w) ["paths"; path obj]) = true ->
  unreadable (lodash_get (contract w) (operation_loc obj req)) = true ->
  resolveResponseModelSchema lib req w = (Throw TypeError, w).
Proof.
  intros Hu Hf Ht Hun. rewrite resolveResponseModelSchema_ref.
  unfold response_schema_ref, matched. rewrite Hu, Hf, Ht, Hun. reflexivity.
Qed.

(** Assigning a property of the object at [l] is writing the location
    one step below. *)
Lemma set_at_snoc (doc x : value) (l : list string) (k : string) (c : value) :
  assoc k (entries (lodash_get doc l)) = Some c ->
  set_at (l ++ [k]) x doc = set_at l (set_prop (lodash_get doc l) k x) doc.
Proof.
  revert doc. induction l as [|k0 l IH]; intros doc Hc.
  - simpl in *. rewrite Hc. reflexivity.
  - rewrite <- app_comm_cons, !set_at_cons.
    destruct (assoc k0 (entries doc)) as [child|] eqn:E; [|reflexivity].
    pose proof (entries_readable _ _ _ E) as Hu.
    assert (Hown : own doc k0 = child) by (unfold own; rewrite E; reflexivity).
    rewrite lodash_get_cons in * by exact Hu. rewrite Hown in *.
    rewrite (IH child Hc). reflexivity.
Qed.

(** What [contract_rewritten] says of the locations of the contract. *)
Lemma contract_rewritten_frame (doc doc' : value) :
  contract_rewritten doc doc' ->
  doc' = doc
  \/ exists loc,
       props_rewritten (lodash_get doc (loc ++ ["properties"]))
                       (lodash_get doc' (loc ++ ["properties"]))
       /\ forall l', diverge (loc ++ ["properties"]) l' ->
                     lodash_get doc' l' = lodash_get doc l'.
Proof.
  intros [->|(loc & s' & [->|(fs & props & props' & Hs & Hfs & Hrw & ->)] & ->)].
  - left. reflexivity.
  - left. apply set_at_same.
  - right. exists loc.
    assert (Hc : is_container (lodash_get doc loc) = true) by (rewrite Hs; reflexivity).
    assert (Hprops : lodash_get doc (loc ++ ["properties"]) = props).
    { rewrite lodash_get_snoc by (apply container_readable; exact Hc).
      rewrite Hs. unfold own. simpl entries. rewrite Hfs. reflexivity. }
    assert (Hprops' : lodash_get
                        (set_at loc (VObj (assoc_set "properties" props' fs)) doc)
                        (loc ++ ["properties"]) = props').
    { rewrite lodash_get_snoc; rewrite (lodash_get_set_at _ _ _ Hc);
        [|reflexivity].
      unfold own. simpl entries. rewrite (assoc_set_same _ _ _ _ Hfs).
      reflexivity. }
    rewrite Hprops, Hprops'. split; [exact Hrw|].
    intros l' Hdiv.
    assert (Hset : set_at loc (VObj (assoc_set "properties" props' fs)) doc
                   = set_at (loc ++ ["properties"]) props' doc).
    { rewrite (set_at_snoc doc props' loc "properties" props)
        by (rewrite Hs; exact Hfs).
      rewrite Hs. simpl set_prop. rewrite Hfs. reflexivity. }
    rewrite Hset. apply lodash_get_set_at_diverge. exact Hdiv.
Qed.

Lemma same_but_contract_registry (w w' : world) :
  same_but_contract w w' -> registry_kept w w'.
Proof.
  unfold same_but_contract, registry_kept. intros H. split.
  - rewrite H. reflexivity.
  - rewrite H at 1. reflexivity.
Qed.

Lemma request_verdict_world (lib : libraries) (req : request) (r : jsref)
      (w1 : world) :
  let w2 := snd (request_verdict lib req r w1) in
  w_options w2 = w_options w1 /\ w_pathObjects w2 = w_pathObjects w1.
Proof.
  unfold request_verdict.
  destruct (negb (truthy (target r))); [split; reflexivity|].
  destruct (ajv_compile lib (target r)) as [validator|]; [|split; reflexivity].
  destruct (validator (body req)); [|split; reflexivity].
  destruct (requestValidationFn (w_options w1)); split; reflexivity.
Qed.

Lemma response_verdict_world (lib : libraries) (req : request) (val : value)
      (encoding : option string) (r : jsref) (w1 : world) :
  let w2 := snd (response_verdict lib req val encoding r w1) in
  w_options w2 = w_options w1 /\ w_pathObjects w2 = w_pathObjects w1.
Proof.
  unfold response_verdict.
  destruct (negb (truthy (target r))); [split; reflexivity|].
  destruct (ajv_compile lib (target r)) as [validator|]; [|split; reflexivity].
  destruct (validator val); [|split; reflexivity].
  destruct (responseValidationFn (w_options w1)); split; reflexivity.
Qed.

(** The request stage leaves registry and contract as its resolution
    left them. *)
Lemma validateRequest_world (lib : libraries) (req : request) (w : world) :
  let wv := snd (validateRequest lib req w) in
  let wq := snd (resolveRequestModelSchema lib req w) in
  w_options wv = w_options wq /\ w_pathObjects wv = w_pathObjects wq.
Proof.
  rewrite validateRequest_cases.
  destruct (resolveRequestModelSchema lib req w) as [[r|e] w1];
    [apply request_verdict_world|split; reflexivity].
Qed.

Lemma conclude_world (lib : libraries) (req : request) (val : value)
      (encoding : option string) (w : world) :
  let wv := snd (conclude lib req val encoding w) in
  registry_kept w wv /\ contract_rewritten (contract w) (contract wv).
Proof.
  rewrite conclude_cases.
  destruct (resolveResponseModelSchema lib req w) as [[r|e] w1] eqn:Hres;
    destruct (resolved_response_world _ _ _ _ _ Hres)
    as (Hsame & _ & _ & _ & _ & _ & Hrw);
    pose proof (same_but_contract_registry _ _ Hsame) as [Hreg Hopt].
  - destruct (response_verdict_world lib req val encoding r w1) as [Ho Hp].
    unfold registry_kept, contract. rewrite Ho, Hp. fold (contract w1).
    repeat split; assumption.
  - simpl. repeat split; assumption.
Qed.

Lemma end_hook_world (lib : libraries) (req : request) (data : jsdata)
      (encoding : option string) (w : world) :
  let wv := snd (end_hook lib req data encoding w) in
  registry_kept w wv /\ contract_rewritten (contract w) (contract wv).
Proof.
  rewrite end_hook_cases.
  destruct (received_world lib data encoding w) as [(Ho & Hp & _) _].
  destruct (received lib data encoding w) as [[val|e] w0]; simpl in Ho, Hp.
  - assert (Hconc : forall v,
               registry_kept w (snd (conclude lib req v encoding w0))
               /\ contract_rewritten (contract w)
                    (contract (snd (conclude lib req v encoding w0)))).
    { intros v. destruct (conclude_world lib req v encoding w0) as [[Hr1 Hr2] Hc].
      unfold registry_kept, contract in *. rewrite Ho, Hp in *.
      repeat split; assumption. }
    destruct val; try apply Hconc.
    destruct (JSON_parse lib s); [apply Hconc|].
    simpl. unfold registry_kept, contract. rewrite Ho, Hp. split.
    + split; [reflexivity|]. destruct (w_options w). reflexivity.
    + left. reflexivity.
  - simpl. unfold registry_kept, contract. rewrite Ho, Hp. split.
    + split; [reflexivity|]. destruct (w_options w). reflexivity.
    + left. reflexivity.
Qed.

(** The schema a resolver returns is the object the contract holds at
    its place once the resolver is done, and it is the only thing of the
    contract that has been rewritten. *)
Lemma finish_resolved (w w1 : world) (r0 r : jsref) :
  r0 = fresh VNull \/ (exists l, r0 = at_loc (contract w) l) ->
  (if allowNullable (w_options w) then decorateWithNullable r0 w
   else (Ok r0, w)) = (Ok r, w1) ->
  resolved_in_place w w1 r.
Proof.
  unfold resolved_in_place. intros [->|[l ->]] H.
  - destruct (finish_fresh _ _ _ H) as [-> ->]. reflexivity.
  - destruct (allowNullable (w_options w)).
    + rewrite decorateWithNullable_at_loc in H.
      destruct (decorate (lodash_get (contract w) l)) as [s' e] eqn:Hd.
      simpl fst in H. simpl snd in H. destruct e as [e|]; [discriminate|].
      injection H as <- <-. simpl. split; [|split].
      * pose proof (decorate_schema_rewritten (lodash_get (contract w) l)) as Hrw.
        rewrite Hd in Hrw. exact Hrw.
      * reflexivity.
      * apply lodash_get_set_at_decorated. exact Hd.
    + injection H as <- <-. simpl. split; [|split].
      * left. reflexivity.
      * symmetry. apply set_at_same.
      * reflexivity.
Qed.

Lemma resolveRequestModelSchema_in_place (lib : libraries) (req : request)
      (w w1 : world) (r : jsref) :
  resolveRequestModelSchema lib req w = (Ok r, w1) -> resolved_in_place w w1 r.
Proof.
  rewrite resolveRequestModelSchema_ref.
  destruct (request_schema_ref lib w req) as [r0|e] eqn:Href; [|discriminate].
  apply finish_resolved. eapply request_schema_ref_shape. exact Href.
Qed.

Lemma resolveResponseModelSchema_in_place (lib : libraries) (req : request)
      (w w1 : world) (r : jsref) :
  resolveResponseModelSchema lib req w = (Ok r, w1) -> resolved_in_place w w1 r.
Proof.
  rewrite resolveResponseModelSchema_ref.
  destruct (response_schema_ref lib w req) as [r0|e] eqn:Href; [|discriminate].
  apply finish_resolved. eapply response_schema_ref_shape. exact Href.
Qed.

(** *** What the hook has received, by what was written and passed *)

Lemma capture_buffers (lib : libraries) (data : jsdata) (w : world)
      (bs : list bytes) :
  writtenData w = map JBuffer bs ->
  (forall b, data = JBuffer b ->
             capture lib data w
             = (Ok (CBuffer (List.concat bs ++ b)%list),
                with_writtenData w (writtenData w ++ [data])%list))
  /\ (forall s, data = JStringObj s ->
                capture lib data w
                = (Ok (CBuffer (List.concat bs ++ Buffer_from lib s)%list),
                   with_writtenData w
                     (writtenData w ++ [JBuffer (Buffer_from lib s)])%list))
  /\ (truthy_data data = false -> bs <> [] ->
      capture lib data w = (Ok (CBuffer (List.concat bs)), w)).
Proof.
  intros Hw. split; [|split].
  - intros b ->. unfold capture, bind, push, concat_writtenData, get_world, lift.
    simpl. rewrite Hw, Buffer_concat_buffers. simpl. rewrite app_nil_r.
    reflexivity.
  - intros s ->. unfold capture, bind, push, concat_writtenData, get_world, lift.
    simpl. rewrite Hw, Buffer_concat_buffers. simpl. rewrite app_nil_r.
    reflexivity.
  - intros Hf Hne. unfold capture. rewrite Hf, bind_get_world, Hw.
    destruct bs as [|b bs]; [congruence|].
    change (map JBuffer (b :: bs)) with (JBuffer b :: map JBuffer bs).
    cbv iota. unfold concat_writtenData, get_world, lift, bind. cbv beta iota.
    rewrite Hw.
    rewrite <- (app_nil_r (map JBuffer (b :: bs))), Buffer_concat_buffers.
    simpl. rewrite app_nil_r. reflexivity.
Qed.

Lemma received_captured (lib : libraries) (data : jsdata)
      (encoding : option string) (w w1 : world) (b : bytes) (text : string) :
  assemble lib data encoding w = (Ok (CBuffer b), w1) ->
  Buffer_toString lib encoding b = Some text ->
  received lib data encoding w = (Ok (VStr text), with_hooked w1 false).
Proof.
  intros Ha Ht. unfold received, bind. rewrite Ha.
  unfold restore, decode, toString, bind. rewrite Ht. reflexivity.
Qed.

(** The text decoded from Buffer chunks and the data of the finalize
    call is their concatenation. *)
Lemma received_buffers (lib : libraries) (data : jsdata)
      (encoding : option string) (w : world) (bs : list bytes) :
  writtenData w = map JBuffer bs ->
  (forall b shown text,
     data = JBuffer b ->
     Buffer_toString lib encoding b = Some shown ->
     Buffer_toString lib encoding (List.concat bs ++ b)%list = Some text ->
     fst (received lib data encoding w) = Ok (VStr text))
  /\ (forall s text,
        data = JStringObj s ->
        Buffer_toString lib encoding (List.concat bs ++ Buffer_from lib s)%list
        = Some text ->
        fst (received lib data encoding w) = Ok (VStr text))
  /\ (forall text,
        truthy_data data = false -> bs <> [] ->
        Buffer_toString lib encoding (List.concat bs) = Some text ->
        fst (received lib data encoding w) = Ok (VStr text)).
Proof.
  intros Hw. destruct (capture_buffers lib data w bs Hw) as (Hb & Hs & Hn).
  split; [|split].
  - intros b shown text Hd Hshown Ht.
    erewrite received_captured; [reflexivity| |exact Ht].
    unfold assemble, bind. rewrite (Hb b Hd). subst data.
    unfold debug_data, toString, bind. rewrite Hshown. reflexivity.
  - intros s text Hd Ht.
    erewrite received_captured; [reflexivity| |exact Ht].
    unfold assemble, bind. rewrite (Hs s Hd). subst data. reflexivity.
  - intros text Hf Hne Ht.
    erewrite received_captured; [reflexivity| |exact Ht].
    unfold assemble, bind. rewrite (Hn Hf Hne).
    destruct data; [discriminate Hf|discriminate Hf|reflexivity].
Qed.

(** A plain truthy value passed to the finalize call is what the hook
    has received. *)
Lemma received_plain (lib : libraries) (v : value) (encoding : option string)
      (w : world) :
  truthy v = true ->
  received lib (JVal v) encoding w = (Ok v, with_hooked w false).
Proof.
  intros Hv. unfold received, assemble, capture, bind.
  change (truthy_data (JVal v)) with (truthy v). rewrite Hv. reflexivity.
Qed.

(** Nothing written and nothing passed: nothing is decoded or parsed. *)
Lemma reassemble_nothing (lib : libraries) (v : value)
      (encoding : option string) (w : world) :
  truthy v = false ->
  writtenData w = [] ->
  reassemble lib (JVal v) encoding w = (Ok VUndefined, with_hooked w false).
Proof.
  intros Hv Hw. unfold reassemble, received, assemble, capture.
  change (truthy_data (JVal v)) with (truthy v).
  rewrite Hv. unfold bind, get_world. rewrite Hw. reflexivity.
Qed.


(** ** The store of shared objects *)

Module SharedFacts.
Import Shared SharedNotions SharedFrame.

(** *** Fields and the store *)

Lemma field_set_same (k : string) (x p : hval) (fs : list (string * hval)) :
  field k fs = Some p -> field k (set_field k x fs) = Some x.
Proof.
  induction fs as [|[k' v] fs IH]; simpl; [discriminate|].
  destruct (k =? k') eqn:E; simpl; rewrite E; auto.
Qed.

Lemma field_set_other (k k' : string) (x : hval) (fs : list (string * hval)) :
  (k' =? k) = false -> field k' (set_field k x fs) = field k' fs.
Proof.
  intros Hne. induction fs as [|[k0 v] fs IH]; simpl; [reflexivity|].
  destruct (k =? k0) eqn:E; simpl.
  - apply String.eqb_eq in E. subst k0. rewrite Hne. reflexivity.
  - rewrite IH. reflexivity.
Qed.

Lemma set_field_keys (k : string) (x : hval) (fs : list (string * hval)) :
  map fst (set_field k x fs) = map fst fs.
Proof.
  induction fs as [|[k' v] fs IH]; simpl; [reflexivity|].
  destruct (k =? k'); simpl; congruence.
Qed.

Lemma set_field_length (k : string) (x : hval) (fs : list (string * hval)) :
  List.length (set_field k x fs) = List.length fs.
Proof.
  rewrite <- (length_map fst), set_field_keys, length_map. reflexivity.
Qed.

Lemma field_indexed_key {A : Type} (f : A -> hval) (k : string) (i : nat)
      (l : list A) (x : hval) :
  field k (indexed i (map f l)) = Some x -> exists j, k = index_key j.
Proof.
  revert i. induction l as [|a l IH]; intros i; simpl; [discriminate|].
  destruct (k =? index_key i) eqn:E.
  - apply String.eqb_eq in E. eauto.
  - apply IH.
Qed.

Lemma field_chars_letter (k : string) (c : ascii) (rest : string) (s : string) :
  k = String c rest -> (nat_of_ascii c <? 58)%nat = false ->
  field k (indexed 0 (chars s)) = None.
Proof.
  intros Hk Hc. destruct (field k (indexed 0 (chars s))) eqn:E; [|reflexivity].
  rewrite <- (map_id (chars s)) in E.
  apply field_indexed_key in E. destruct E as [j Hj].
  destruct (index_key_head j) as (c' & r' & Hj' & Hd).
  rewrite Hk, Hj' in Hj. injection Hj as -> _. congruence.
Qed.

Lemma field_chars (k : string) (i : nat) (s : string) (x : hval) :
  field k (indexed i (chars s)) = Some x ->
  exists c, x = HStr (String c EmptyString).
Proof.
  revert i. induction s as [|c s IH]; intros i; simpl; [discriminate|].
  destruct (k =? index_key i).
  - intros H. injection H as <-. eauto.
  - apply IH.
Qed.

Lemma update_length (a : addr) (o : object) (h : heap) :
  List.length (update a o h) = List.length h.
Proof.
  revert a. induction h as [|o' h IH]; intros [|a]; simpl; auto.
Qed.

Lemma nth_update_same (a : addr) (o : object) (h : heap) :
  a < List.length h -> nth_error (update a o h) a = Some o.
Proof.
  revert a. induction h as [|o' h IH]; intros [|a]; simpl; try lia; auto.
  intros H. apply IH. lia.
Qed.

Lemma nth_update_other (a a' : addr) (o : object) (h : heap) :
  a' <> a -> nth_error (update a o h) a' = nth_error h a'.
Proof.
  revert a a'. induction h as [|o' h IH]; intros [|a] [|a']; simpl;
    try congruence; auto.
Qed.

Lemma refers_true (v : hval) (a : addr) : refers v a = true <-> v = HRef a.
Proof.
  destruct v; simpl; try (split; [discriminate|discriminate]).
  rewrite Nat.eqb_eq. split; congruence.
Qed.

Lemma refers_false (v : hval) (a : addr) : refers v a = false <-> v <> HRef a.
Proof.
  rewrite <- refers_true. destruct (refers v a); split; congruence.
Qed.

(** *** Assignment *)

Lemma assign_length (h : heap) (v : hval) (k : string) (x : hval) :
  List.length (assign h v k x) = List.length h.
Proof.
  unfold assign. destruct v; try reflexivity.
  destruct (nth_error h a) as [o|]; [|reflexivity].
  destruct (field k (fields o)); [apply update_length|].
  destruct (is_array o); [reflexivity|apply update_length].
Qed.

Lemma assign_other (h : heap) (v : hval) (k : string) (x : hval) (a : addr) :
  refers v a = false -> nth_error (assign h v k x) a = nth_error h a.
Proof.
  intros Hr. unfold assign. destruct v as [| | | | |b]; try reflexivity.
  simpl in Hr. apply Nat.eqb_neq in Hr.
  destruct (nth_error h b) as [o|]; [|reflexivity].
  destruct (field k (fields o)); [apply nth_update_other; exact Hr|].
  destruct (is_array o); [reflexivity|apply nth_update_other; exact Hr].
Qed.

(** A value that is not the reference assigned through reads as before. *)
Lemma own_assign_elsewhere (h : heap) (v v' : hval) (k k' : string) (x : hval) :
  v' <> v -> own (assign h v k x) v' k' = own h v' k'.
Proof.
  intros Hne. unfold own, entries, length_of.
  destruct v' as [| | | | |a]; try reflexivity.
  rewrite assign_other; [reflexivity|].
  apply refers_false. congruence.
Qed.

Lemma own_assign_other_key (h : heap) (v v' : hval) (k k' : string) (x : hval) :
  (k' =? k) = false -> own (assign h v k x) v' k' = own h v' k'.
Proof.
  intros Hk. destruct v as [| | | | |a]; try reflexivity.
  destruct v' as [| | | | |b]; try reflexivity.
  destruct (Nat.eq_dec b a) as [->|Hne].
  2:{ apply own_assign_elsewhere. congruence. }
  unfold assign. destruct (nth_error h a) as [o|] eqn:Ho; [|reflexivity].
  assert (Ha : a < List.length h) by (apply nth_error_Some; congruence).
  destruct (field k (fields o)) as [p|] eqn:Hf.
  - unfold own, entries, length_of. rewrite (nth_update_same _ _ _ Ha), Ho.
    simpl. rewrite (field_set_other _ _ _ _ Hk), set_field_length. reflexivity.
  - destruct (is_array o) eqn:Harr; [reflexivity|].
    unfold own, entries, length_of. rewrite (nth_update_same _ _ _ Ha), Ho.
    simpl. rewrite Harr.
    assert (Happ : field k' (fields o ++ [(k, x)])%list = field k' (fields o)).
    { clear - Hk. induction (fields o) as [|[k0 v0] fs IH]; simpl.
      - rewrite Hk. reflexivity.
      - destruct (k' =? k0); [reflexivity|exact IH]. }
    rewrite Happ. reflexivity.
Qed.

Lemma own_assign_same (h : heap) (a : addr) (k : string) (x p : hval) :
  field k (entries h (HRef a)) = Some p ->
  own (assign h (HRef a) k x) (HRef a) k = x.
Proof.
  unfold own, entries, assign. intros Hf.
  destruct (nth_error h a) as [o|] eqn:Ho; [|discriminate].
  assert (Ha : a < List.length h) by (apply nth_error_Some; congruence).
  rewrite Hf, (nth_update_same _ _ _ Ha). simpl.
  rewrite (field_set_same _ _ _ _ Hf). reflexivity.
Qed.

Lemma keys_assign (h : heap) (v v' : hval) (k : string) (x p : hval) :
  field k (entries h v) = Some p ->
  Object_keys (assign h v k x) v' = Object_keys h v'.
Proof.
  intros Hf. unfold Object_keys. destruct v as [| | | | |a]; try reflexivity.
  destruct v' as [| | | | |b]; try reflexivity.
  destruct (Nat.eq_dec b a) as [->|Hne].
  2:{ unfold entries. rewrite assign_other; [reflexivity|].
      simpl. apply Nat.eqb_neq. congruence. }
  unfold entries, assign in *.
  destruct (nth_error h a) as [o|] eqn:Ho; [|discriminate].
  assert (Ha : a < List.length h) by (apply nth_error_Some; congruence).
  rewrite Hf, (nth_update_same _ _ _ Ha). simpl. apply set_field_keys.
Qed.

(** *** Reading after an allocation *)

Lemma own_app (h more : heap) (v : hval) (k : string) :
  (forall a, v = HRef a -> a < List.length h) ->
  own (h ++ more)%list v k = own h v k.
Proof.
  intros Hv. unfold own, entries, length_of.
  destruct v as [| | | | |a]; try reflexivity.
  rewrite nth_error_app1 by (apply Hv; reflexivity). reflexivity.
Qed.

Lemma keys_app (h more : heap) (v : hval) :
  (forall a, v = HRef a -> a < List.length h) ->
  Object_keys (h ++ more)%list v = Object_keys h v.
Proof.
  intros Hv. unfold Object_keys, entries.
  destruct v as [| | | | |a]; try reflexivity.
  rewrite nth_error_app1 by (apply Hv; reflexivity). reflexivity.
Qed.

(** A property that was found belongs to an object of the store. *)
Lemma field_in_store (h : heap) (v : hval) (k : string) (p : hval) :
  field k (entries h v) = Some p -> forall a, v = HRef a -> a < List.length h.
Proof.
  intros Hf a ->. unfold entries in Hf.
  destruct (nth_error h a) eqn:Ho; [|discriminate].
  apply nth_error_Some. congruence.
Qed.

(** Only an object of the store carries a truthy [x-nullable]. *)
Lemma flag_needs_object (h : heap) (p : hval) :
  truthy (own h p "x-nullable") = true ->
  exists a flag, p = HRef a /\ field "x-nullable" (entries h p) = Some flag.
Proof.
  unfold own. destruct (field "x-nullable" (entries h p)) as [flag|] eqn:Hf.
  - intros _. destruct p as [| | | |s|a]; try discriminate Hf.
    + simpl in Hf.
      rewrite (field_chars_letter "x-nullable" "x" "-nullable" s eq_refl eq_refl)
        in Hf. discriminate.
    + eauto.
  - simpl. discriminate.
Qed.

(** A property that is wrapped was found among the own properties. *)
Lemma wrapped_field_present (h : heap) (props : hval) (k : string) :
  truthy (own h (own h props k) "x-nullable") = true ->
  exists a, props = HRef a /\ a < List.length h
            /\ field k (entries h props) = Some (own h props k).
Proof.
  intros Hflag. destruct (flag_needs_object _ _ Hflag) as (b & flag & Hp & _).
  unfold own in Hp. unfold own at 1.
  destruct (field k (entries h props)) as [p|] eqn:Hf.
  - destruct props as [| | | |s|a]; try discriminate Hf.
    + simpl in Hf. destruct (field_chars _ _ _ _ Hf) as [c ->]. discriminate.
    + exists a. split; [reflexivity|]. split; [|reflexivity].
      eapply field_in_store; [exact Hf|reflexivity].
  - destruct (k =? "length"); [|discriminate].
    unfold length_of in Hp. destruct props; try discriminate.
    destruct (nth_error h a) as [o|]; [|discriminate].
    destruct (is_array o); discriminate.
Qed.

(** *** One iteration *)

Lemma ref_truthy_readable (v : hval) : truthy v = true -> unreadable v = false.
Proof. destruct v; simpl; intros; congruence. Qed.

Lemma own_unreadable (h : heap) (v : hval) (k : string) :
  unreadable v = true -> own h v k = HUndefined.
Proof.
  destruct v; try discriminate; intros _; unfold own; simpl;
    destruct (k =? "length"); reflexivity.
Qed.

Lemma decorate_prop_step (h : heap) (s props : hval) (k : string) :
  own h s "properties" = props -> truthy props = true ->
  decorate_prop s k h = step props k h.
Proof.
  intros Hp Ht. unfold decorate_prop, step, get_prop.
  destruct (unreadable s) eqn:Hs.
  { rewrite (own_unreadable _ _ _ Hs) in Hp. subst props. discriminate. }
  rewrite Hp, (ref_truthy_readable _ Ht).
  destruct (unreadable (own h props k)); [reflexivity|].
  destruct (truthy (own h (own h props k) "x-nullable")); reflexivity.
Qed.

(** What a step that wraps does, spelled out. *)
Lemma step_cases (props : hval) (k : string) (h h' : heap) :
  step props k h = (Ok tt, h') ->
  (h' = h /\ settled h props k)
  \/ (exists a,
        props = HRef a /\ a < List.length h
        /\ field k (entries h props) = Some (own h props k)
        /\ unreadable (own h props k) = false
        /\ truthy (own h (own h props k) "x-nullable") = true
        /\ h' = assign (snd (nullable_wrap (own h props k) h)) props k
                       (HRef (List.length h + 2))).
Proof.
  unfold step. destruct (unreadable (own h props k)) eqn:Hr; [discriminate|].
  destruct (truthy (own h (own h props k) "x-nullable")) eqn:Hf.
  - intros H. injection H as <-. right.
    destruct (wrapped_field_present _ _ _ Hf) as (a & -> & Ha & Hfield).
    exists a. repeat split; assumption.
  - intros H. injection H as <-. left. split; [reflexivity|split; assumption].
Qed.

Lemma step_settled (props : hval) (k : string) (h : heap) :
  settled h props k -> step props k h = (Ok tt, h).
Proof. intros [Hr Hf]. unfold step. rewrite Hr, Hf. reflexivity. Qed.

Lemma step_throws (props : hval) (k : string) (h h' : heap) (e : exn) :
  step props k h = (Throw e, h') -> e = TypeError /\ h' = h.
Proof.
  unfold step. destruct (unreadable (own h props k)).
  - intros H. injection H as <- <-. split; reflexivity.
  - destruct (truthy (own h (own h props k) "x-nullable")); discriminate.
Qed.

Lemma nth_wrap_old (h : heap) (p : hval) (a : addr) :
  a < List.length h -> nth_error (snd (nullable_wrap p h)) a = nth_error h a.
Proof. intros Ha. simpl. apply nth_error_app1. exact Ha. Qed.

Lemma own_wrap_old (h : heap) (p v : hval) (k : string) :
  (forall a, v = HRef a -> a < List.length h) ->
  own (snd (nullable_wrap p h)) v k = own h v k.
Proof. intros Hv. simpl snd. apply own_app. exact Hv. Qed.

Lemma keys_wrap_old (h : heap) (p v : hval) :
  (forall a, v = HRef a -> a < List.length h) ->
  Object_keys (snd (nullable_wrap p h)) v = Object_keys h v.
Proof. intros Hv. simpl snd. apply keys_app. exact Hv. Qed.

Lemma wrap_length (h : heap) (p : hval) :
  List.length (snd (nullable_wrap p h)) = List.length h + 3.
Proof. simpl. rewrite length_app. reflexivity. Qed.

Lemma wrapped_at_wrap (h : heap) (p : hval) :
  wrapped_at (snd (nullable_wrap p h)) (List.length h) p.
Proof.
  unfold wrapped_at. simpl.
  rewrite !nth_error_app2 by lia.
  replace (List.length h - List.length h) with 0 by lia.
  replace (List.length h + 1 - List.length h) with 1 by lia.
  replace (List.length h + 2 - List.length h) with 2 by lia.
  repeat split.
Qed.

(** A step keeps every object but the one [props] refers to. *)
Lemma step_kept (props : hval) (k : string) (h h' : heap) (o : outcome unit) :
  step props k h = (o, h') -> kept_but props h h'.
Proof.
  destruct o as [[]|e].
  - intros H. destruct (step_cases _ _ _ _ H)
      as [[-> _]|(a & -> & Ha & _ & _ & _ & ->)].
    + split; [lia|reflexivity].
    + split.
      * rewrite assign_length, wrap_length. lia.
      * intros b Hb Hne. rewrite assign_other by exact Hne.
        apply nth_wrap_old. exact Hb.
  - intros H. destruct (step_throws _ _ _ _ _ H) as [_ ->].
    split; [lia|reflexivity].
Qed.

Lemma kept_but_refl (props : hval) (h : heap) : kept_but props h h.
Proof. split; [lia|reflexivity]. Qed.

Lemma kept_but_trans (props : hval) (h1 h2 h3 : heap) :
  kept_but props h1 h2 -> kept_but props h2 h3 -> kept_but props h1 h3.
Proof.
  intros [L1 K1] [L2 K2]. split; [lia|].
  intros a Ha Hne. rewrite K2 by (try lia; exact Hne). apply K1; assumption.
Qed.

(** A value other than [props] that is in the store, or is a primitive,
    reads the same after a step. *)
Lemma own_kept (props v : hval) (h h' : heap) (k : string) :
  kept_but props h h' -> apart h props v = true -> own h' v k = own h v k.
Proof.
  intros [_ K] Hv. unfold own, entries, length_of.
  destruct v as [| | | | |a]; try reflexivity.
  simpl in Hv. apply andb_true_iff in Hv. destruct Hv as [Ha Hne].
  apply Nat.ltb_lt in Ha. apply negb_true_iff in Hne.
  rewrite (K a Ha Hne). reflexivity.
Qed.

(** The other properties of [props] read the same after a step. *)
Lemma step_other_key (props : hval) (k k' : string) (h h' : heap) :
  step props k h = (Ok tt, h') -> (k' =? k) = false ->
  own h' props k' = own h props k'.
Proof.
  intros H Hk. destruct (step_cases _ _ _ _ H)
    as [[-> _]|(a & -> & Ha & _ & _ & _ & ->)]; [reflexivity|].
  rewrite own_assign_other_key by exact Hk.
  apply own_wrap_old. intros b Hb. injection Hb as <-. exact Ha.
Qed.

Lemma step_keys (props : hval) (k : string) (h h' : heap) :
  step props k h = (Ok tt, h') -> Object_keys h' props = Object_keys h props.
Proof.
  intros H. destruct (step_cases _ _ _ _ H)
    as [[-> _]|(a & -> & Ha & Hf & _ & _ & ->)]; [reflexivity|].
  assert (Hin : forall b, HRef a = HRef b -> b < List.length h)
    by (intros b Hb; injection Hb as <-; exact Ha).
  rewrite (keys_assign _ _ _ _ _ (own h (HRef a) k)).
  - apply keys_wrap_old. exact Hin.
  - unfold entries. simpl snd. rewrite nth_error_app1 by exact Ha. exact Hf.
Qed.

(** The truthiness of an [x-nullable] read is the same after a step:
    the one property a step replaces held an object, and holds one. *)
Lemma step_flag (props : hval) (k : string) (h h' : heap) (v : hval) :
  step props k h = (Ok tt, h') ->
  truthy (own h' v "x-nullable") = truthy (own h v "x-nullable").
Proof.
  intros H. destruct (step_cases _ _ _ _ H)
    as [[-> _]|(a & -> & Ha & Hf & Hr & Hflag & ->)]; [reflexivity|].
  destruct (flag_needs_object _ _ Hflag) as (b & flag & Hp & _).
  destruct ("x-nullable" =? k) eqn:Hk.
  - apply String.eqb_eq in Hk. subst k.
    destruct v as [| | | | |c]; try reflexivity.
    destruct (Nat.eq_dec c a) as [->|Hne].
    + rewrite (own_assign_same _ _ _ _ (own h (HRef a) "x-nullable")).
      * rewrite Hp. reflexivity.
      * unfold entries. simpl snd. rewrite nth_error_app1 by exact Ha. exact Hf.
    + rewrite own_assign_elsewhere by congruence.
      destruct (Nat.lt_ge_cases c (List.length h)) as [Hc|Hc].
      * rewrite own_wrap_old; [reflexivity|]. intros d Hd. injection Hd as <-. exact Hc.
      * unfold own, entries, length_of. simpl snd.
        rewrite (proj2 (nth_error_None h c)) by exact Hc.
        rewrite nth_error_app2 by exact Hc.
        destruct (c - List.length h) as [|[|[|n]]]; simpl; try reflexivity.
        destruct n; reflexivity.
  - rewrite own_assign_other_key by exact Hk.
    destruct v as [| | | | |c]; try reflexivity.
    destruct (Nat.lt_ge_cases c (List.length h)) as [Hc|Hc].
    + rewrite own_wrap_old; [reflexivity|]. intros d Hd. injection Hd as <-. exact Hc.
    + unfold own, entries, length_of. simpl snd.
      rewrite (proj2 (nth_error_None h c)) by exact Hc.
      rewrite nth_error_app2 by exact Hc.
      destruct (c - List.length h) as [|[|[|n]]]; simpl; try reflexivity.
      destruct n; reflexivity.
Qed.

(** The property a step wraps holds the wrapper afterwards. *)
Lemma step_wraps (props : hval) (k : string) (h h' : heap) :
  step props k h = (Ok tt, h') ->
  truthy (own h (own h props k) "x-nullable") = true ->
  own h' props k = HRef (List.length h + 2)
  /\ wrapped_at h' (List.length h) (own h props k)
  /\ List.length h' = List.length h + 3.
Proof.
  intros H Hflag. destruct (step_cases _ _ _ _ H)
    as [[-> [_ Hs]]|(a & -> & Ha & Hf & _ & _ & ->)]; [congruence|].
  split; [|split].
  - apply (own_assign_same _ _ _ _ (own h (HRef a) k)).
    unfold entries. simpl snd. rewrite nth_error_app1 by exact Ha. exact Hf.
  - destruct (wrapped_at_wrap h (own h (HRef a) k)) as (W0 & W1 & W2).
    unfold wrapped_at.
    rewrite !assign_other by (simpl; apply Nat.eqb_neq; lia).
    repeat split; assumption.
  - rewrite assign_length, wrap_length. reflexivity.
Qed.

(** *** The loop *)

Lemma steps_kept (props : hval) (keys : list string) (h h1 : heap)
      (o : outcome unit) :
  steps props keys h = (o, h1) -> kept_but props h h1.
Proof.
  revert h. induction keys as [|k keys IH]; intros h; simpl.
  - intros H. injection H as _ <-. apply kept_but_refl.
  - destruct (step props k h) as [[[]|e] h'] eqn:Hs.
    + intros H. eapply kept_but_trans; [eapply step_kept; exact Hs|].
      apply IH. exact H.
    + intros H. injection H as _ <-. eapply step_kept. exact Hs.
Qed.

Lemma steps_flag (props : hval) (keys : list string) (h h1 : heap) (v : hval) :
  steps props keys h = (Ok tt, h1) ->
  truthy (own h1 v "x-nullable") = truthy (own h v "x-nullable").
Proof.
  revert h. induction keys as [|k keys IH]; intros h; simpl.
  - intros H. injection H as <-. reflexivity.
  - destruct (step props k h) as [[[]|e] h'] eqn:Hs; [|discriminate].
    intros H. rewrite (IH _ H). eapply step_flag. exact Hs.
Qed.

Lemma steps_keys (props : hval) (keys : list string) (h h1 : heap) :
  steps props keys h = (Ok tt, h1) -> Object_keys h1 props = Object_keys h props.
Proof.
  revert h. induction keys as [|k keys IH]; intros h; simpl.
  - intros H. injection H as <-. reflexivity.
  - destruct (step props k h) as [[[]|e] h'] eqn:Hs; [|discriminate].
    intros H. rewrite (IH _ H). eapply step_keys. exact Hs.
Qed.

Lemma steps_throw (props : hval) (keys : list string) (h h1 : heap) (e : exn) :
  steps props keys h = (Throw e, h1) -> e = TypeError.
Proof.
  revert h. induction keys as [|k keys IH]; intros h; simpl; [discriminate|].
  destruct (step props k h) as [[[]|e'] h'] eqn:Hs.
  - apply IH.
  - intros H. injection H as <- _. eapply step_throws. exact Hs.
Qed.

Lemma steps_settled (props : hval) (keys : list string) (h : heap) :
  (forall k, In k keys -> settled h props k) ->
  steps props keys h = (Ok tt, h).
Proof.
  induction keys as [|k keys IH]; intros Hall; simpl; [reflexivity|].
  rewrite step_settled by (apply Hall; left; reflexivity).
  apply IH. intros k' Hk'. apply Hall. right. exact Hk'.
Qed.

Lemma wrapped_at_kept (props : hval) (h h' : heap) (n : addr) (p : hval) :
  wrapped_at h n p -> kept_but props h h' ->
  refers props n = false -> refers props (n + 1) = false ->
  refers props (n + 2) = false ->
  wrapped_at h' n p.
Proof.
  intros (W0 & W1 & W2) [_ K] R0 R1 R2. unfold wrapped_at.
  assert (L0 : n < List.length h) by (apply nth_error_Some; congruence).
  assert (L1 : n + 1 < List.length h) by (apply nth_error_Some; congruence).
  assert (L2 : n + 2 < List.length h) by (apply nth_error_Some; congruence).
  rewrite (K _ L0 R0), (K _ L1 R1), (K _ L2 R2).
  repeat split; assumption.
Qed.

Lemma wrapper_flag (h : heap) (n : addr) (p : hval) :
  wrapped_at h n p -> own h (HRef (n + 2)) "x-nullable" = HUndefined.
Proof.
  intros (_ & _ & W2). unfold own, entries, length_of. rewrite W2. reflexivity.
Qed.

(** What the loop has done to each property of [props] when it ends
    normally: a property it went through can be read; one that carried
    a truthy [x-nullable] now holds a new wrapper of what it held; any
    other holds what it held. *)
Lemma steps_describe (props : hval) (keys : list string) (h h1 : heap) :
  steps props keys h = (Ok tt, h1) ->
  forall k,
    (In k keys -> unreadable (own h props k) = false)
    /\ (In k keys ->
        truthy (own h (own h props k) "x-nullable") = true ->
        exists n, List.length h <= n
                  /\ own h1 props k = HRef (n + 2)
                  /\ wrapped_at h1 n (own h props k))
    /\ (~ In k keys \/ truthy (own h (own h props k) "x-nullable") = false ->
        own h1 props k = own h props k).
Proof.
  revert h. induction keys as [|k0 keys IH]; intros h; simpl.
  - intros H. injection H as <-. intros k.
    split; [intros []|]. split; [intros []|]. reflexivity.
  - destruct (step props k0 h) as [[[]|e] h'] eqn:Hs; [|discriminate].
    intros H k. destruct (IH _ H k) as (IHr & IHw & IHs).
    pose proof (steps_kept _ _ _ _ _ H) as Hkept.
    destruct (k =? k0) eqn:Hk.
    + apply String.eqb_eq in Hk. subst k0.
      destruct (truthy (own h (own h props k) "x-nullable")) eqn:Hflag.
      * destruct (step_wraps _ _ _ _ Hs Hflag) as (Hown & Hw & Hlen).
        destruct (step_cases _ _ _ _ Hs)
          as [[_ [_ Hsettled]]|(a & -> & Ha & _ & Hr & _ & _)]; [congruence|].
        assert (Hstay : own h1 (HRef a) k = HRef (List.length h + 2)).
        { rewrite <- Hown. apply IHs. right.
          rewrite Hown, (wrapper_flag _ _ _ Hw). reflexivity. }
        split; [intros _; exact Hr|]. split.
        -- intros _ _. exists (List.length h). split; [lia|].
           split; [exact Hstay|].
           apply (wrapped_at_kept _ _ _ _ _ Hw Hkept);
             simpl; apply Nat.eqb_neq; lia.
        -- intros [Hn|Hn]; [exfalso; apply Hn; left; reflexivity|discriminate].
      * destruct (step_cases _ _ _ _ Hs)
          as [[-> [Hr _]]|(a & _ & _ & _ & _ & Hf & _)]; [|congruence].
        split; [intros _; exact Hr|]. split; [intros _ Hf; discriminate|].
        intros _. apply IHs. right. exact Hflag.
    + rewrite <- (step_other_key _ _ _ _ _ Hs Hk).
      assert (Hin : In k (k0 :: keys) <-> In k keys).
      { split; [|intros Hi; right; exact Hi].
        intros [->|Hi]; [|exact Hi]. rewrite String.eqb_refl in Hk. discriminate. }
      rewrite <- (step_flag _ _ _ _ (own h' props k) Hs).
      split; [intros Hi; apply IHr, Hin, Hi|]. split.
      * intros Hi Hf. destruct (IHw (proj1 Hin Hi) Hf) as (n & Hn & Ho & Hw).
        exists n. split; [|split; assumption].
        destruct (step_kept _ _ _ _ _ Hs) as [Hl _]. lia.
      * intros [Hn|Hf]; apply IHs; [left|right; exact Hf].
        intros Hi. apply Hn, Hin, Hi.
Qed.

(** After the loop every property it went through is settled. *)
Lemma steps_settles (props : hval) (keys : list string) (h h1 : heap) :
  steps props keys h = (Ok tt, h1) ->
  forall k, In k keys -> settled h1 props k.
Proof.
  intros H k Hin. destruct (steps_describe _ _ _ _ H k) as (Hr & Hw & Hs).
  destruct (truthy (own h (own h props k) "x-nullable")) eqn:Hflag.
  - destruct (Hw Hin eq_refl) as (n & _ & Hown & Hwrapped).
    split; rewrite Hown; [reflexivity|].
    rewrite (wrapper_flag _ _ _ Hwrapped). reflexivity.
  - split; rewrite (Hs (or_intror eq_refl)).
    + apply Hr. exact Hin.
    + rewrite (steps_flag _ _ _ _ _ H). exact Hflag.
Qed.

(** Running the loop again changes nothing. *)
Lemma steps_twice (props : hval) (keys : list string) (h h1 : heap) :
  steps props keys h = (Ok tt, h1) -> steps props keys h1 = (Ok tt, h1).
Proof. intros H. apply steps_settled. apply (steps_settles _ _ _ _ H). Qed.

(** *** The loop as the source has it *)

Lemma properties_in_store (h : heap) (s : hval) :
  truthy (own h s "properties") = true ->
  exists a, s = HRef a /\ a < List.length h.
Proof.
  unfold own. destruct (field "properties" (entries h s)) as [p|] eqn:Hf.
  - intros _. destruct s as [| | | |t|a]; try discriminate Hf.
    + simpl in Hf.
      rewrite (field_chars_letter "properties" "p" "roperties" t eq_refl eq_refl)
        in Hf. discriminate.
    + exists a. split; [reflexivity|].
      eapply field_in_store; [exact Hf|reflexivity].
  - simpl. discriminate.
Qed.

Lemma step_schema (props s : hval) (k : string) (h h' : heap) (o : outcome unit) :
  own h s "properties" = props -> truthy props = true -> props <> s ->
  step props k h = (o, h') -> own h' s "properties" = props.
Proof.
  intros Hp Ht Hne H. destruct o as [[]|e].
  - destruct (step_cases _ _ _ _ H)
      as [[-> _]|(a & Ha & _ & _ & _ & _ & ->)]; [exact Hp|].
    rewrite own_assign_elsewhere by congruence.
    rewrite own_wrap_old; [exact Hp|].
    rewrite <- Hp in Ht. destruct (properties_in_store _ _ Ht) as (b & -> & Hb).
    intros c Hc. injection Hc as <-. exact Hb.
  - destruct (step_throws _ _ _ _ _ H) as [_ ->]. exact Hp.
Qed.

Lemma forEach_steps (props s : hval) (keys : list string) (h : heap) :
  own h s "properties" = props -> truthy props = true -> props <> s ->
  forEach_prop keys s h = steps props keys h
  /\ own (snd (steps props keys h)) s "properties" = props.
Proof.
  intros Hp Ht Hne. revert h Hp.
  induction keys as [|k keys IH]; intros h Hp; simpl.
  - split; [reflexivity|exact Hp].
  - rewrite (decorate_prop_step _ _ _ _ Hp Ht).
    destruct (step props k h) as [[[]|e] h'] eqn:Hs.
    + apply IH. eapply step_schema; eassumption.
    + split; [reflexivity|]. simpl. eapply step_schema; eassumption.
Qed.

(** *** [decorateWithNullable] *)

Lemma falsy_no_keys (h : heap) (v : hval) :
  truthy v = false -> Object_keys h v = [].
Proof.
  destruct v as [| |b|n|t|a]; try reflexivity; try discriminate.
  destruct t; [reflexivity|discriminate].
Qed.

Lemma falsy_no_properties (h : heap) (s : hval) :
  truthy s = false -> own h s "properties" = HUndefined.
Proof.
  destruct s as [| |b|n|t|a]; try reflexivity; try discriminate.
  destruct t; [reflexivity|discriminate].
Qed.

Lemma decoration_cases (s : hval) (h : heap) :
  decorateWithNullable s h =
    if truthy s && truthy (own h s "properties") then
      match forEach_prop (Object_keys h (own h s "properties")) s h with
      | (Ok _, h') => (Ok s, h')
      | (Throw e, h') => (Throw e, h')
      end
    else (Ok s, h).
Proof.
  unfold decorateWithNullable, get_prop.
  destruct (truthy s) eqn:Hs; [|reflexivity].
  rewrite (ref_truthy_readable _ Hs). simpl.
  destruct (truthy (own h s "properties")); reflexivity.
Qed.

Lemma decorate_returns (s r : hval) (h h1 : heap) :
  decorateWithNullable s h = (Ok r, h1) -> r = s.
Proof.
  rewrite decoration_cases.
  destruct (truthy s && truthy (own h s "properties")).
  - destruct (forEach_prop _ s h) as [[[]|e] h']; intros H; [|discriminate].
    injection H as <- _. reflexivity.
  - intros H. injection H as <- _. reflexivity.
Qed.

(** The decoration as the loop over the properties object. *)
Lemma decorate_steps (s : hval) (h : heap) :
  own h s "properties" <> s ->
  truthy s && truthy (own h s "properties") = true ->
  decorateWithNullable s h =
    match steps (own h s "properties")
                (Object_keys h (own h s "properties")) h with
    | (Ok _, h') => (Ok s, h')
    | (Throw e, h') => (Throw e, h')
    end.
Proof.
  intros Hne Ht. rewrite decoration_cases, Ht.
  apply andb_true_iff in Ht. destruct Ht as [_ Ht].
  destruct (forEach_steps _ s (Object_keys h (own h s "properties")) h
              eq_refl Ht Hne) as [-> _].
  reflexivity.
Qed.

Lemma decorate_kept (s : hval) (h h1 : heap) (o : outcome hval) :
  own h s "properties" <> s ->
  decorateWithNullable s h = (o, h1) ->
  kept_but (own h s "properties") h h1.
Proof.
  intros Hne. destruct (truthy s && truthy (own h s "properties")) eqn:Ht.
  - rewrite (decorate_steps _ _ Hne Ht).
    destruct (steps _ _ h) as [[[]|e] h'] eqn:Hs; intros H; injection H as _ <-;
      eapply steps_kept; exact Hs.
  - rewrite decoration_cases, Ht. intros H. injection H as _ <-.
    apply kept_but_refl.
Qed.

Lemma decoration_throws (s : hval) (h h1 : heap) (e : exn) :
  own h s "properties" <> s ->
  decorateWithNullable s h = (Throw e, h1) -> e = TypeError.
Proof.
  intros Hne. destruct (truthy s && truthy (own h s "properties")) eqn:Ht.
  - rewrite (decorate_steps _ _ Hne Ht).
    destruct (steps _ _ h) as [[[]|e'] h'] eqn:Hs; [discriminate|].
    intros H. injection H as <- _. eapply steps_throw. exact Hs.
  - rewrite decoration_cases, Ht. discriminate.
Qed.

Lemma decorate_describe (s : hval) (h h1 : heap) :
  own h s "properties" <> s ->
  decorateWithNullable s h = (Ok s, h1) ->
  let props := own h s "properties" in
  own h1 s "properties" = props
  /\ Object_keys h1 props = Object_keys h props
  /\ forall k,
       In k (Object_keys h props) ->
       (truthy (own h (own h props k) "x-nullable") = true ->
        exists n, List.length h <= n
                  /\ own h1 props k = HRef (n + 2)
                  /\ wrapped_at h1 n (own h props k))
       /\ (truthy (own h (own h props k) "x-nullable") = false ->
           own h1 props k = own h props k).
Proof.
  intros Hne. destruct (truthy s && truthy (own h s "properties")) eqn:Ht.
  - rewrite (decorate_steps _ _ Hne Ht).
    destruct (steps _ _ h) as [[[]|e'] h'] eqn:Hs; [|discriminate].
    intros H. injection H as <-. cbv zeta.
    apply andb_true_iff in Ht. destruct Ht as [_ Ht].
    destruct (forEach_steps _ s (Object_keys h (own h s "properties")) h
                eq_refl Ht Hne) as [_ Hschema].
    rewrite Hs in Hschema. simpl in Hschema.
    split; [exact Hschema|]. split; [eapply steps_keys; exact Hs|].
    intros k Hin. destruct (steps_describe _ _ _ _ Hs k) as (_ & Hw & Hsame).
    split; [intros Hf; apply Hw; assumption|].
    intros Hf. apply Hsame. right. exact Hf.
  - rewrite decoration_cases, Ht. intros H. injection H as <-. cbv zeta.
    split; [reflexivity|]. split; [reflexivity|].
    intros k Hin. exfalso.
    apply andb_false_iff in Ht. destruct Ht as [Ht|Ht].
    + rewrite (falsy_no_properties _ _ Ht) in Hin. exact Hin.
    + rewrite (falsy_no_keys _ _ Ht) in Hin. exact Hin.
Qed.

(** A schema that has been decorated is left as it is by a second
    decoration. *)
Lemma decoration_twice (s : hval) (h h1 : heap) :
  own h s "properties" <> s ->
  decorateWithNullable s h = (Ok s, h1) ->
  decorateWithNullable s h1 = (Ok s, h1).
Proof.
  intros Hne H. destruct (truthy s && truthy (own h s "properties")) eqn:Ht.
  - destruct (decorate_describe _ _ _ Hne H) as (Hschema & Hkeys & _).
    rewrite (decorate_steps _ _ Hne Ht) in H.
    destruct (steps _ _ h) as [[[]|e'] h'] eqn:Hs; [|discriminate].
    injection H as <-.
    rewrite decorate_steps; rewrite Hschema; [|exact Hne|exact Ht].
    rewrite Hkeys, (steps_twice _ _ _ _ Hs). reflexivity.
  - rewrite decoration_cases, Ht in H. injection H as <-.
    rewrite decoration_cases, Ht. reflexivity.
Qed.

(** *** The frame of a decoration, whatever the schema *)

(** While the loop runs, [schema.properties] is the object it was at
    the start or one made since. *)
Lemma decorate_prop_kept (s props0 : hval) (k : string) (h0 h h' : heap)
      (o : outcome unit) :
  truthy props0 = true ->
  kept_but props0 h0 h ->
  own h s "properties" = props0
  \/ (exists b, List.length h0 <= b /\ own h s "properties" = HRef b) ->
  decorate_prop s k h = (o, h') ->
  kept_but props0 h0 h'
  /\ (own h' s "properties" = props0
      \/ exists b, List.length h0 <= b /\ own h' s "properties" = HRef b).
Proof.
  intros Ht0 Hkept Haim.
  assert (Ht : truthy (own h s "properties") = true).
  { destruct Haim as [->|(b & _ & ->)]; [exact Ht0|reflexivity]. }
  rewrite (decorate_prop_step _ _ _ _ eq_refl Ht). intros Hs.
  assert (Hfar : forall a, a < List.length h0 -> refers props0 a = false ->
                           refers (own h s "properties") a = false).
  { intros a Ha Hr. destruct Haim as [->|(b & Hb & ->)]; [exact Hr|].
    simpl. apply Nat.eqb_neq. lia. }
  split.
  - destruct (step_kept _ _ _ _ _ Hs) as [Hl K]. destruct Hkept as [Hl0 K0].
    split; [lia|]. intros a Ha Hr.
    rewrite K by (try lia; apply Hfar; assumption). apply K0; assumption.
  - destruct o as [[]|e].
    2:{ destruct (step_throws _ _ _ _ _ Hs) as [_ ->]. exact Haim. }
    destruct (step_cases _ _ _ _ Hs)
      as [[-> _]|(t & Htgt & Ht' & Hf & _ & _ & ->)]; [exact Haim|].
    destruct (properties_in_store _ _ Ht) as (a_s & -> & Ha_s).
    assert (Hin : forall c, HRef a_s = HRef c -> c < List.length h)
      by (intros c Hc; injection Hc as <-; exact Ha_s).
    rewrite Htgt in *.
    destruct (Nat.eq_dec a_s t) as [->|Hne].
    + destruct ("properties" =? k) eqn:Hk.
      * apply String.eqb_eq in Hk. subst k. right.
        exists (List.length h + 2). destruct Hkept as [Hl0 _]. split; [lia|].
        apply (own_assign_same _ _ _ _ (own h (HRef t) "properties")).
        unfold entries. simpl snd. rewrite nth_error_app1 by exact Ht'.
        exact Hf.
      * rewrite own_assign_other_key by exact Hk.
        rewrite own_wrap_old by exact Hin. rewrite Htgt. exact Haim.
    + rewrite own_assign_elsewhere by congruence.
      rewrite own_wrap_old by exact Hin. rewrite Htgt. exact Haim.
Qed.

Lemma forEach_prop_kept (s props0 : hval) (keys : list string) (h0 h h1 : heap)
      (o : outcome unit) :
  truthy props0 = true ->
  kept_but props0 h0 h ->
  own h s "properties" = props0
  \/ (exists b, List.length h0 <= b /\ own h s "properties" = HRef b) ->
  forEach_prop keys s h = (o, h1) ->
  kept_but props0 h0 h1.
Proof.
  intros Ht0. revert h. induction keys as [|k keys IH]; intros h Hkept Haim; simpl.
  - intros H. injection H as _ <-. exact Hkept.
  - destruct (decorate_prop s k h) as [[[]|e] h'] eqn:Hs;
      destruct (decorate_prop_kept _ _ _ _ _ _ _ Ht0 Hkept Haim Hs)
        as [Hkept' Haim'].
    + apply IH; assumption.
    + intros H. injection H as _ <-. exact Hkept'.
Qed.

(** A decoration changes no object of the store but the one
    [schema.properties] refers to; it may add objects. *)
Lemma decorate_kept_always (s : hval) (h h1 : heap) (o : outcome hval) :
  decorateWithNullable s h = (o, h1) ->
  kept_but (own h s "properties") h h1.
Proof.
  rewrite decoration_cases.
  destruct (truthy s && truthy (own h s "properties")) eqn:Ht.
  - apply andb_true_iff in Ht. destruct Ht as [_ Ht].
    destruct (forEach_prop _ s h) as [[[]|e] h'] eqn:Hs;
      intros H; injection H as _ <-;
      apply (forEach_prop_kept _ _ _ _ _ _ _ Ht (kept_but_refl _ _)
               (or_introl eq_refl) Hs).
  - intros H. injection H as _ <-. apply kept_but_refl.
Qed.

(** *** The resolvers *)

Section Resolvers.

Variable lib : libraries.

Lemma finish_registry (found : outcome hval) (w : world) :
  let w' := snd (finish found w) in
  schema w' = schema w /\ allowNullable w' = allowNullable w
  /\ requestValidationFn w' = requestValidationFn w
  /\ responseValidationFn w' = responseValidationFn w
  /\ pathObjects w' = pathObjects w /\ statusCode w' = statusCode w
  /\ trace w' = trace w.
Proof.
  cbv zeta. unfold finish. destruct found as [s|e]; [|simpl; repeat split].
  destruct (allowNullable w) eqn:Ha; [|simpl; repeat split; congruence].
  destruct (decorateWithNullable s (objects w)). simpl.
  repeat split; congruence.
Qed.

Lemma finish_off (found : outcome hval) (w : world) :
  allowNullable w = false -> finish found w = (found, w).
Proof. intros H. unfold finish. rewrite H. destruct found; reflexivity. Qed.

Lemma finish_throw (e : exn) (w : world) : finish (Throw e) w = (Throw e, w).
Proof. reflexivity. Qed.

Lemma with_objects_same (w : world) : with_objects w (objects w) = w.
Proof. destruct w. reflexivity. Qed.

Lemma finish_kept (s : hval) (w : world) :
  kept_but (own (objects w) s "properties") (objects w)
           (objects (snd (finish (Ok s) w))).
Proof.
  unfold finish. destruct (allowNullable w); [|apply kept_but_refl].
  destruct (decorateWithNullable s (objects w)) as [r h'] eqn:Hd.
  simpl. eapply decorate_kept_always. exact Hd.
Qed.

Lemma finish_returns (s r : hval) (w : world) :
  fst (finish (Ok s) w) = Ok r -> r = s.
Proof.
  unfold finish. destruct (allowNullable w).
  - destruct (decorateWithNullable s (objects w)) as [o h'] eqn:Hd. simpl.
    intros ->. eapply decorate_returns. exact Hd.
  - simpl. congruence.
Qed.

(** Once a schema has been resolved, resolving it again, through
    whatever request finds it, changes nothing. *)
Lemma finish_again (s : hval) (w : world) :
  own (objects w) s "properties" <> s ->
  fst (finish (Ok s) w) = Ok s ->
  finish (Ok s) (snd (finish (Ok s) w))
  = (Ok s, snd (finish (Ok s) w)).
Proof.
  intros Hne. unfold finish. destruct (allowNullable w) eqn:Ha.
  - destruct (decorateWithNullable s (objects w)) as [o h'] eqn:Hd. simpl.
    intros ->. rewrite Ha, (decoration_twice _ _ _ Hne Hd). reflexivity.
  - simpl. rewrite Ha. reflexivity.
Qed.

Lemma finish_describe (s : hval) (w : world) :
  own (objects w) s "properties" <> s ->
  allowNullable w = true ->
  fst (finish (Ok s) w) = Ok s ->
  let h := objects w in
  let h1 := objects (snd (finish (Ok s) w)) in
  let props := own h s "properties" in
  own h1 s "properties" = props
  /\ Object_keys h1 props = Object_keys h props
  /\ forall k,
       In k (Object_keys h props) ->
       (truthy (own h (own h props k) "x-nullable") = true ->
        exists n, List.length h <= n
                  /\ own h1 props k = HRef (n + 2)
                  /\ wrapped_at h1 n (own h props k))
       /\ (truthy (own h (own h props k) "x-nullable") = false ->
           own h1 props k = own h props k).
Proof.
  intros Hne Ha. unfold finish. rewrite Ha.
  destruct (decorateWithNullable s (objects w)) as [o h'] eqn:Hd. simpl.
  intros ->. apply (decorate_describe _ _ _ Hne Hd).
Qed.

Lemma finish_type_error (s : hval) (w w1 : world) (e : exn) :
  own (objects w) s "properties" <> s ->
  finish (Ok s) w = (Throw e, w1) -> e = TypeError.
Proof.
  intros Hne. unfold finish. destruct (allowNullable w); [|discriminate].
  destruct (decorateWithNullable s (objects w)) as [o h'] eqn:Hd.
  intros H. injection H as -> _. eapply decoration_throws; eassumption.
Qed.

(** *** What the resolvers read on their way *)

Lemma own_apart (props v : hval) (h h' : heap) (k : string) :
  kept_but props h h' -> apart h props v = true -> own h' v k = own h v k.
Proof. apply own_kept. Qed.

Lemma chain_kept (props : hval) (h h' : heap) (v : hval) (keys : list string) :
  kept_but props h h' ->
  forallb (apart h props) (chain h v keys) = true ->
  chain h' v keys = chain h v keys.
Proof.
  intros Hk. revert v. induction keys as [|k keys IH]; intros v; simpl.
  - reflexivity.
  - intros H. apply andb_true_iff in H. destruct H as [Hv Hrest].
    rewrite (own_apart _ _ _ _ _ Hk Hv). rewrite IH by exact Hrest.
    reflexivity.
Qed.

Lemma matchUrlWithSchema_objects (reqUrl : string) (w : world) (h' : heap) :
  matchUrlWithSchema lib reqUrl (with_objects w h')
  = matchUrlWithSchema lib reqUrl w.
Proof. reflexivity. Qed.

(** The route of the response resolver: the path object and what it
    reads below it. *)
Lemma find_response_schema_kept (req : request) (w : world) (h' : heap)
      (props pathObj : hval) :
  kept_but props (objects w) h' ->
  matchUrlWithSchema lib (originalUrl req) w = Ok pathObj ->
  forallb (apart (objects w) props)
          (chain (objects w) pathObj
                 [toLowerCase (method req); "responses";
                  status_key (status_or_200 (statusCode w))]) = true ->
  find_response_schema lib req (with_objects w h')
  = find_response_schema lib req w.
Proof.
  intros Hk Hm Hroute. unfold find_response_schema.
  rewrite matchUrlWithSchema_objects, Hm. simpl objects. simpl statusCode.
  simpl in Hroute. repeat rewrite andb_true_iff in Hroute.
  destruct Hroute as (H0 & H1 & H2 & H3 & _).
  unfold get_prop.
  rewrite (own_apart _ _ _ _ _ Hk H0).
  destruct (truthy pathObj); [|reflexivity].
  destruct (unreadable pathObj); [reflexivity|].
  rewrite (own_apart _ _ _ _ _ Hk H1).
  destruct (unreadable (own (objects w) pathObj (toLowerCase (method req))));
    [reflexivity|].
  rewrite (own_apart _ _ _ _ _ Hk H2).
  destruct (unreadable _); [reflexivity|].
  rewrite (own_apart _ _ _ _ _ Hk H3).
  reflexivity.
Qed.

Lemma js_gt0_number (fuel fuel' : nat) (h h' : heap) (v : hval) :
  (forall a, v <> HRef a) -> js_gt0 lib fuel h v = js_gt0 lib fuel' h' v.
Proof.
  intros Hv. destruct v as [| |b|n|s|a];
    try (destruct fuel, fuel'; reflexivity).
  exfalso. apply (Hv a). reflexivity.
Qed.

Lemma find_request_schema_kept (req : request) (w : world) (h' : heap)
      (props pathObj : hval) :
  kept_but props (objects w) h' ->
  matchUrlWithSchema lib (originalUrl req) w = Ok pathObj ->
  forallb (apart (objects w) props)
          (chain (objects w) pathObj
                 [toLowerCase (method req); "parameters"; "0"]) = true ->
  (forall a,
     own (objects w)
         (own (objects w) (own (objects w) pathObj (toLowerCase (method req)))
              "parameters") "length" <> HRef a) ->
  find_request_schema lib req (with_objects w h')
  = find_request_schema lib req w.
Proof.
  intros Hk Hm Hroute Hlen. unfold find_request_schema.
  rewrite matchUrlWithSchema_objects, Hm. simpl objects.
  simpl in Hroute. repeat rewrite andb_true_iff in Hroute.
  destruct Hroute as (H0 & H1 & H2 & H3 & _).
  unfold get_prop.
  rewrite (own_apart _ _ _ _ _ Hk H0).
  destruct (truthy pathObj); [|reflexivity].
  destruct (unreadable pathObj); [reflexivity|].
  set (operation := own (objects w) pathObj (toLowerCase (method req))) in *.
  rewrite (own_apart _ _ _ _ _ Hk H1).
  destruct (truthy operation).
  - set (rs := own (objects w) operation "parameters") in *.
    rewrite !(own_apart _ _ _ _ _ Hk H2).
    rewrite (js_gt0_number _ (S (List.length (objects w))) _ (objects w) _ Hlen).
    rewrite (own_apart _ _ _ _ _ Hk H3). reflexivity.
  - reflexivity.
Qed.

End Resolvers.

Lemma finish_world (found : outcome hval) (w : world) :
  snd (finish found w) = with_objects w (objects (snd (finish found w))).
Proof.
  unfold finish. destruct found as [s|e]; [|symmetry; apply with_objects_same].
  destruct (allowNullable w); [|symmetry; apply with_objects_same].
  destruct (decorateWithNullable s (objects w)). reflexivity.
Qed.

Lemma finish_confined (found : outcome hval) (w : world) :
  confined w found (finish found w).
Proof.
  unfold confined. split; [|split; [|split]].
  - destruct (finish_registry found w) as (H1 & H2 & H3 & H4 & H5 & H6 & H7).
    repeat split; assumption.
  - apply finish_off.
  - intros e ->. reflexivity.
  - intros s ->. cbv zeta. split; [|split; [|intros Hne; split]].
    + intros r. apply finish_returns.
    + apply finish_kept.
    + intros e He. destruct (finish (Ok s) w) as [o w1] eqn:Hf. simpl in He.
      subst o. eapply finish_type_error; eassumption.
    + intros Ha Hok.
      destruct (finish_describe s w Hne Ha Hok) as (Hp & Hk & Hd).
      split; [exact Hp|]. split; [exact Hk|]. split; [exact Hd|].
      revert Hok. unfold finish. rewrite Ha.
      destruct (decorateWithNullable s (objects w)) as [o h'] eqn:Hdec. simpl.
      intros ->. apply (decoration_twice _ _ _ Hne Hdec).
Qed.

Section Stages.

Variable lib : libraries.
Variable ajv_compile : heap -> hval -> option (value -> option value).

Lemma validateRequest_confined (req : request) (w : world) :
  let wq := snd (resolveRequestModelSchema lib req w) in
  let wv := snd (validateRequest lib ajv_compile req w) in
  objects wv = objects wq /\ pathObjects wv = pathObjects w
  /\ schema wv = schema w /\ allowNullable wv = allowNullable w.
Proof.
  cbv zeta. unfold validateRequest.
  destruct (finish_registry (find_request_schema lib req w) w)
    as (H1 & H2 & _ & _ & H5 & _).
  fold (resolveRequestModelSchema lib req w) in *.
  destruct (resolveRequestModelSchema lib req w) as [[s|e] w1]; simpl in *;
    [|repeat split; assumption].
  destruct (negb (truthy s)); [simpl; repeat split; assumption|].
  destruct (ajv_compile (objects w1) s) as [validator|];
    [|simpl; repeat split; assumption].
  destruct (validator (body req)); [|simpl; repeat split; assumption].
  destruct (requestValidationFn w1); simpl; repeat split; assumption.
Qed.

Lemma conclude_confined (req : request) (val : value)
      (encoding : option string) (w : world) :
  let wp := snd (resolveResponseModelSchema lib req w) in
  let wv := snd (conclude lib ajv_compile req val encoding w) in
  objects wv = objects wp /\ pathObjects wv = pathObjects w
  /\ schema wv = schema w /\ allowNullable wv = allowNullable w.
Proof.
  cbv zeta. unfold conclude.
  destruct (finish_registry (find_response_schema lib req w) w)
    as (H1 & H2 & _ & _ & H5 & _).
  fold (resolveResponseModelSchema lib req w) in *.
  destruct (resolveResponseModelSchema lib req w) as [[s|e] w1]; simpl in *;
    [|repeat split; assumption].
  destruct (negb (truthy s)); [simpl; repeat split; assumption|].
  destruct (ajv_compile (objects w1) s) as [validator|];
    [|simpl; repeat split; assumption].
  destruct (validator val); [|simpl; repeat split; assumption].
  destruct (responseValidationFn w1); simpl; repeat split; assumption.
Qed.

End Stages.

Lemma finish_found (found : outcome hval) (w w1 : world) (s : hval) :
  finish found w = (Ok s, w1) -> found = Ok s.
Proof.
  destruct found as [s0|e]; [|discriminate].
  intros H. f_equal. symmetry. apply (finish_returns s0 s w).
  rewrite H. reflexivity.
Qed.

(** Once [s] has been resolved, a resolution that finds [s] changes
    nothing. *)
Lemma finish_settled (found : outcome hval) (w w1 : world) (s : hval) :
  own (objects w) s "properties" <> s ->
  finish found w = (Ok s, w1) ->
  finish (Ok s) w1 = (Ok s, w1).
Proof.
  intros Hne H. pose proof (finish_found _ _ _ _ H) as ->.
  pose proof (finish_again s w Hne) as Htwice. rewrite H in Htwice.
  apply Htwice. reflexivity.
Qed.

End SharedFacts.

(** On the example contract, where no object is shared, the store
    reading and the tree reading agree: on the registry, on the schema
    a resolution returns, on the contract it leaves, and on what the
    stages call. *)
Example shared_agrees_with_tree_on_demo :
  let req := Demo.post_item VNull in
  let w := Demo.start true false false in
  let sw := SharedTrees.demo_start true in
  let result := resolveRequestModelSchema Demo.lib req w in
  let shared := Shared.resolveRequestModelSchema Demo.lib req sw in
  SharedTrees.tree_of 12 (Shared.objects sw) (Shared.schema sw) = contract w
  /\ map Shared.path (Shared.pathObjects sw) = map path (w_pathObjects w)
  /\ (exists r s,
        fst result = Ok r /\ fst shared = Ok s
        /\ SharedTrees.tree_of 12 (Shared.objects (snd shared)) s = target r)
  /\ SharedTrees.tree_of 12 (Shared.objects (snd shared)) (Shared.schema sw)
     = contract (snd result)
  /\ (forall b,
        In b [VNull; VObj [("name", VNum 3)]; VObj [("name", VStr "x")];
              VObj [("name", VNull)]] ->
        Shared.trace (snd (Shared.validateRequest Demo.lib SharedTrees.demo_compile
                             (Demo.post_item b) sw))
        = trace (snd (validateRequest Demo.lib (Demo.post_item b) w)))
  /\ (forall val,
        In val [VNum 42; VStr "x"; VUndefined] ->
        Shared.trace (snd (Shared.conclude Demo.lib SharedTrees.demo_compile
                             Demo.get_item val None sw))
        = trace (snd (conclude Demo.lib Demo.get_item val None w))).
Proof.
  split; [vm_compute; reflexivity|]. split; [vm_compute; reflexivity|].
  split; [|split; [|split]].
  - eexists. eexists. split; [vm_compute; reflexivity|].
    split; vm_compute; reflexivity.
  - vm_compute. reflexivity.
  - intros b [<-|[<-|[<-|[<-|[]]]]]; vm_compute; reflexivity.
  - intros val [<-|[<-|[<-|[]]]]; vm_compute; reflexivity.
Qed.


(** * The claims *)

(** ** Request validation failure *)

(** C1.  A request whose body violates the resolved request schema, when
    no request callback is configured: the stage answers with status 400
    and the JSON body [{ message }] naming method and URL, and never
    calls the continuation. *)
Theorem validateRequest_rejects_with_400
        (lib : libraries) (req : request) (w w1 : world) (r : jsref)
        (validator : value -> option value) (errors : value) :
  resolveRequestModelSchema lib req w = (Ok r, w1) ->
  truthy (target r) = true ->
  ajv_compile lib (target r) = Some validator ->
  validator (body req) = Some errors ->
  requestValidationFn (w_options w) = false ->
  let message :=
    "Response schema validation failed for " ++ method req ++ originalUrl req in
  validateRequest lib req w =
    (Ok tt,
     with_trace w1
       (trace w ++ [ResStatus 400; ResJson (VObj [("message", VStr message)])]))
  /\ count_next (trace (snd (validateRequest lib req w))) = count_next (trace w).
Proof.
  intros Hres Ht Hc Hv Hfn message.
  destruct (resolved_request_world _ _ _ _ _ Hres) as (Hsame & Htr & _).
  destruct (same_but_contract_flags _ _ Hsame) as (Hfn1 & _).
  assert (Heq : validateRequest lib req w =
                (Ok tt,
                 with_trace w1
                   (trace w ++ [ResStatus 400;
                                ResJson (VObj [("message", VStr message)])]))).
  { rewrite validateRequest_cases, Hres. unfold request_verdict.
    rewrite Ht, Hc, Hv, Hfn1, Hfn, Htr. reflexivity. }
  split; [exact Heq|]. rewrite Heq. simpl. rewrite count_next_app. simpl. lia.
Qed.

(** An instance on the example contract. *)
Lemma validateRequest_rejects_with_400_witness :
  let req := Demo.post_item (VObj [("name", VNum 3)]) in
  let w := Demo.start true false false in
  fst (validateRequest Demo.lib req w) = Ok tt
  /\ trace (snd (validateRequest Demo.lib req w)) =
       [ResStatus 400;
        ResJson (VObj [("message",
                        VStr "Response schema validation failed for POST/items/7")])].
Proof.
  intros req w.
  destruct (validateRequest_rejects_with_400
              Demo.lib req w
              (snd (resolveRequestModelSchema Demo.lib req w))
              (match fst (resolveRequestModelSchema Demo.lib req w) with
               | Ok r => r
               | Throw _ => fresh VNull
               end)
              (fun instance =>
                 if Reference.accepts Demo.name_schema_decorated instance
                 then None
                 else Some (VArr [VObj [("message", VStr "invalid")]]))
              (VArr [VObj [("message", VStr "invalid")]])
              eq_refl eq_refl eq_refl eq_refl eq_refl) as [H _].
  rewrite H. split; reflexivity.
Defined.

(** ** Response validation failure *)

(** C2.  A response whose decoded body violates the resolved response
    schema.  Without a response callback the captured payload is not
    sent: the error continuation is called with [{ message }] naming
    method and URL.  With a callback, the callback gets the request, the
    parsed value and the errors, and the payload is then sent. *)
Theorem end_hook_reports_invalid_response
        (lib : libraries) (req : request) (data : jsdata)
        (encoding : option string) (w w0 w1 : world) (val : value) (r : jsref)
        (validator : value -> option value) (errors : value) :
  reassemble lib data encoding w = (Ok val, w0) ->
  resolveResponseModelSchema lib req w0 = (Ok r, w1) ->
  truthy (target r) = true ->
  ajv_compile lib (target r) = Some validator ->
  validator val = Some errors ->
  let message :=
    "Response schema validation failed for " ++ method req ++ originalUrl req in
  (responseValidationFn (w_options w) = false ->
   end_hook lib req data encoding w =
     (Ok tt,
      with_trace w1
        (trace w ++ [Next (Some (VObj [("message", VStr message)]))]))
   /\ count_end (trace (snd (end_hook lib req data encoding w)))
      = count_end (trace w))
  /\ (responseValidationFn (w_options w) = true ->
      end_hook lib req data encoding w =
        (Ok tt,
         with_trace w1
           (trace w ++ [ResponseValidationFn req val errors;
                        OrigEnd (payload lib val) encoding]))).
Proof.
  intros Hre Hres Ht Hc Hv message.
  destruct (reassembled_world _ _ _ _ _ _ Hre) as (Hopt & _ & _ & Htr0).
  destruct (resolved_response_world _ _ _ _ _ Hres) as (Hsame & Htr & _).
  destruct (same_but_contract_flags _ _ Hsame) as (_ & Hfn1 & _).
  rewrite Hopt in Hfn1. rewrite Htr0 in Htr.
  rewrite (end_hook_reassembled _ _ _ _ _ _ _ Hre), conclude_cases, Hres.
  unfold response_verdict. rewrite Ht, Hc, Hv, Hfn1, Htr. simpl negb. cbv iota.
  split; intros Hfn; rewrite Hfn.
  - split; [reflexivity|]. simpl. rewrite count_end_app. simpl. lia.
  - reflexivity.
Qed.

(** An instance on the example contract. *)
Lemma end_hook_reports_invalid_response_witness :
  let w := snd (validateResponse Demo.get_item (Demo.start true false false)) in
  let w' := snd (validateResponse Demo.get_item (Demo.start true false true)) in
  let data := JVal (VStr "true") in
  (fst (end_hook Demo.lib Demo.get_item data None w) = Ok tt
   /\ trace (snd (end_hook Demo.lib Demo.get_item data None w)) =
        [Next None;
         Next (Some (VObj [("message",
                            VStr "Response schema validation failed for GET/items/7?verbose=1")]))])
  /\ (fst (end_hook Demo.lib Demo.get_item data None w') = Ok tt
      /\ trace (snd (end_hook Demo.lib Demo.get_item data None w')) =
           [Next None;
            ResponseValidationFn Demo.get_item (VBool true)
              (VArr [VObj [("message", VStr "invalid")]]);
            OrigEnd (JVal (VStr "true")) None]).
Proof.
  intros w w' data. split.
  - destruct (end_hook_reports_invalid_response
                Demo.lib Demo.get_item data None w
                (snd (reassemble Demo.lib data None w))
                (snd (resolveResponseModelSchema Demo.lib Demo.get_item
                        (snd (reassemble Demo.lib data None w))))
                (VBool true)
                {| target := Demo.number_schema;
                   origin := Some ["paths"; "/items/{id}"; "get"; "responses";
                                   "200"; "schema"] |}
                (fun instance =>
                   if Reference.accepts Demo.number_schema instance then None
                   else Some (VArr [VObj [("message", VStr "invalid")]]))
                (VArr [VObj [("message", VStr "invalid")]])
                eq_refl eq_refl eq_refl eq_refl eq_refl) as [H _].
    destruct (H eq_refl) as [-> _]. split; reflexivity.
  - destruct (end_hook_reports_invalid_response
                Demo.lib Demo.get_item data None w'
                (snd (reassemble Demo.lib data None w'))
                (snd (resolveResponseModelSchema Demo.lib Demo.get_item
                        (snd (reassemble Demo.lib data None w'))))
                (VBool true)
                {| target := Demo.number_schema;
                   origin := Some ["paths"; "/items/{id}"; "get"; "responses";
                                   "200"; "schema"] |}
                (fun instance =>
                   if Reference.accepts Demo.number_schema instance then None
                   else Some (VArr [VObj [("message", VStr "invalid")]]))
                (VArr [VObj [("message", VStr "invalid")]])
                eq_refl eq_refl eq_refl eq_refl eq_refl) as [_ H].
    rewrite (H eq_refl). split; reflexivity.
Defined.

(** ** Path resolution *)

(** C3.  Path resolution looks at the URL only through its path
    component and returns the definition of the first path object, in
    registration order, whose matcher accepts that path: an earlier match
    wins over any later one, and none is returned when no matcher
    accepts.  The registration order is the order of the paths in the
    contract.  With [url.parse] as Node documents it, the path component
    is the URL without its query string and fragment: the URL resolves
    like its bare path, and like that path followed by any query string
    or fragment. *)
Theorem matchUrlWithSchema_first_match
        (lib : libraries) (w : world) (reqUrl u : string) :
  parseUrl_pathname lib reqUrl = Some u ->
  matchUrlWithSchema lib reqUrl w =
    (Ok (match find (fun obj => regexp obj u) (w_pathObjects w) with
         | Some obj => definition w obj
         | None => fresh VNull
         end), w)
  /\ (forall before obj after,
        w_pathObjects w = (before ++ obj :: after)%list ->
        forallb (fun o => negb (regexp o u)) before = true ->
        regexp obj u = true ->
        matchUrlWithSchema lib reqUrl w = (Ok (definition w obj), w))
  /\ (forallb (fun o => negb (regexp o u)) (w_pathObjects w) = true ->
      matchUrlWithSchema lib reqUrl w = (Ok (fresh VNull), w))
  /\ (forall reqUrl',
        parseUrl_pathname lib reqUrl' = Some u ->
        matchUrlWithSchema lib reqUrl' w = matchUrlWithSchema lib reqUrl w)
  /\ (forall opts sc w0,
        init lib opts sc = Ok w0 ->
        isArrayLike (own (i_schema opts) "paths") = false ->
        map path (w_pathObjects w0) = Object_keys (own (i_schema opts) "paths"))
  /\ (parseUrl_pathname lib reqUrl = pathname reqUrl ->
      u = path_component reqUrl
      /\ (parseUrl_pathname lib u = pathname u ->
          matchUrlWithSchema lib u w = matchUrlWithSchema lib reqUrl w)
      /\ (forall c rest,
            (c = "?" \/ c = "#")%char ->
            parseUrl_pathname lib (u ++ String c rest)
            = pathname (u ++ String c rest) ->
            matchUrlWithSchema lib (u ++ String c rest) w
            = matchUrlWithSchema lib reqUrl w)).
Proof.
  intros Hu. pose proof (matchUrlWithSchema_find lib w reqUrl u Hu) as H.
  split; [exact H|]. split; [|split; [|split; [|split]]].
  - intros before obj after Hreg Hb Hobj. rewrite H, Hreg.
    rewrite (find_app_first _ _ _ _ Hb Hobj). reflexivity.
  - intros Hnone. rewrite H, (find_none_forallb _ _ Hnone). reflexivity.
  - intros reqUrl' Hu'. rewrite H. apply matchUrlWithSchema_find. exact Hu'.
  - intros opts sc w0 Hinit Hal. apply (init_pathObjects _ _ _ _ Hinit Hal).
  - intros Hdoc. rewrite Hu in Hdoc. symmetry in Hdoc.
    destruct (pathname_path_component _ _ Hdoc) as [Hpc Hbare].
    assert (Hbare_name : pathname u = Some u).
    { unfold pathname. rewrite Hbare. rewrite Hpc in *.
      unfold pathname in Hdoc.
      destruct (path_component reqUrl); [discriminate|reflexivity]. }
    split; [exact Hpc|]. split.
    + intros Hdoc_u. rewrite H. apply matchUrlWithSchema_find.
      rewrite Hdoc_u. exact Hbare_name.
    + intros c rest Hc Hdoc_q. rewrite H. apply matchUrlWithSchema_find.
      rewrite Hdoc_q, (pathname_strips _ _ _ Hbare Hc). exact Hbare_name.
Qed.

(** An instance on the example contracts: [/items/special] is also
    matched by the template registered before it; [/search] is matched
    only once query string and fragment are set aside. *)
Lemma matchUrlWithSchema_first_match_witness :
  (let w := Demo.start true false false in
   map path (w_pathObjects w) = ["/items/{id}"; "/items/special"]
   /\ forallb (fun obj => regexp obj "/items/special") (w_pathObjects w) = true
   /\ matchUrlWithSchema Demo.lib "/items/special?x=1#top" w
      = (Ok (at_loc (contract w) ["paths"; "/items/{id}"]), w)
   /\ matchUrlWithSchema Demo.lib "/other" w = (Ok (fresh VNull), w))
  /\ (let w := Examples.search_start in
      w_pathObjects w = [Demo.entry "/search"]
      /\ regexp (Demo.entry "/search") "/search?q=1#top" = false
      /\ regexp (Demo.entry "/search") "/search" = true
      /\ matchUrlWithSchema Demo.lib "/search?q=1#top" w
         = (Ok (at_loc (contract w) ["paths"; "/search"]), w)
      /\ matchUrlWithSchema Demo.lib "/search#top" w
         = matchUrlWithSchema Demo.lib "/search?q=1#top" w
      /\ matchUrlWithSchema Demo.lib "/search" w
         = matchUrlWithSchema Demo.lib "/search?q=1#top" w).
Proof.
  split.
  - intros w. split; [reflexivity|]. split; [reflexivity|]. split.
    + destruct (matchUrlWithSchema_first_match
                  Demo.lib w "/items/special?x=1#top" "/items/special" eq_refl)
        as (_ & H & _).
      apply (H [] (Demo.entry "/items/{id}") [Demo.entry "/items/special"]);
        reflexivity.
    + destruct (matchUrlWithSchema_first_match Demo.lib w "/other" "/other"
                  eq_refl) as (_ & _ & H & _).
      apply H. reflexivity.
  - intros w.
    destruct (matchUrlWithSchema_first_match
                Demo.lib w "/search?q=1#top" "/search" eq_refl)
      as (_ & Hfirst & _ & _ & _ & Hstrip).
    destruct (Hstrip eq_refl) as (_ & Hbare & Hsuffix).
    split; [reflexivity|]. split; [reflexivity|]. split; [reflexivity|].
    split; [|split].
    + apply (Hfirst [] (Demo.entry "/search") []); reflexivity.
    + apply (Hsuffix "#"%char "top"); [right; reflexivity|reflexivity].
    + apply Hbare. reflexivity.
Defined.

(** ** Request schema resolution *)

(** C4.  [resolveRequestModelSchema] returns none when no path entry
    matches, when the matched entry has nothing for the request's
    method, and when that method declares no parameter, whatever the
    other methods of the path declare.  When the method declares at least
    one parameter it returns the schema of the first one: the very
    object the contract holds there, which with [allowNullable] has been
    decorated in place. *)
Theorem resolveRequestModelSchema_first_parameter
        (lib : libraries) (req : request) (w : world) (u : string) :
  parseUrl_pathname lib (originalUrl req) = Some u ->
  let doc := contract w in
  let resolved := resolveRequestModelSchema lib req w in
  (find (fun obj => regexp obj u) (w_pathObjects w) = None ->
   resolved = (Ok (fresh VNull), w))
  /\ forall obj,
       find (fun obj => regexp obj u) (w_pathObjects w) = Some obj ->
       let operation := lodash_get doc (operation_loc obj req) in
       let parameters := lodash_get doc (parameters_loc obj req) in
       let loc := request_schema_loc obj req in
       (truthy operation = false -> resolved = (Ok (fresh VNull), w))
       /\ (truthy parameters = false \/ parameters = VArr [] ->
           resolved = (Ok (fresh VNull), w))
       /\ (forall first others,
             parameters = VArr (first :: others) ->
             unreadable first = false ->
             lodash_get doc loc = own first "schema"
             /\ (allowNullable (w_options w) = false ->
                 resolved = (Ok (at_loc doc loc), w))
             /\ (allowNullable (w_options w) = true ->
                 forall s',
                   decorate (own first "schema") = (s', None) ->
                   resolved =
                     (Ok {| target := s'; origin := Some loc |},
                      rewrite_world w (set_at loc s' doc))
                   /\ lodash_get (set_at loc s' doc) loc = s')).
Proof.
  intros Hu doc resolved. subst resolved doc.
  rewrite resolveRequestModelSchema_ref. unfold request_schema_ref, matched.
  rewrite Hu. split.
  - intros ->. apply finish_null.
  - intros obj ->. cbv zeta.
    set (operation := lodash_get (contract w) (operation_loc obj req)).
    set (parameters := lodash_get (contract w) (parameters_loc obj req)).
    split; [|split].
    + intros Hop. rewrite Hop, andb_false_r. apply finish_null.
    + intros [Hp|Hp].
      * rewrite Hp, andb_false_r. apply finish_null.
      * assert (Hlen : lodash_get (contract w) (parameters_loc obj req ++ ["length"])
                       = VNum 0).
        { rewrite lodash_get_snoc; fold parameters; rewrite Hp; reflexivity. }
        rewrite Hlen. simpl js_gt0. rewrite andb_false_r. apply finish_null.
    + intros first others Hp Hfirst.
      assert (Hc3 : is_container parameters = true) by (rewrite Hp; reflexivity).
      assert (Hc2 : is_container operation = true).
      { apply (lodash_get_container _ ["parameters"]).
        unfold operation. rewrite <- lodash_get_app. exact Hc3. }
      assert (Hc1 : is_container (lodash_get (contract w) ["paths"; path obj]) = true).
      { apply (lodash_get_container _ [toLowerCase (method req)]).
        rewrite <- lodash_get_app. exact Hc2. }
      assert (Hlen : js_gt0 lib (lodash_get (contract w) (parameters_loc obj req ++ ["length"]))
                     = true).
      { rewrite lodash_get_snoc by (apply container_readable; exact Hc3).
        fold parameters. rewrite Hp, own_array_length. simpl js_gt0.
        apply Z.ltb_lt. simpl List.length. lia. }
      assert (Hzero : lodash_get (contract w) (parameters_loc obj req ++ ["0"]) = first).
      { rewrite lodash_get_snoc by (apply container_readable; exact Hc3).
        fold parameters. rewrite Hp. reflexivity. }
      assert (Hloc : lodash_get (contract w) (request_schema_loc obj req)
                     = own first "schema").
      { unfold request_schema_loc.
        change ["0"; "schema"] with (["0"] ++ ["schema"])%list.
        rewrite app_assoc, lodash_get_snoc; rewrite Hzero; [reflexivity|].
        exact Hfirst. }
      rewrite (container_truthy _ Hc1), (container_truthy _ Hc2),
        (container_truthy _ Hc3), Hlen, Hzero, Hfirst. simpl andb. cbv iota.
      split; [exact Hloc|]. split.
      * intros ->. reflexivity.
      * intros -> s' Hd. rewrite <- Hloc in Hd.
        rewrite decorateWithNullable_at_loc, Hd.
        split; [reflexivity|].
        apply lodash_get_set_at_decorated. exact Hd.
Qed.

(** An instance on the example contract. *)
Lemma resolveRequestModelSchema_first_parameter_witness :
  let w := Demo.start true false false in
  fst (resolveRequestModelSchema Demo.lib (Demo.post_item VNull) w)
  = Ok {| target := Demo.name_schema_decorated;
          origin := Some ["paths"; "/items/{id}"; "post"; "parameters"; "0";
                          "schema"] |}
  /\ lodash_get
       (contract (snd (resolveRequestModelSchema Demo.lib (Demo.post_item VNull) w)))
       ["paths"; "/items/{id}"; "post"; "parameters"; "0"; "schema"]
     = Demo.name_schema_decorated
  /\ resolveRequestModelSchema Demo.lib Demo.get_item w = (Ok (fresh VNull), w)
  /\ resolveRequestModelSchema Demo.lib Demo.put_item w = (Ok (fresh VNull), w).
Proof.
  intros w.
  set (obj := Demo.entry "/items/{id}").
  split; [|split; [|split]].
  - destruct (resolveRequestModelSchema_first_parameter
                Demo.lib (Demo.post_item VNull) w "/items/7" eq_refl)
      as [_ H].
    destruct (H obj eq_refl) as (_ & _ & Hfirst).
    destruct (Hfirst (VObj [("in", VStr "body"); ("schema", Demo.name_schema)])
                     [] eq_refl eq_refl) as (_ & _ & Hdec).
    destruct (Hdec eq_refl Demo.name_schema_decorated eq_refl) as [-> _].
    reflexivity.
  - destruct (resolveRequestModelSchema_first_parameter
                Demo.lib (Demo.post_item VNull) w "/items/7" eq_refl)
      as [_ H].
    destruct (H obj eq_refl) as (_ & _ & Hfirst).
    destruct (Hfirst (VObj [("in", VStr "body"); ("schema", Demo.name_schema)])
                     [] eq_refl eq_refl) as (_ & _ & Hdec).
    destruct (Hdec eq_refl Demo.name_schema_decorated eq_refl) as [-> Hheld].
    exact Hheld.
  - destruct (resolveRequestModelSchema_first_parameter
                Demo.lib Demo.get_item w "/items/7" eq_refl) as [_ H].
    destruct (H obj eq_refl) as (_ & Hzero & _).
    apply Hzero. left. reflexivity.
  - destruct (resolveRequestModelSchema_first_parameter
                Demo.lib Demo.put_item w "/items/7" eq_refl) as [_ H].
    destruct (H obj eq_refl) as (Hnone & _).
    apply Hnone. reflexivity.
Defined.

(** ** Capture and restoration *)




(** ** Decode failure *)

(** C6 (amended).  When what the hook has received is a text (decoded
    from the captured Buffers, or passed as a string) that is not valid
    JSON, finalization raises the decode error, marked
    [failedValidation], before any schema is looked for, hence also when
    a schema applies to the status code.  A body that parses and violates
    its schema raises nothing: the hook returns normally.  When nothing
    was written and nothing passed there is no text: nothing is parsed,
    no decode error is raised, and the schema, if any, is checked
    against [undefined]. *)
Theorem end_hook_decode_error
        (lib : libraries) (req : request) (data : jsdata)
        (encoding : option string) (w : world) :
  (forall s w0,
     received lib data encoding w = (Ok (VStr s), w0) ->
     JSON_parse lib s = None ->
     end_hook lib req data encoding w =
       (Throw (DecodeError true
                 "Value expected to be an array/object but is not"), w0))
  /\ (forall val w0 r w1 validator errors,
        reassemble lib data encoding w = (Ok val, w0) ->
        resolveResponseModelSchema lib req w0 = (Ok r, w1) ->
        truthy (target r) = true ->
        ajv_compile lib (target r) = Some validator ->
        validator val = Some errors ->
        fst (end_hook lib req data encoding w) = Ok tt)
  /\ (forall bs,
        writtenData w = map JBuffer bs ->
        (forall b shown text,
           data = JBuffer b ->
           Buffer_toString lib encoding b = Some shown ->
           Buffer_toString lib encoding (List.concat bs ++ b)%list = Some text ->
           JSON_parse lib text = None ->
           fst (end_hook lib req data encoding w)
           = Throw (DecodeError true
                      "Value expected to be an array/object but is not"))
        /\ (forall s text,
              data = JStringObj s ->
              Buffer_toString lib encoding (List.concat bs ++ Buffer_from lib s)%list
              = Some text ->
              JSON_parse lib text = None ->
              fst (end_hook lib req data encoding w)
              = Throw (DecodeError true
                         "Value expected to be an array/object but is not"))
        /\ (forall text,
              truthy_data data = false -> bs <> [] ->
              Buffer_toString lib encoding (List.concat bs) = Some text ->
              JSON_parse lib text = None ->
              fst (end_hook lib req data encoding w)
              = Throw (DecodeError true
                         "Value expected to be an array/object but is not")))
  /\ (forall s,
        data = JVal (VStr s) -> s <> "" -> writtenData w = [] ->
        JSON_parse lib s = None ->
        fst (end_hook lib req data encoding w)
        = Throw (DecodeError true
                   "Value expected to be an array/object but is not"))
  /\ (forall v,
        data = JVal v -> truthy v = false -> writtenData w = [] ->
        reassemble lib data encoding w = (Ok VUndefined, with_hooked w false)
        /\ end_hook lib req data encoding w
           = conclude lib req VUndefined encoding (with_hooked w false)).
Proof.
  assert (Hdecode : forall s,
             fst (received lib data encoding w) = Ok (VStr s) ->
             JSON_parse lib s = None ->
             fst (end_hook lib req data encoding w)
             = Throw (DecodeError true decode_message)).
  { intros s Hr Hp. rewrite end_hook_cases.
    destruct (received lib data encoding w) as [o w0]. simpl in Hr. subst o.
    rewrite Hp. reflexivity. }
  split; [|split; [|split; [|split]]].
  - intros s w0 Hrec Hparse. rewrite end_hook_cases, Hrec, Hparse. reflexivity.
  - intros val w0 r w1 validator errors Hre Hres Ht Hc Hv.
    rewrite (end_hook_reassembled _ _ _ _ _ _ _ Hre), conclude_cases, Hres.
    unfold response_verdict. rewrite Ht, Hc, Hv. simpl.
    destruct (responseValidationFn (w_options w1)); reflexivity.
  - intros bs Hw. destruct (received_buffers lib data encoding w bs Hw)
      as (Hb & Hs & Hn).
    split; [|split].
    + intros b shown text Hd Hshown Ht Hp.
      apply (Hdecode text); [|exact Hp]. apply (Hb b shown text); assumption.
    + intros s text Hd Ht Hp.
      apply (Hdecode text); [|exact Hp]. apply (Hs s text); assumption.
    + intros text Hf Hne Ht Hp.
      apply (Hdecode text); [|exact Hp]. apply (Hn text); assumption.
  - intros s -> Hne _ Hp. apply (Hdecode s); [|exact Hp].
    rewrite received_plain; [reflexivity|].
    simpl. destruct s; [congruence|reflexivity].
  - intros v -> Hv Hw.
    pose proof (reassemble_nothing lib v encoding w Hv Hw) as Hr.
    split; [exact Hr|]. apply end_hook_reassembled. exact Hr.
Qed.

(** An instance on the example contract. *)
Lemma end_hook_decode_error_witness :
  let w := snd (validateResponse Demo.get_item (Demo.start true false false)) in
  fst (end_hook Demo.lib Demo.get_item (JVal (VStr "oops")) None w)
  = Throw (DecodeError true "Value expected to be an array/object but is not")
  /\ fst (end_hook Demo.lib Demo.get_item (JVal (VStr "true")) None w) = Ok tt
  /\ fst (end_hook Demo.lib Demo.get_item (JBuffer (list_byte_of_string "ps")) None
            (with_writtenData w [JBuffer (list_byte_of_string "oo")]))
     = Throw (DecodeError true "Value expected to be an array/object but is not").
Proof.
  intros w. split; [|split].
  - destruct (end_hook_decode_error Demo.lib Demo.get_item
                (JVal (VStr "oops")) None w) as [H _].
    rewrite (H "oops" (with_hooked w false) eq_refl eq_refl). reflexivity.
  - destruct (end_hook_decode_error Demo.lib Demo.get_item
                (JVal (VStr "true")) None w) as (_ & H & _).
    apply (H (VBool true) (with_hooked w false)
             {| target := Demo.number_schema;
                origin := Some ["paths"; "/items/{id}"; "get"; "responses";
                                "200"; "schema"] |}
             (with_hooked w false)
             (fun instance =>
                if Reference.accepts Demo.number_schema instance then None
                else Some (VArr [VObj [("message", VStr "invalid")]]))
             (VArr [VObj [("message", VStr "invalid")]]));
      reflexivity.
  - destruct (end_hook_decode_error Demo.lib Demo.get_item
                (JBuffer (list_byte_of_string "ps")) None
                (with_writtenData w [JBuffer (list_byte_of_string "oo")]))
      as (_ & _ & H & _).
    destruct (H [list_byte_of_string "oo"] eq_refl) as (Hb & _).
    apply (Hb (list_byte_of_string "ps") "ps" "oops"); reflexivity.
Defined.

(** C6 as stated fails.  A response with no body at all, for a status
    code a schema applies to: the empty text is not valid JSON, and yet
    nothing is parsed and no decode error is raised; the schema is
    checked against [undefined], and the hook ends in the
    schema-validation fault. *)
Lemma end_hook_empty_body_is_not_decoded :
  let w := snd (validateResponse Demo.get_item (Demo.start true false false)) in
  writtenData w = []
  /\ JSON_parse Demo.lib "" = None
  /\ fst (resolveResponseModelSchema Demo.lib Demo.get_item (with_hooked w false))
     = Ok (at_loc (contract w)
             ["paths"; "/items/{id}"; "get"; "responses"; "200"; "schema"])
  /\ end_hook Demo.lib Demo.get_item (JVal VUndefined) None w
     = (Ok tt,
        with_trace (with_hooked w false)
          [Next None; Next (Some (failure_object Demo.get_item))]).
Proof. repeat split. Qed.

(** ** Nullable decoration *)

Section NullableSemantics.

(** The validation engine: [accepts schema instance] when the compiled
    schema validates the instance.  It reads [oneOf] as "exactly one
    alternative" and [{ type: 'null' }] as "the value null". *)
Variable accepts : value -> value -> bool.

Hypothesis accepts_oneOf : forall a b instance,
  accepts (VObj [("oneOf", VArr [a; b])]) instance
  = xorb (accepts a instance) (accepts b instance).

Hypothesis accepts_null_type : forall instance,
  accepts null_type instance = is_null instance.

Lemma nullable_wrap_accepts (p instance : value) :
  accepts (nullable_wrap p) instance
  = xorb (accepts p instance) (is_null instance).
Proof.
  unfold nullable_wrap. rewrite accepts_oneOf, accepts_null_type.
  reflexivity.
Qed.

(** C7 (amended).  [decorateWithNullable] is idempotent: applied to its
    own result it returns that result unchanged, which therefore accepts
    exactly the same values.  For a top-level property marked nullable,
    the result holds the choice [oneOf] between the property's former
    schema and the null type: it accepts a value when exactly one of
    the two does.  So, when the former schema does not itself accept
    null, the result accepts null and every value the former schema
    accepts. *)
Theorem decorateWithNullable_idempotent_and_nullable
        (schema schema' : value) :
  decorate schema = (schema', None) ->
  (decorate schema' = (schema', None)
   /\ forall instance,
        accepts (fst (decorate schema')) instance = accepts schema' instance)
  /\ forall prop,
       let p := own (own schema "properties") prop in
       nullable p = true ->
       own (own schema' "properties") prop = nullable_wrap p
       /\ (forall instance,
             accepts (nullable_wrap p) instance
             = xorb (accepts p instance) (is_null instance))
       /\ (accepts p VNull = false ->
           accepts (nullable_wrap p) VNull = true
           /\ forall instance,
                accepts p instance = true ->
                accepts (nullable_wrap p) instance = true).
Proof.
  intros Hd. pose proof (decorate_twice _ _ Hd) as H2. split.
  - split; [exact H2|]. intros instance. rewrite H2. reflexivity.
  - intros prop p Hn. split; [|split].
    + apply decorate_nullable_property; assumption.
    + intros instance. apply nullable_wrap_accepts.
    + intros Hnull. split.
      * rewrite nullable_wrap_accepts, Hnull. reflexivity.
      * intros instance Hacc. rewrite nullable_wrap_accepts, Hacc.
        destruct instance; try reflexivity. congruence.
Qed.

End NullableSemantics.

(** An instance: a nullable string property, under the reference reading. *)
Lemma decorateWithNullable_idempotent_and_nullable_witness :
  decorate nullable_string_schema = (nullable_string_decorated, None)
  /\ decorate nullable_string_decorated = (nullable_string_decorated, None)
  /\ nullable (own (own nullable_string_schema "properties") "x") = true
  /\ Reference.accepts (own (own nullable_string_decorated "properties") "x")
       VNull = true
  /\ Reference.accepts (own (own nullable_string_decorated "properties") "x")
       (VStr "a") = true.
Proof.
  destruct (decorateWithNullable_idempotent_and_nullable
              Reference.accepts reference_accepts_oneOf
              reference_accepts_null_type
              nullable_string_schema nullable_string_decorated eq_refl)
    as [[Htwice _] Hprop].
  destruct (Hprop "x" eq_refl) as (Hwrap & _ & Hnull).
  destruct (Hnull eq_refl) as [Hacc_null Hacc].
  split; [reflexivity|]. split; [exact Htwice|]. split; [reflexivity|].
  rewrite Hwrap. split; [exact Hacc_null|]. apply Hacc. reflexivity.
Defined.

(** C7 as stated fails: the property is marked nullable, its former
    schema accepts null, and the decorated schema rejects an explicit
    null (both alternatives of [oneOf] accept it), for the property and
    for an object carrying it. *)
Lemma decorateWithNullable_untyped_nullable_rejects_null :
  nullable (own (own nullable_untyped_schema "properties") "x") = true
  /\ Reference.accepts nullable_untyped_schema (VObj [("x", VNull)]) = true
  /\ exists schema',
       decorate nullable_untyped_schema = (schema', None)
       /\ Reference.accepts (own (own schema' "properties") "x") VNull = false
       /\ Reference.accepts schema' (VObj [("x", VNull)]) = false.
Proof.
  split; [reflexivity|]. split; [reflexivity|].
  eexists. split; [reflexivity|]. split; reflexivity.
Qed.

(** ** Response schema resolution *)

(** C8 fails on the code.  [PUT /items/7] matches a path entry that has
    no entry for [put]: the response resolver throws a [TypeError]
    instead of returning none, where the request resolver, which checks
    the method entry, returns none. *)
Theorem resolveResponseModelSchema_throws_without_method_entry :
  let w := Demo.start true false false in
  truthy (lodash_get (contract w) ["paths"; "/items/{id}"]) = true
  /\ lodash_get (contract w) ["paths"; "/items/{id}"; "put"] = VUndefined
  /\ resolveResponseModelSchema Demo.lib Demo.put_item w = (Throw TypeError, w)
  /\ resolveRequestModelSchema Demo.lib Demo.put_item w = (Ok (fresh VNull), w).
Proof. repeat split. Qed.

(** ** Frame of a resolution *)

(** C9.  The contract is a store of objects held by reference, so that
    a schema two operations share is one object.  Both resolvers are
    confined: registry, options and trace are as they were; with
    [allowNullable] off, or when the search for the schema throws,
    nothing changes; otherwise the result is the schema object found
    itself, no object of the store is changed but the [properties]
    object of that schema (objects are only added: the wrappers), and
    in that object each property that carried a truthy [x-nullable] now
    refers to a new [{ oneOf: [former, { type: 'null' }] }] while each
    other property is as it was.  The rewriting happens the first time
    the schema is resolved: later, a resolution that finds this schema,
    through whatever request, changes nothing, and the same request
    finds it again when the objects it goes through are other than the
    [properties] object.  The request stage and the validation of the
    response change the store only through their resolution and leave
    registry and options alone. *)
Theorem resolution_rewrites_only_nullable_properties
        (lib : libraries)
        (ajv_compile : Shared.heap -> Shared.hval -> option (value -> option value))
        (req : request) (w : Shared.world) :
  let h := Shared.objects w in
  SharedFrame.confined w (Shared.find_request_schema lib req w)
                       (Shared.resolveRequestModelSchema lib req w)
  /\ SharedFrame.confined w (Shared.find_response_schema lib req w)
                          (Shared.resolveResponseModelSchema lib req w)
  /\ (forall s w1,
        Shared.own h s "properties" <> s ->
        Shared.resolveRequestModelSchema lib req w = (Ok s, w1)
        \/ Shared.resolveResponseModelSchema lib req w = (Ok s, w1) ->
        forall req',
          (Shared.find_request_schema lib req' w1 = Ok s ->
           Shared.resolveRequestModelSchema lib req' w1 = (Ok s, w1))
          /\ (Shared.find_response_schema lib req' w1 = Ok s ->
              Shared.resolveResponseModelSchema lib req' w1 = (Ok s, w1)))
  /\ (forall s w1 pathObj,
        Shared.own h s "properties" <> s ->
        Shared.matchUrlWithSchema lib (originalUrl req) w = Ok pathObj ->
        (Shared.resolveRequestModelSchema lib req w = (Ok s, w1) ->
         forallb (SharedNotions.apart h (Shared.own h s "properties"))
                 (SharedNotions.chain h pathObj
                    [toLowerCase (method req); "parameters"; "0"]) = true ->
         (forall a,
            Shared.own h
              (Shared.own h (Shared.own h pathObj (toLowerCase (method req)))
                 "parameters") "length" <> Shared.HRef a) ->
         Shared.resolveRequestModelSchema lib req w1 = (Ok s, w1))
        /\ (Shared.resolveResponseModelSchema lib req w = (Ok s, w1) ->
            forallb (SharedNotions.apart h (Shared.own h s "properties"))
                    (SharedNotions.chain h pathObj
                       [toLowerCase (method req); "responses";
                        status_key (status_or_200 (Shared.statusCode w))])
            = true ->
            Shared.resolveResponseModelSchema lib req w1 = (Ok s, w1)))
  /\ (let wv := snd (Shared.validateRequest lib ajv_compile req w) in
      Shared.objects wv
      = Shared.objects (snd (Shared.resolveRequestModelSchema lib req w))
      /\ Shared.pathObjects wv = Shared.pathObjects w
      /\ Shared.schema wv = Shared.schema w
      /\ Shared.allowNullable wv = Shared.allowNullable w)
  /\ (forall val encoding,
        let wv := snd (Shared.conclude lib ajv_compile req val encoding w) in
        Shared.objects wv
        = Shared.objects (snd (Shared.resolveResponseModelSchema lib req w))
        /\ Shared.pathObjects wv = Shared.pathObjects w
        /\ Shared.schema wv = Shared.schema w
        /\ Shared.allowNullable wv = Shared.allowNullable w).
Proof.
  cbv zeta. split; [|split; [|split; [|split; [|split]]]].
  - apply SharedFacts.finish_confined.
  - apply SharedFacts.finish_confined.
  - intros s w1 Hne Hres req'.
    assert (Hsettled : Shared.finish (Ok s) w1 = (Ok s, w1)).
    { destruct Hres as [H|H];
        apply (SharedFacts.finish_settled _ _ _ _ Hne H). }
    unfold Shared.resolveRequestModelSchema, Shared.resolveResponseModelSchema.
    split; intros ->; exact Hsettled.
  - intros s w1 pathObj Hne Hm. split.
    + intros Hres Hroute Hlen.
      pose proof (SharedFacts.finish_settled _ _ _ _ Hne Hres) as Hsettled.
      pose proof (SharedFacts.finish_found _ _ _ _ Hres) as Hfound.
      unfold Shared.resolveRequestModelSchema in *.
      assert (Hw1 : w1 = Shared.with_objects w (Shared.objects w1)).
      { pose proof (SharedFacts.finish_world
                      (Shared.find_request_schema lib req w) w) as Hw.
        rewrite Hres in Hw. exact Hw. }
      assert (Hkept : SharedNotions.kept_but
                        (Shared.own (Shared.objects w) s "properties")
                        (Shared.objects w) (Shared.objects w1)).
      { pose proof (SharedFacts.finish_kept s w) as Hk.
        rewrite <- Hfound, Hres in Hk. exact Hk. }
      rewrite Hw1 at 1.
      rewrite (SharedFacts.find_request_schema_kept
                 lib req w _ _ pathObj Hkept Hm Hroute Hlen), Hfound.
      exact Hsettled.
    + intros Hres Hroute.
      pose proof (SharedFacts.finish_settled _ _ _ _ Hne Hres) as Hsettled.
      pose proof (SharedFacts.finish_found _ _ _ _ Hres) as Hfound.
      unfold Shared.resolveResponseModelSchema in *.
      assert (Hw1 : w1 = Shared.with_objects w (Shared.objects w1)).
      { pose proof (SharedFacts.finish_world
                      (Shared.find_response_schema lib req w) w) as Hw.
        rewrite Hres in Hw. exact Hw. }
      assert (Hkept : SharedNotions.kept_but
                        (Shared.own (Shared.objects w) s "properties")
                        (Shared.objects w) (Shared.objects w1)).
      { pose proof (SharedFacts.finish_kept s w) as Hk.
        rewrite <- Hfound, Hres in Hk. exact Hk. }
      rewrite Hw1 at 1.
      rewrite (SharedFacts.find_response_schema_kept
                 lib req w _ _ pathObj Hkept Hm Hroute), Hfound.
      exact Hsettled.
  - apply SharedFacts.validateRequest_confined.
  - intros val encoding. apply SharedFacts.conclude_confined.
Qed.

(** An instance on the contract with a shared schema.  Resolving the
    request schema of [POST /a] wraps the property [name] of the schema
    both operations share: the objects at the addresses other than 11
    are as they were, three objects are added, and what [POST /b] reads
    as its schema is the same, decorated, object; resolving for
    [POST /b] then changes nothing. *)
Lemma resolution_rewrites_only_nullable_properties_witness :
  let w := SharedExamples.start true in
  let h := Shared.objects w in
  let w1 := snd (Shared.resolveRequestModelSchema Demo.lib SharedExamples.post_a w) in
  let h1 := Shared.objects w1 in
  Shared.resolveRequestModelSchema Demo.lib SharedExamples.post_a w
  = (Ok (Shared.HRef 10), w1)
  /\ Shared.pathObjects w1 = Shared.pathObjects w
  /\ List.length h = 16 /\ List.length h1 = 19
  /\ (forall a, a < 16 -> a <> 11 -> nth_error h1 a = nth_error h a)
  /\ Shared.own h (Shared.HRef 11) "name" = Shared.HRef 12
  /\ Shared.own h1 (Shared.HRef 11) "name" = Shared.HRef 18
  /\ SharedNotions.wrapped_at h1 16 (Shared.HRef 12)
  /\ Shared.own h1 (Shared.HRef 11) "age" = Shared.HRef 14
  /\ Shared.lodash_get h1 (Shared.schema w1)
       ["paths"; "/b"; "post"; "parameters"; "0"; "schema"; "properties"; "name"]
     = Shared.HRef 18
  /\ Shared.resolveRequestModelSchema Demo.lib SharedExamples.post_b w1
     = (Ok (Shared.HRef 10), w1)
  /\ Shared.resolveResponseModelSchema Demo.lib SharedExamples.post_b w1
     = (Ok (Shared.HRef 10), w1)
  /\ Shared.resolveRequestModelSchema Demo.lib SharedExamples.post_a w1
     = (Ok (Shared.HRef 10), w1)
  /\ Shared.resolveRequestModelSchema Demo.lib SharedExamples.post_a
       (SharedExamples.start false)
     = (Ok (Shared.HRef 10), SharedExamples.start false).
Proof.
  intros w h w1 h1.
  destruct (resolution_rewrites_only_nullable_properties
              Demo.lib SharedExamples.accept_all SharedExamples.post_a w)
    as (Hq & _ & Hfirst & Hagain & _).
  destruct Hq as (Hregistry & _ & _ & Hfound).
  destruct (Hfound (Shared.HRef 10) eq_refl) as (_ & Hkept & Hdecorated).
  assert (Hne : Shared.own h (Shared.HRef 10) "properties" <> Shared.HRef 10)
    by discriminate.
  destruct (Hdecorated Hne) as (_ & Hdone).
  destruct (Hdone eq_refl eq_refl) as (_ & _ & Hprops & _).
  split; [reflexivity|]. split; [apply Hregistry|].
  split; [reflexivity|]. split; [reflexivity|]. split.
  { intros a Ha Hne11. destruct Hkept as [_ K]. apply K; [exact Ha|].
    simpl. apply Nat.eqb_neq. congruence. }
  split; [reflexivity|]. split; [reflexivity|]. split.
  { destruct (Hprops "name" (or_introl eq_refl)) as [Hw _].
    destruct (Hw eq_refl) as (n & _ & Hown & Hwrapped).
    change (Shared.own h1 (Shared.HRef 11) "name") with (Shared.HRef 18) in Hown.
    injection Hown as Hn. replace n with 16 in Hwrapped by lia. exact Hwrapped. }
  split.
  { destruct (Hprops "age" (or_intror (or_introl eq_refl))) as [_ Hs].
    apply Hs. reflexivity. }
  split; [reflexivity|].
  destruct (Hfirst (Shared.HRef 10) w1 Hne (or_introl eq_refl)
                   SharedExamples.post_b) as [Hb Hb'].
  split; [apply Hb; reflexivity|]. split; [apply Hb'; reflexivity|].
  split.
  { destruct (Hagain (Shared.HRef 10) w1 (Shared.HRef 2) Hne eq_refl) as [Ha _].
    apply Ha; [reflexivity|reflexivity|discriminate]. }
  destruct (resolution_rewrites_only_nullable_properties
              Demo.lib SharedExamples.accept_all SharedExamples.post_a
              (SharedExamples.start false)) as ((_ & Hoff & _) & _).
  apply (Hoff eq_refl).
Defined.

(** ** Both stages *)

(** C10.  With both stages enabled, the middleware runs the response
    stage after the request stage whatever the latter decided.  A request
    that passes request validation, or has no request schema, sees the
    continuation called twice; a request rejected with status 400 still
    gets the capture hooks installed and the continuation called. *)
Theorem validate_runs_both_stages
        (lib : libraries) (req : request) (w w1 : world) (r : jsref) :
  opt_validateRequest (w_options w) = true ->
  opt_validateResponse (w_options w) = true ->
  resolveRequestModelSchema lib req w = (Ok r, w1) ->
  let w2 := snd (validate lib req w) in
  ((truthy (target r) = false
    \/ exists validator,
         ajv_compile lib (target r) = Some validator
         /\ validator (body req) = None) ->
   fst (validate lib req w) = Ok tt
   /\ trace w2 = (trace w ++ [Next None; Next None])%list
   /\ count_next (trace w2) = count_next (trace w) + 2
   /\ hooked w2 = true)
  /\ (forall validator errors,
        truthy (target r) = true ->
        ajv_compile lib (target r) = Some validator ->
        validator (body req) = Some errors ->
        requestValidationFn (w_options w) = false ->
        fst (validate lib req w) = Ok tt
        /\ trace w2 =
             (trace w ++ [ResStatus 400; ResJson (failure_object req);
                          Next None])%list
        /\ count_next (trace w2) = count_next (trace w) + 1
        /\ hooked w2 = true).
Proof.
  intros Hq Hp Hres w2. subst w2.
  destruct (resolved_request_world _ _ _ _ _ Hres) as (Hsame & Htr & _).
  destruct (same_but_contract_flags _ _ Hsame) as (Hfn1 & _ & _ & Hp1 & _).
  rewrite (validate_cases _ _ _ Hq Hp), validateRequest_cases, Hres.
  unfold request_verdict. split.
  - intros Hpass.
    assert (Hv : (if negb (truthy (target r)) then emit (Next None) w1
                  else match ajv_compile lib (target r) with
                       | None => (Throw SchemaCompileError, w1)
                       | Some validator =>
                           match validator (body req) with
                           | Some errors =>
                               if requestValidationFn (w_options w1)
                               then (Ok tt,
                                     with_trace w1
                                       (trace w1 ++
                                        [RequestValidationFn req (body req) errors;
                                         Next None]))
                               else (Ok tt,
                                     with_trace w1
                                       (trace w1 ++
                                        [ResStatus 400;
                                         ResJson (failure_object req)]))
                           | None => emit (Next None) w1
                           end
                       end) = emit (Next None) w1).
    { destruct Hpass as [Hf|(validator & Hc & Hv)].
      - rewrite Hf. reflexivity.
      - destruct (negb (truthy (target r))); [reflexivity|].
        rewrite Hc, Hv. reflexivity. }
    rewrite Hv. unfold emit. simpl w_options. fold (w_options w1).
    change (opt_validateResponse
              (w_options (with_trace w1 (trace w1 ++ [Next None]))))
      with (opt_validateResponse (w_options w1)).
    rewrite Hp1, Hp, validateResponse_world. simpl. rewrite Htr, <- app_assoc.
    simpl. repeat split. rewrite count_next_app. simpl. lia.
  - intros validator errors Ht Hc Hv Hfn.
    rewrite Ht, Hc, Hv, Hfn1, Hfn. simpl negb. cbv iota.
    change (opt_validateResponse
              (w_options
                 (with_trace w1
                    (trace w1 ++ [ResStatus 400; ResJson (failure_object req)]))))
      with (opt_validateResponse (w_options w1)).
    rewrite Hp1, Hp, validateResponse_world. simpl. rewrite Htr, <- app_assoc.
    simpl. repeat split. rewrite count_next_app. simpl. lia.
Qed.

(** An instance on the example contract. *)
Lemma validate_runs_both_stages_witness :
  let w := Demo.start true false false in
  let passing := Demo.post_item (VObj [("name", VNull)]) in
  let rejected := Demo.post_item (VObj [("name", VNum 3)]) in
  (trace (snd (validate Demo.lib passing w)) = [Next None; Next None]
   /\ hooked (snd (validate Demo.lib passing w)) = true)
  /\ (trace (snd (validate Demo.lib rejected w)) =
        [ResStatus 400; ResJson (failure_object rejected); Next None]
      /\ hooked (snd (validate Demo.lib rejected w)) = true).
Proof.
  intros w passing rejected. split.
  - destruct (validate_runs_both_stages
                Demo.lib passing w
                (snd (resolveRequestModelSchema Demo.lib passing w))
                {| target := Demo.name_schema_decorated;
                   origin := Some ["paths"; "/items/{id}"; "post";
                                   "parameters"; "0"; "schema"] |}
                eq_refl eq_refl eq_refl) as [H _].
    destruct H as (_ & Htrace & _ & Hhooked).
    + right. eexists. split; reflexivity.
    + split; [exact Htrace|exact Hhooked].
  - destruct (validate_runs_both_stages
                Demo.lib rejected w
                (snd (resolveRequestModelSchema Demo.lib rejected w))
                {| target := Demo.name_schema_decorated;
                   origin := Some ["paths"; "/items/{id}"; "post";
                                   "parameters"; "0"; "schema"] |}
                eq_refl eq_refl eq_refl) as [_ H].
    destruct (H _ _ eq_refl eq_refl eq_refl eq_refl) as (_ & Htrace & _ & Hhooked).
    split; [exact Htrace|exact Hhooked].
Defined.

(** * Further properties *)

(** ** Exceptions of the resolvers *)

Lemma decorate_prop_throws (props : value) (k : string) (e : exn) :
  decorate_prop props k = Throw e -> e = TypeError.
Proof.
  unfold decorate_prop, get_prop.
  destruct props; try (intros H; injection H as <-; reflexivity);
    match goal with
    | |- context [own ?v k] => destruct (own v k)
    end;
    try (intros H; injection H as <-; reflexivity);
    match goal with
    | |- context [truthy ?f] => destruct (truthy f); discriminate
    end.
Qed.

Lemma forEach_prop_throws (keys : list string) (props : value) (e : exn) :
  snd (forEach_prop keys props) = Some e -> e = TypeError.
Proof.
  revert props. induction keys as [|k keys IH]; intros props; simpl.
  - discriminate.
  - destruct (decorate_prop props k) as [props1|e1] eqn:E.
    + apply IH.
    + simpl. intros H. injection H as <-. eapply decorate_prop_throws. exact E.
Qed.

Lemma decorate_throws (schema : value) (e : exn) :
  snd (decorate schema) = Some e -> e = TypeError.
Proof.
  destruct (decorate_cases schema) as [H|(fs & props & -> & _ & _ & Hd)].
  - rewrite H. discriminate.
  - rewrite Hd. simpl. apply forEach_prop_throws.
Qed.

Lemma finish_throws (w w1 : world) (r0 : jsref) (e : exn) :
  r0 = fresh VNull \/ (exists l, r0 = at_loc (contract w) l) ->
  (if allowNullable (w_options w) then decorateWithNullable r0 w
   else (Ok r0, w)) = (Throw e, w1) ->
  e = TypeError.
Proof.
  intros [->|[l ->]].
  - rewrite finish_null. discriminate.
  - destruct (allowNullable (w_options w)); [|discriminate].
    rewrite decorateWithNullable_at_loc.
    destruct (snd (decorate (lodash_get (contract w) l))) as [e'|] eqn:Hd;
      [|discriminate].
    intros H. injection H as <- _. eapply decorate_throws. exact Hd.
Qed.

Lemma matched_throws (lib : libraries) (w : world) (u : string) (e : exn) :
  matched lib w u = Throw e -> e = TypeError.
Proof.
  unfold matched. destruct (parseUrl_pathname lib u); [discriminate|].
  destruct (w_pathObjects w); [discriminate|].
  intros H. injection H as <-. reflexivity.
Qed.

Lemma request_schema_ref_throws (lib : libraries) (w : world) (req : request)
      (e : exn) :
  request_schema_ref lib w req = Throw e -> e = TypeError.
Proof.
  unfold request_schema_ref.
  destruct (matched lib w (originalUrl req)) as [[obj|]|e'] eqn:Hm;
    try discriminate.
  - destruct (_ && _); [|discriminate].
    destruct (unreadable _); [|discriminate].
    intros H. injection H as <-. reflexivity.
  - intros H. injection H as <-. eapply matched_throws. exact Hm.
Qed.

Lemma response_schema_ref_throws (lib : libraries) (w : world) (req : request)
      (e : exn) :
  response_schema_ref lib w req = Throw e -> e = TypeError.
Proof.
  unfold response_schema_ref.
  destruct (matched lib w (originalUrl req)) as [[obj|]|e'] eqn:Hm;
    try discriminate.
  - destruct (truthy _); [|discriminate].
    destruct (_ || _).
    + intros H. injection H as <-. reflexivity.
    + destruct (truthy _); discriminate.
  - intros H. injection H as <-. eapply matched_throws. exact Hm.
Qed.

Lemma resolveRequestModelSchema_throws (lib : libraries) (req : request)
      (w w1 : world) (e : exn) :
  resolveRequestModelSchema lib req w = (Throw e, w1) -> e = TypeError.
Proof.
  rewrite resolveRequestModelSchema_ref.
  destruct (request_schema_ref lib w req) as [r0|e0] eqn:Href.
  - apply finish_throws. eapply request_schema_ref_shape. exact Href.
  - intros H. injection H as <- _. eapply request_schema_ref_throws. exact Href.
Qed.

Lemma resolveResponseModelSchema_throws (lib : libraries) (req : request)
      (w w1 : world) (e : exn) :
  resolveResponseModelSchema lib req w = (Throw e, w1) -> e = TypeError.
Proof.
  rewrite resolveResponseModelSchema_ref.
  destruct (response_schema_ref lib w req) as [r0|e0] eqn:Href.
  - apply finish_throws. eapply response_schema_ref_shape. exact Href.
  - intros H. injection H as <- _. eapply response_schema_ref_throws. exact Href.
Qed.

Lemma count_status_app (a b : list event) :
  count_status (a ++ b) = count_status a + count_status b.
Proof.
  induction a as [|e a IH]; simpl; [reflexivity|].
  destruct e; simpl; rewrite IH; reflexivity.
Qed.

(** ** The request stage, all outcomes *)

(** X1.  With a request callback configured, a body that violates the
    resolved schema is reported to the callback, with the request, the
    body and the errors, and the continuation is then called: the
    request is not rejected. *)
Theorem validateRequest_callback_then_next
        (lib : libraries) (req : request) (w w1 : world) (r : jsref)
        (validator : value -> option value) (errors : value) :
  resolveRequestModelSchema lib req w = (Ok r, w1) ->
  truthy (target r) = true ->
  ajv_compile lib (target r) = Some validator ->
  validator (body req) = Some errors ->
  requestValidationFn (w_options w) = true ->
  validateRequest lib req w =
    (Ok tt,
     with_trace w1
       (trace w ++ [RequestValidationFn req (body req) errors; Next None]))
  /\ count_status (trace (snd (validateRequest lib req w)))
     = count_status (trace w).
Proof.
  intros Hres Ht Hc Hv Hfn.
  destruct (resolved_request_world _ _ _ _ _ Hres) as (Hsame & Htr & _).
  destruct (same_but_contract_flags _ _ Hsame) as (Hfn1 & _).
  assert (Heq : validateRequest lib req w =
                (Ok tt,
                 with_trace w1
                   (trace w ++ [RequestValidationFn req (body req) errors;
                                Next None]))).
  { rewrite validateRequest_cases, Hres. unfold request_verdict.
    rewrite Ht, Hc, Hv, Hfn1, Hfn, Htr. reflexivity. }
  split; [exact Heq|]. rewrite Heq. simpl. rewrite count_status_app. simpl. lia.
Qed.

Lemma validateRequest_callback_then_next_witness :
  let req := Demo.post_item (VObj [("name", VNum 3)]) in
  let w := Demo.start true true false in
  trace (snd (validateRequest Demo.lib req w)) =
    [RequestValidationFn req (body req)
       (VArr [VObj [("message", VStr "invalid")]]);
     Next None].
Proof.
  intros req w.
  destruct (validateRequest_callback_then_next
              Demo.lib req w
              (snd (resolveRequestModelSchema Demo.lib req w))
              {| target := Demo.name_schema_decorated;
                 origin := Some ["paths"; "/items/{id}"; "post"; "parameters";
                                 "0"; "schema"] |}
              (fun instance =>
                 if Reference.accepts Demo.name_schema_decorated instance
                 then None
                 else Some (VArr [VObj [("message", VStr "invalid")]]))
              (VArr [VObj [("message", VStr "invalid")]])
              eq_refl eq_refl eq_refl eq_refl eq_refl) as [H _].
  rewrite H. reflexivity.
Defined.

(** X2.  Whenever the request stage returns, it has done exactly one of
    two things: called the continuation once (possibly after the
    callback), or answered with status 400 and the JSON error body;
    never both, never neither.  When it throws instead, it has called
    nothing, and the exception is a [TypeError] of the resolution or
    the failure to compile the schema. *)
Theorem validateRequest_next_or_reject
        (lib : libraries) (req : request) (w : world) :
  (forall w',
     validateRequest lib req w = (Ok tt, w') ->
     exists new,
       trace w' = (trace w ++ new)%list
       /\ (new = [Next None]
           \/ (exists errors,
                 new = [RequestValidationFn req (body req) errors; Next None])
           \/ new = [ResStatus 400; ResJson (failure_object req)])
       /\ count_next new + count_status new = 1)
  /\ (forall e w',
        validateRequest lib req w = (Throw e, w') ->
        trace w' = trace w /\ (e = TypeError \/ e = SchemaCompileError)).
Proof.
  rewrite validateRequest_cases.
  destruct (resolveRequestModelSchema lib req w) as [[r|e0] w1] eqn:Hres;
    destruct (resolved_request_world _ _ _ _ _ Hres) as (_ & Htr & _).
  - unfold request_verdict, emit.
    destruct (negb (truthy (target r))).
    { split; [|discriminate]. intros w' H. injection H as <-.
      exists [Next None]. simpl. rewrite Htr. repeat split. left. reflexivity. }
    destruct (ajv_compile lib (target r)) as [validator|].
    2:{ split; [discriminate|]. intros e w' H. injection H as <- <-. auto. }
    destruct (validator (body req)) as [errors|].
    2:{ split; [|discriminate]. intros w' H. injection H as <-.
        exists [Next None]. simpl. rewrite Htr. repeat split. left. reflexivity. }
    destruct (requestValidationFn (w_options w1)).
    + split; [|discriminate]. intros w' H. injection H as <-.
      exists [RequestValidationFn req (body req) errors; Next None].
      simpl. rewrite Htr. repeat split. right. left. exists errors. reflexivity.
    + split; [|discriminate]. intros w' H. injection H as <-.
      exists [ResStatus 400; ResJson (failure_object req)].
      simpl. rewrite Htr. repeat split. right. right. reflexivity.
  - split; [discriminate|]. intros e w' H. injection H as <- <-.
    split; [exact Htr|]. left. eapply resolveRequestModelSchema_throws.
    exact Hres.
Qed.

Lemma validateRequest_next_or_reject_witness :
  let req := Demo.post_item (VObj [("name", VNum 3)]) in
  let w := Demo.start true false false in
  exists new,
    trace (snd (validateRequest Demo.lib req w)) = (trace w ++ new)%list
    /\ count_next new + count_status new = 1.
Proof.
  intros req w.
  destruct (validateRequest_next_or_reject Demo.lib req w) as [H _].
  destruct (H (snd (validateRequest Demo.lib req w)) eq_refl)
    as (new & Htrace & _ & Hcount).
  exists new. split; assumption.
Defined.

(** ** The first declared parameter *)

Lemma request_schema_ref_first
      (lib : libraries) (req : request) (w : world) (u : string)
      (obj : pathObject) (first : value) (others : list value) :
  parseUrl_pathname lib (originalUrl req) = Some u ->
  find (fun obj => regexp obj u) (w_pathObjects w) = Some obj ->
  lodash_get (contract w) (parameters_loc obj req) = VArr (first :: others) ->
  unreadable first = false ->
  request_schema_ref lib w req
  = Ok (at_loc (contract w) (request_schema_loc obj req))
  /\ lodash_get (contract w) (request_schema_loc obj req) = own first "schema".
Proof.
  intros Hu Hf Hp Hfirst.
  set (parameters := lodash_get (contract w) (parameters_loc obj req)) in *.
  assert (Hc3 : is_container parameters = true) by (rewrite Hp; reflexivity).
  assert (Hc2 : is_container (lodash_get (contract w) (operation_loc obj req))
                = true).
  { apply (lodash_get_container _ ["parameters"]).
    rewrite <- lodash_get_app. exact Hc3. }
  assert (Hc1 : is_container (lodash_get (contract w) ["paths"; path obj]) = true).
  { apply (lodash_get_container _ [toLowerCase (method req)]).
    rewrite <- lodash_get_app. exact Hc2. }
  assert (Hlen : js_gt0 lib (lodash_get (contract w)
                               (parameters_loc obj req ++ ["length"])) = true).
  { rewrite lodash_get_snoc by (apply container_readable; exact Hc3).
    fold parameters. rewrite Hp, own_array_length. simpl js_gt0.
    apply Z.ltb_lt. simpl List.length. lia. }
  assert (Hzero : lodash_get (contract w) (parameters_loc obj req ++ ["0"])
                  = first).
  { rewrite lodash_get_snoc by (apply container_readable; exact Hc3).
    fold parameters. rewrite Hp. reflexivity. }
  split.
  - unfold request_schema_ref, matched. rewrite Hu, Hf.
    fold parameters.
    rewrite (container_truthy _ Hc1), (container_truthy _ Hc2),
      (container_truthy _ Hc3), Hlen, Hzero, Hfirst. reflexivity.
  - unfold request_schema_loc.
    change ["0"; "schema"] with (["0"] ++ ["schema"])%list.
    rewrite app_assoc, lodash_get_snoc; rewrite Hzero; [reflexivity|].
    exact Hfirst.
Qed.

Lemma decorate_falsy (s : value) : truthy s = false -> decorate s = (s, None).
Proof. intros H. unfold decorate. rewrite H. reflexivity. Qed.

(** A reference to a falsy value goes through the last lines of a
    resolver untouched, and so does the world. *)
Lemma finish_falsy (w : world) (l : list string) :
  truthy (lodash_get (contract w) l) = false ->
  (if allowNullable (w_options w)
   then decorateWithNullable (at_loc (contract w) l) w
   else (Ok (at_loc (contract w) l), w)) = (Ok (at_loc (contract w) l), w).
Proof.
  intros Hf. destruct (allowNullable (w_options w)); [|reflexivity].
  rewrite decorateWithNullable_at_loc, (decorate_falsy _ Hf). simpl.
  rewrite set_at_same, with_options_same. reflexivity.
Qed.

(** X3.  Only the first declared parameter counts.  When it carries no
    schema (a query or path parameter, say), the request stage validates
    nothing and calls the continuation, whatever the parameters declared
    after it and whatever the body. *)
Theorem validateRequest_first_parameter_without_schema
        (lib : libraries) (req : request) (w : world) (u : string)
        (obj : pathObject) (first : value) (others : list value) :
  parseUrl_pathname lib (originalUrl req) = Some u ->
  find (fun obj => regexp obj u) (w_pathObjects w) = Some obj ->
  lodash_get (contract w) (parameters_loc obj req) = VArr (first :: others) ->
  unreadable first = false ->
  truthy (own first "schema") = false ->
  validateRequest lib req w
  = (Ok tt, with_trace w (trace w ++ [Next None])).
Proof.
  intros Hu Hf Hp Hfirst Hschema.
  destruct (request_schema_ref_first _ _ _ _ _ _ _ Hu Hf Hp Hfirst) as [Href Hloc].
  rewrite validateRequest_cases, resolveRequestModelSchema_ref, Href.
  rewrite finish_falsy by (rewrite Hloc; exact Hschema).
  unfold request_verdict. rewrite target_at_loc, Hloc, Hschema. reflexivity.
Qed.

Lemma validateRequest_first_parameter_without_schema_witness :
  validateRequest Demo.lib (Examples.post_search (VObj [("name", VNum 3)]))
    Examples.search_start
  = (Ok tt, with_trace Examples.search_start [Next None]).
Proof.
  apply (validateRequest_first_parameter_without_schema
           Demo.lib (Examples.post_search (VObj [("name", VNum 3)]))
           Examples.search_start "/search"
           (Demo.entry "/search")
           (VObj [("in", VStr "query"); ("name", VStr "q")])
           [VObj [("in", VStr "body"); ("schema", Demo.name_schema)]]);
    reflexivity.
Defined.

(** ** The finalize hook, all outcomes *)

Lemma received_trace (lib : libraries) (data : jsdata) (encoding : option string)
      (w w0 : world) (o : outcome value) :
  received lib data encoding w = (o, w0) -> trace w0 = trace w.
Proof.
  intros H. destruct (received_world lib data encoding w) as [(_ & _ & _ & Ht) _].
  rewrite H in Ht. exact Ht.
Qed.

Lemma response_verdict_cases (lib : libraries) (req : request) (val : value)
      (encoding : option string) (r : jsref) (w1 : world) :
  (exists new,
     response_verdict lib req val encoding r w1
     = (Ok tt, with_trace w1 (trace w1 ++ new))
     /\ (new = [OrigEnd (payload lib val) encoding]
         \/ (exists errors,
               new = [ResponseValidationFn req val errors;
                      OrigEnd (payload lib val) encoding])
         \/ new = [Next (Some (failure_object req))]))
  \/ response_verdict lib req val encoding r w1 = (Throw SchemaCompileError, w1).
Proof.
  unfold response_verdict. rewrite !sendData_payload.
  destruct (negb (truthy (target r))).
  { left. eexists. split; [reflexivity|]. left. reflexivity. }
  destruct (ajv_compile lib (target r)) as [validator|]; [|right; reflexivity].
  destruct (validator val) as [errors|].
  2:{ left. eexists. split; [reflexivity|]. left. reflexivity. }
  destruct (responseValidationFn (w_options w1)).
  - left. eexists. split; [reflexivity|]. right. left. eauto.
  - left. eexists. split; [reflexivity|]. right. right. reflexivity.
Qed.

Lemma conclude_outcomes (lib : libraries) (req : request) (val : value)
      (encoding : option string) (w : world) :
  (forall w',
     conclude lib req val encoding w = (Ok tt, w') ->
     exists new,
       trace w' = (trace w ++ new)%list
       /\ (new = [OrigEnd (payload lib val) encoding]
           \/ (exists errors,
                 new = [ResponseValidationFn req val errors;
                        OrigEnd (payload lib val) encoding])
           \/ new = [Next (Some (failure_object req))]))
  /\ (forall e w',
        conclude lib req val encoding w = (Throw e, w') ->
        trace w' = trace w /\ (e = TypeError \/ e = SchemaCompileError)).
Proof.
  rewrite conclude_cases.
  destruct (resolveResponseModelSchema lib req w) as [[r|e0] w1] eqn:Hres;
    destruct (resolved_response_world _ _ _ _ _ Hres) as (_ & Htr & _).
  - destruct (response_verdict_cases lib req val encoding r w1)
      as [(new & -> & Hnew)| ->].
    + split; [|discriminate]. intros w' H. injection H as <-.
      exists new. simpl. rewrite Htr. split; [reflexivity|exact Hnew].
    + split; [discriminate|]. intros e w' H. injection H as <- <-.
      split; [exact Htr|]. right. reflexivity.
  - split; [discriminate|]. intros e w' H. injection H as <- <-.
    split; [exact Htr|]. left. eapply resolveResponseModelSchema_throws.
    exact Hres.
Qed.

(** X4.  Whenever the finalize hook returns, it has done exactly one of
    two things: handed one payload to the host's finalize operation
    (possibly after the callback), or called the error continuation;
    never both, never neither.  The payload is the value parsed from
    what was received, a string as it is and anything else through
    [JSON.stringify], with the encoding of the finalize call.  When the
    hook throws instead, nothing has reached the host. *)
Theorem end_hook_sends_or_fails
        (lib : libraries) (req : request) (data : jsdata)
        (encoding : option string) (w : world) :
  (forall w',
     end_hook lib req data encoding w = (Ok tt, w') ->
     exists val new,
       fst (reassemble lib data encoding w) = Ok val
       /\ trace w' = (trace w ++ new)%list
       /\ (new = [OrigEnd (payload lib val) encoding]
           \/ (exists errors,
                 new = [ResponseValidationFn req val errors;
                        OrigEnd (payload lib val) encoding])
           \/ new = [Next (Some (failure_object req))])
       /\ count_end new + count_next new = 1)
  /\ (forall e w',
        end_hook lib req data encoding w = (Throw e, w') ->
        trace w' = trace w).
Proof.
  destruct (reassemble lib data encoding w) as [[val|e0] w0] eqn:Hre.
  - destruct (reassembled_world _ _ _ _ _ _ Hre) as (_ & _ & _ & Htr0).
    rewrite (end_hook_reassembled _ _ _ _ _ _ _ Hre).
    destruct (conclude_outcomes lib req val encoding w0) as [Hok Hthrow].
    split.
    + intros w' H. destruct (Hok w' H) as (new & Htr & Hnew).
      exists val, new. rewrite <- Htr0.
      split; [reflexivity|]. split; [exact Htr|]. split; [exact Hnew|].
      destruct Hnew as [->|[[errors ->]| ->]]; reflexivity.
    + intros e w' H. destruct (Hthrow e w' H) as [Htr _]. congruence.
  - destruct (reassembled_world _ _ _ _ _ _ Hre) as (_ & _ & _ & Htr0).
    unfold end_hook, bind. rewrite Hre. split; [discriminate|].
    intros e w' H. injection H as _ <-. exact Htr0.
Qed.

Lemma end_hook_sends_or_fails_witness :
  let w := snd (validateResponse Demo.get_item (Demo.start true false false)) in
  exists val new,
    fst (reassemble Demo.lib (JVal (VStr "42")) None w) = Ok val
    /\ trace (snd (end_hook Demo.lib Demo.get_item (JVal (VStr "42")) None w))
       = (trace w ++ new)%list
    /\ count_end new + count_next new = 1.
Proof.
  intros w.
  destruct (end_hook_sends_or_fails Demo.lib Demo.get_item
              (JVal (VStr "42")) None w) as [H _].
  destruct (H (snd (end_hook Demo.lib Demo.get_item (JVal (VStr "42")) None w))
              eq_refl) as (val & new & Hval & Htrace & _ & Hcount).
  exists val, new. repeat split; assumption.
Defined.

(** X5.  When no schema applies to the response, or the parsed body
    satisfies the schema, the hook hands the payload to the host's
    finalize operation, once, with the encoding of the call, and calls
    neither the callback nor the continuation. *)
Theorem end_hook_forwards_valid_response
        (lib : libraries) (req : request) (data : jsdata)
        (encoding : option string) (w w0 w1 : world) (val : value) (r : jsref) :
  reassemble lib data encoding w = (Ok val, w0) ->
  resolveResponseModelSchema lib req w0 = (Ok r, w1) ->
  (truthy (target r) = false
   \/ exists validator,
        ajv_compile lib (target r) = Some validator /\ validator val = None) ->
  end_hook lib req data encoding w
  = (Ok tt, with_trace w1 (trace w ++ [OrigEnd (payload lib val) encoding])).
Proof.
  intros Hre Hres Hpass.
  destruct (reassembled_world _ _ _ _ _ _ Hre) as (_ & _ & _ & Htr0).
  destruct (resolved_response_world _ _ _ _ _ Hres) as (_ & Htr & _).
  rewrite Htr0 in Htr.
  rewrite (end_hook_reassembled _ _ _ _ _ _ _ Hre), conclude_cases, Hres.
  unfold response_verdict. rewrite !sendData_payload, Htr.
  destruct Hpass as [Hf|(validator & Hc & Hv)].
  - rewrite Hf. reflexivity.
  - destruct (negb (truthy (target r))); [reflexivity|].
    rewrite Hc, Hv. reflexivity.
Qed.

Lemma end_hook_forwards_valid_response_witness :
  let w := snd (validateResponse Demo.get_item (Demo.start true false false)) in
  trace (snd (end_hook Demo.lib Demo.get_item (JVal (VStr "42")) None w))
  = [Next None; OrigEnd (JVal (VStr "42")) None].
Proof.
  intros w.
  rewrite (end_hook_forwards_valid_response
             Demo.lib Demo.get_item (JVal (VStr "42")) None w
             (with_hooked w false) (with_hooked w false) (VNum 42)
             {| target := Demo.number_schema;
                origin := Some ["paths"; "/items/{id}"; "get"; "responses";
                                "200"; "schema"] |}
             eq_refl eq_refl).
  - reflexivity.
  - right. eexists. split; reflexivity.
Defined.

(** ** Response schema resolution *)

(** X6.  For a matched path whose operation for the request's method has
    a [responses] object, [resolveResponseModelSchema] looks the
    response descriptor up under the exact status code of the response,
    200 when none was set.  When there is no descriptor under that key
    it returns none, whatever other keys such as [default] hold.
    Otherwise it returns the [schema] of that descriptor: the very
    object the contract holds there, which with [allowNullable] has been
    decorated in place. *)
Theorem resolveResponseModelSchema_by_status
        (lib : libraries) (req : request) (w : world) (u : string)
        (obj : pathObject) :
  parseUrl_pathname lib (originalUrl req) = Some u ->
  find (fun obj => regexp obj u) (w_pathObjects w) = Some obj ->
  let doc := contract w in
  let resolved := resolveResponseModelSchema lib req w in
  let responses := lodash_get doc (responses_loc obj req) in
  let descriptor := own responses (status_key (status_or_200 (statusCode w))) in
  let loc := response_schema_loc w obj req in
  is_container responses = true ->
  (truthy descriptor = false -> resolved = (Ok (fresh VNull), w))
  /\ (truthy descriptor = true ->
      lodash_get doc loc = own descriptor "schema"
      /\ (allowNullable (w_options w) = false ->
          resolved = (Ok (at_loc doc loc), w))
      /\ (allowNullable (w_options w) = true ->
          forall s',
            decorate (own descriptor "schema") = (s', None) ->
            resolved =
              (Ok {| target := s'; origin := Some loc |},
               rewrite_world w (set_at loc s' doc))
            /\ lodash_get (set_at loc s' doc) loc = s')).
Proof.
  intros Hu Hfind doc resolved responses descriptor loc Hc3.
  subst resolved doc loc.
  assert (Hc2 : is_container (lodash_get (contract w) (operation_loc obj req)) = true).
  { apply (lodash_get_container _ ["responses"]).
    rewrite <- lodash_get_app. exact Hc3. }
  assert (Hc1 : is_container (lodash_get (contract w) ["paths"; path obj]) = true).
  { apply (lodash_get_container _ [toLowerCase (method req)]).
    rewrite <- lodash_get_app. exact Hc2. }
  assert (Hdesc : lodash_get (contract w) (descriptor_loc w obj req) = descriptor).
  { unfold descriptor_loc. rewrite lodash_get_snoc; [reflexivity|].
    apply container_readable. exact Hc3. }
  rewrite resolveResponseModelSchema_ref. unfold response_schema_ref, matched.
  rewrite Hu, Hfind, (container_truthy _ Hc1), (container_readable _ Hc2).
  fold responses. rewrite (container_readable _ Hc3), Hdesc. simpl orb. cbv iota.
  split.
  - intros ->. apply finish_null.
  - intros Ht. rewrite Ht.
    assert (Hloc : lodash_get (contract w) (response_schema_loc w obj req)
                   = own descriptor "schema").
    { unfold response_schema_loc. rewrite lodash_get_snoc; rewrite Hdesc;
        [reflexivity|]. apply truthy_readable. exact Ht. }
    split; [exact Hloc|]. split.
    + intros ->. reflexivity.
    + intros -> s' Hd. rewrite <- Hloc in Hd.
      rewrite decorateWithNullable_at_loc, Hd.
      split; [reflexivity|].
      apply lodash_get_set_at_decorated. exact Hd.
Qed.

Lemma resolveResponseModelSchema_by_status_witness :
  let w := Demo.start false false false in
  resolveResponseModelSchema Demo.lib Demo.get_item w
  = (Ok (at_loc (contract w)
           ["paths"; "/items/{id}"; "get"; "responses"; "200"; "schema"]), w)
  /\ (let w404 := Demo.world_of (init Demo.lib (Demo.opts false false false)
                                     (Some 404%Z)) in
      resolveResponseModelSchema Demo.lib Demo.get_item w404
      = (Ok (fresh VNull), w404)).
Proof.
  intros w.
  set (obj := Demo.entry "/items/{id}").
  split.
  - destruct (resolveResponseModelSchema_by_status
                Demo.lib Demo.get_item w "/items/7" obj eq_refl eq_refl eq_refl)
      as [_ H].
    destruct (H eq_refl) as (_ & Hplain & _).
    apply Hplain. reflexivity.
  - destruct (resolveResponseModelSchema_by_status
                Demo.lib Demo.get_item
                (Demo.world_of (init Demo.lib (Demo.opts false false false)
                                  (Some 404%Z)))
                "/items/7" obj eq_refl eq_refl eq_refl)
      as [H _].
    apply H. reflexivity.
Defined.





(** ** What the capture does with chunks that are not Buffers *)

Lemma Buffer_concat_non_buffer (l : list jsdata) :
  existsb (fun c => negb (isBuffer c)) l = true ->
  Buffer_concat l = Throw TypeError.
Proof.
  induction l as [|c l IH]; [discriminate|].
  destruct c as [b|s|v]; simpl; intros H; try reflexivity.
  rewrite (IH H). reflexivity.
Qed.

Lemma capture_non_buffer (lib : libraries) (data : jsdata) (w : world) :
  existsb (fun c => negb (isBuffer c)) (writtenData w) = true ->
  (forall v, data = JVal v -> truthy v = false) ->
  exists w', capture lib data w = (Throw TypeError, w').
Proof.
  intros Hex Hdata. unfold capture.
  destruct data as [b|s|v].
  - simpl truthy_data. cbv iota.
    unfold bind, push, concat_writtenData, get_world, lift. simpl.
    rewrite Buffer_concat_non_buffer
      by (rewrite existsb_app, Hex; reflexivity).
    eexists. reflexivity.
  - simpl truthy_data. cbv iota.
    unfold bind, push, concat_writtenData, get_world, lift. simpl.
    rewrite Buffer_concat_non_buffer
      by (rewrite existsb_app, Hex; reflexivity).
    eexists. reflexivity.
  - change (truthy_data (JVal v)) with (truthy v).
    rewrite (Hdata v eq_refl), bind_get_world.
    destruct (writtenData w) as [|c l] eqn:Hw; [discriminate|].
    unfold concat_writtenData, get_world, lift, bind.
    rewrite Hw, (Buffer_concat_non_buffer _ Hex).
    eexists. reflexivity.
Qed.

(** X8.  Once a chunk that is not a [Buffer] has been written (a string,
    for instance), a finalize call that passes a [Buffer], a [String]
    object or nothing usable makes the hook throw a [TypeError] from
    [Buffer.concat]: the capture hooks stay installed, and nothing is
    sent to the client or to the continuation. *)
Theorem end_hook_non_buffer_chunk_throws
        (lib : libraries) (req : request) (data : jsdata)
        (encoding : option string) (w : world) :
  existsb (fun c => negb (isBuffer c)) (writtenData w) = true ->
  (forall v, data = JVal v -> truthy v = false) ->
  let result := end_hook lib req data encoding w in
  fst result = Throw TypeError
  /\ hooked (snd result) = hooked w
  /\ trace (snd result) = trace w.
Proof.
  intros Hex Hdata result. subst result.
  destruct (capture_non_buffer lib data w Hex Hdata) as [w' Hc].
  assert (Ha : assemble lib data encoding w = (Throw TypeError, w')).
  { unfold assemble, bind. rewrite Hc. reflexivity. }
  assert (Hr : received lib data encoding w = (Throw TypeError, w')).
  { unfold received, bind. rewrite Ha. reflexivity. }
  destruct (received_world lib data encoding w) as ((_ & _ & _ & Htr) & _ & Hh).
  rewrite Hr in Htr, Hh. simpl in Htr, Hh.
  rewrite end_hook_cases, Hr. simpl.
  split; [reflexivity|]. split; [|exact Htr].
  eapply Hh. exact Ha.
Qed.

Lemma end_hook_non_buffer_chunk_throws_witness :
  let armed := snd (validateResponse Demo.get_item (Demo.start true false false)) in
  let w := snd (write_all [JVal (VStr "4")] armed) in
  fst (end_hook Demo.lib Demo.get_item (JBuffer (list_byte_of_string "2")) None w)
  = Throw TypeError.
Proof.
  intros armed w.
  apply (end_hook_non_buffer_chunk_throws
           Demo.lib Demo.get_item (JBuffer (list_byte_of_string "2")) None w).
  - reflexivity.
  - intros v H. discriminate H.
Defined.

(** ** What the capture does with a plain value *)

Lemma conclude_writtenData (lib : libraries) (req : request) (val : value)
      (encoding : option string) (w : world) (d : list jsdata) :
  conclude lib req val encoding (with_writtenData w d)
  = (fst (conclude lib req val encoding w),
     with_writtenData (snd (conclude lib req val encoding w)) d).
Proof.
  rewrite !conclude_cases, !resolveResponseModelSchema_ref.
  change (response_schema_ref lib (with_writtenData w d) req)
    with (response_schema_ref lib w req).
  change (allowNullable (w_options (with_writtenData w d)))
    with (allowNullable (w_options w)).
  destruct (response_schema_ref lib w req) as [r|e]; [|reflexivity].
  assert (Hv : forall r w1,
             response_verdict lib req val encoding r (with_writtenData w1 d)
             = (fst (response_verdict lib req val encoding r w1),
                with_writtenData (snd (response_verdict lib req val encoding r w1)) d)).
  { clear r. intros r w1. unfold response_verdict. rewrite !sendData_payload.
    destruct (negb (truthy (target r))); [reflexivity|].
    destruct (ajv_compile lib (target r)) as [validator|]; [|reflexivity].
    destruct (validator val) as [errors|]; [|reflexivity].
    change (responseValidationFn (w_options (with_writtenData w1 d)))
      with (responseValidationFn (w_options w1)).
    destruct (responseValidationFn (w_options w1)); reflexivity. }
  destruct (allowNullable (w_options w)); [|apply Hv].
  unfold decorateWithNullable.
  destruct (decorate (target r)) as [s' [e|]];
    destruct (origin r) as [l|]; unfold bind, store, throw, ret;
    try reflexivity.
  - exact (Hv {| target := s'; origin := Some l |}
              (with_options w
                 (with_schema (w_options w) (set_at l s' (contract w))))).
  - exact (Hv {| target := s'; origin := None |} w).
Qed.

(** X9.  When the finalize call passes a plain truthy value (a primitive
    string, an object, a number...), that value alone is what the hook
    validates and sends: whatever chunks were written before are left
    out, of the validation, of the outcome and of what reaches the
    client. *)
Theorem end_hook_plain_data_ignores_chunks
        (lib : libraries) (req : request) (v : value)
        (encoding : option string) (w : world) (chunks : list jsdata) :
  truthy v = true ->
  let result := end_hook lib req (JVal v) encoding w in
  let result' := end_hook lib req (JVal v) encoding (with_writtenData w chunks) in
  received lib (JVal v) encoding (with_writtenData w chunks)
  = (Ok v, with_hooked (with_writtenData w chunks) false)
  /\ fst result' = fst result
  /\ trace (snd result') = trace (snd result)
  /\ contract (snd result') = contract (snd result).
Proof.
  intros Hv result result'. subst result result'.
  assert (Hr : forall w0, received lib (JVal v) encoding w0
                          = (Ok v, with_hooked w0 false)).
  { intros w0. unfold received, assemble, capture, bind.
    change (truthy_data (JVal v)) with (truthy v). rewrite Hv. reflexivity. }
  split; [apply Hr|].
  assert (He : forall w0,
             end_hook lib req (JVal v) encoding w0
             = match v with
               | VStr s =>
                   match JSON_parse lib s with
                   | Some p => conclude lib req p encoding (with_hooked w0 false)
                   | None => (Throw (DecodeError true decode_message),
                              with_hooked w0 false)
                   end
               | _ => conclude lib req v encoding (with_hooked w0 false)
               end).
  { intros w0. rewrite end_hook_cases, Hr. destruct v; reflexivity. }
  rewrite !He.
  change (with_hooked (with_writtenData w chunks) false)
    with (with_writtenData (with_hooked w false) chunks).
  destruct v; try (rewrite conclude_writtenData; repeat split).
  destruct (JSON_parse lib s).
  - rewrite conclude_writtenData. repeat split.
  - repeat split.
Qed.

Lemma end_hook_plain_data_ignores_chunks_witness :
  let armed := snd (validateResponse Demo.get_item (Demo.start true false false)) in
  trace (snd (end_hook Demo.lib Demo.get_item (JVal (VStr "2")) None
                (with_writtenData armed [JBuffer (list_byte_of_string "4")])))
  = trace (snd (end_hook Demo.lib Demo.get_item (JVal (VStr "2")) None armed)).
Proof.
  intros armed.
  apply (end_hook_plain_data_ignores_chunks
           Demo.lib Demo.get_item (VStr "2") None armed
           [JBuffer (list_byte_of_string "4")]).
  reflexivity.
Defined.

(** X10.  A response finalized with nothing usable (no argument, [null],
    an empty string...) after nothing was written is not parsed: the
    value checked against the response schema is [undefined], and when
    it passes, what is sent is [JSON.stringify(undefined)]. *)
Theorem end_hook_empty_response
        (lib : libraries) (req : request) (v : value)
        (encoding : option string) (w : world) :
  truthy v = false ->
  writtenData w = [] ->
  reassemble lib (JVal v) encoding w = (Ok VUndefined, with_hooked w false)
  /\ end_hook lib req (JVal v) encoding w
     = conclude lib req VUndefined encoding (with_hooked w false)
  /\ payload lib VUndefined = JVal (JSON_stringify lib VUndefined).
Proof.
  intros Hv Hw.
  assert (Hr : reassemble lib (JVal v) encoding w
               = (Ok VUndefined, with_hooked w false)).
  { unfold reassemble, received, assemble, capture.
    change (truthy_data (JVal v)) with (truthy v).
    rewrite Hv. unfold bind, get_world. rewrite Hw. reflexivity. }
  split; [exact Hr|]. split; [|reflexivity].
  apply end_hook_reassembled. exact Hr.
Qed.

Lemma end_hook_empty_response_witness :
  let w := snd (validateResponse Demo.get_item (Demo.start true false false)) in
  fst (reassemble Demo.lib (JVal VUndefined) None w) = Ok VUndefined.
Proof.
  intros w.
  destruct (end_hook_empty_response Demo.lib Demo.get_item VUndefined None w
              eq_refl eq_refl) as [H _].
  rewrite H. reflexivity.
Defined.

(** ** A URL without path component *)

(** X11.  When the URL of the request has no path component,
    [url.parse(...).pathname] is [null] and the first [url.match] is a
    [TypeError]: with at least one path registered both resolvers and
    the request stage throw it, and nothing is answered nor continued.
    With an empty registry nothing is matched and no schema applies. *)
Theorem resolution_without_pathname
        (lib : libraries) (req : request) (w : world) :
  parseUrl_pathname lib (originalUrl req) = None ->
  (w_pathObjects w <> [] ->
   matchUrlWithSchema lib (originalUrl req) w = (Throw TypeError, w)
   /\ resolveRequestModelSchema lib req w = (Throw TypeError, w)
   /\ resolveResponseModelSchema lib req w = (Throw TypeError, w)
   /\ validateRequest lib req w = (Throw TypeError, w))
  /\ (w_pathObjects w = [] ->
      resolveRequestModelSchema lib req w = (Ok (fresh VNull), w)
      /\ resolveResponseModelSchema lib req w = (Ok (fresh VNull), w)).
Proof.
  intros Hu. split.
  - intros Hne.
    assert (Hm : matched lib w (originalUrl req) = Throw TypeError).
    { unfold matched. rewrite Hu. destruct (w_pathObjects w); congruence. }
    assert (Hq : resolveRequestModelSchema lib req w = (Throw TypeError, w)).
    { rewrite resolveRequestModelSchema_ref. unfold request_schema_ref.
      rewrite Hm. reflexivity. }
    split; [|split; [exact Hq|split]].
    + rewrite matchUrlWithSchema_matched, Hm. reflexivity.
    + rewrite resolveResponseModelSchema_ref. unfold response_schema_ref.
      rewrite Hm. reflexivity.
    + rewrite validateRequest_cases, Hq. reflexivity.
  - intros He.
    assert (Hm : matched lib w (originalUrl req) = Ok None).
    { unfold matched. rewrite Hu, He. reflexivity. }
    split.
    + rewrite resolveRequestModelSchema_ref. unfold request_schema_ref.
      rewrite Hm. apply finish_null.
    + rewrite resolveResponseModelSchema_ref. unfold response_schema_ref.
      rewrite Hm. apply finish_null.
Qed.

Lemma resolution_without_pathname_witness :
  let w := Demo.start true false false in
  validateRequest Demo.lib Examples.query_only w = (Throw TypeError, w).
Proof.
  intros w.
  destruct (resolution_without_pathname Demo.lib Examples.query_only w eq_refl)
    as [H _].
  apply H. discriminate.
Defined.

(** ** An empty registry *)

(** X12.  With no path registered nothing is validated: the request
    stage calls the continuation whatever the body, and the finalize
    hook sends whatever it has parsed.  This is the state [init] leaves
    for a contract without [paths], or with an empty one. *)
Theorem empty_registry_validates_nothing
        (lib : libraries) (req : request) (w : world) :
  w_pathObjects w = [] ->
  validateRequest lib req w = (Ok tt, with_trace w (trace w ++ [Next None]))
  /\ (forall val encoding,
        conclude lib req val encoding w
        = (Ok tt, with_trace w (trace w ++ [OrigEnd (payload lib val) encoding])))
  /\ (forall opts sc,
        unreadable (i_schema opts) = false ->
        own (i_schema opts) "paths" = VUndefined
        \/ own (i_schema opts) "paths" = VObj [] ->
        exists w0, init lib opts sc = Ok w0 /\ w_pathObjects w0 = []).
Proof.
  intros He.
  assert (Hm : matched lib w (originalUrl req) = Ok None).
  { unfold matched. rewrite He.
    destruct (parseUrl_pathname lib (originalUrl req)); reflexivity. }
  split; [|split].
  - rewrite validateRequest_cases, resolveRequestModelSchema_ref.
    unfold request_schema_ref. rewrite Hm, finish_null. reflexivity.
  - intros val encoding.
    rewrite conclude_cases, resolveResponseModelSchema_ref.
    unfold response_schema_ref. rewrite Hm, finish_null.
    unfold response_verdict. rewrite sendData_payload. reflexivity.
  - intros opts sc Hs Hp. unfold init, get_prop.
    change (schema (defaults opts)) with (i_schema opts).
    destruct (i_schema opts) eqn:Hschema; try discriminate;
      destruct Hp as [-> | ->]; eexists; split; reflexivity.
Qed.

Lemma empty_registry_validates_nothing_witness :
  let w := Demo.world_of (init Demo.lib (Examples.options_for (VObj [])) None) in
  validateRequest Demo.lib (Demo.post_item (VNum 3)) w
  = (Ok tt, with_trace w [Next None]).
Proof.
  intros w.
  destruct (empty_registry_validates_nothing Demo.lib (Demo.post_item (VNum 3)) w
              eq_refl) as [H _].
  exact H.
Defined.

(** ** The method of the request *)

(** X13.  The resolvers look at the method of the request in lower case
    only: two requests for the same URL whose methods differ in case
    resolve to the same schema, in the same way. *)
Theorem resolvers_ignore_method_case
        (lib : libraries) (req req' : request) (w : world) :
  originalUrl req' = originalUrl req ->
  toLowerCase (method req') = toLowerCase (method req) ->
  resolveRequestModelSchema lib req' w = resolveRequestModelSchema lib req w
  /\ resolveResponseModelSchema lib req' w = resolveResponseModelSchema lib req w.
Proof.
  intros Hu Hm. rewrite !resolveRequestModelSchema_ref, !resolveResponseModelSchema_ref.
  unfold request_schema_ref, response_schema_ref, request_schema_loc,
    response_schema_loc, descriptor_loc, parameters_loc, responses_loc,
    operation_loc.
  rewrite Hu, Hm. split; reflexivity.
Qed.

Lemma resolvers_ignore_method_case_witness :
  let w := Demo.start true false false in
  resolveResponseModelSchema Demo.lib Examples.get_item_lower w
  = resolveResponseModelSchema Demo.lib Demo.get_item w.
Proof.
  intros w.
  destruct (resolvers_ignore_method_case Demo.lib Demo.get_item
              Examples.get_item_lower w eq_refl eq_refl) as [_ H].
  exact H.
Defined.

(** ** Path templates *)

Lemma colon_template_app (a b : string) :
  colon_template (a ++ b) = colon_template a ++ colon_template b.
Proof.
  induction a as [|c a IH]; [reflexivity|]. simpl.
  destruct (Ascii.eqb c "{"); [simpl; rewrite IH; reflexivity|].
  destruct (Ascii.eqb c "}"); [exact IH|].
  simpl. rewrite IH. reflexivity.
Qed.

Lemma colon_template_brace_free (s : string) :
  brace_free s = true -> colon_template s = s.
Proof.
  induction s as [|c s IH]; [reflexivity|]. simpl.
  destruct (Ascii.eqb c "{"); [discriminate|].
  destruct (Ascii.eqb c "}"); [discriminate|].
  simpl. intros H. rewrite (IH H). reflexivity.
Qed.

(** X14.  The template handed to [pathToRegexp] is the contract's path
    with each placeholder [{name}] turned into [:name]: text without
    braces is kept as it is, the conversion works piece by piece, and
    its result contains no brace. *)
Theorem colon_template_placeholders (before name after : string) :
  brace_free before = true ->
  brace_free name = true ->
  colon_template (before ++ "{" ++ name ++ "}" ++ after)
  = before ++ ":" ++ name ++ colon_template after
  /\ brace_free (colon_template after) = true.
Proof.
  intros Hb Hn. split.
  - rewrite colon_template_app, (colon_template_brace_free _ Hb).
    change ("{" ++ name ++ "}" ++ after) with (String "{" (name ++ "}" ++ after)).
    change (colon_template (String "{" (name ++ "}" ++ after)))
      with (String ":" (colon_template (name ++ "}" ++ after))).
    rewrite colon_template_app, (colon_template_brace_free _ Hn).
    reflexivity.
  - clear. induction after as [|c s IH]; [reflexivity|]. simpl.
    destruct (Ascii.eqb c "{") eqn:H1; [exact IH|].
    destruct (Ascii.eqb c "}") eqn:H2; [exact IH|].
    simpl. rewrite H1, H2. exact IH.
Qed.

Lemma colon_template_placeholders_witness :
  colon_template "/items/{id}/parts" = "/items/:id/parts".
Proof.
  exact (proj1 (colon_template_placeholders "/items/" "id" "/parts"
                  eq_refl eq_refl)).
Defined.

(** ** The stage flags *)

Lemma validateRequest_keeps_hooks (lib : libraries) (req : request) (w : world) :
  let wv := snd (validateRequest lib req w) in
  opt_validateResponse (w_options wv) = opt_validateResponse (w_options w)
  /\ hooked wv = hooked w.
Proof.
  rewrite validateRequest_cases.
  destruct (resolveRequestModelSchema lib req w) as [[r|e] w1] eqn:Hres;
    destruct (resolved_request_world _ _ _ _ _ Hres) as (Hsame & _ & Hh & _);
    destruct (same_but_contract_flags _ _ Hsame) as (_ & _ & _ & Hf & _).
  - cbv zeta. rewrite <- Hf, <- Hh. unfold request_verdict, emit.
    destruct (negb (truthy (target r))); [split; reflexivity|].
    destruct (ajv_compile lib (target r)) as [validator|]; [|split; reflexivity].
    destruct (validator (body req)); [|split; reflexivity].
    destruct (requestValidationFn (w_options w1)); split; reflexivity.
  - split; [exact Hf|exact Hh].
Qed.

(** X15.  The middleware runs the stages its flags enable.  With only
    the response stage, the request is not validated and the
    continuation is called once; with only the request stage, no capture
    hook is installed; with both disabled the middleware does nothing
    at all: it does not call the continuation.  An exception of the
    request stage leaves the response stage out. *)
Theorem validate_follows_flags
        (lib : libraries) (req : request) (w : world) :
  (opt_validateRequest (w_options w) = false ->
   opt_validateResponse (w_options w) = false ->
   validate lib req w = (Ok tt, w))
  /\ (opt_validateRequest (w_options w) = false ->
      opt_validateResponse (w_options w) = true ->
      validate lib req w = validateResponse req w)
  /\ (opt_validateRequest (w_options w) = true ->
      opt_validateResponse (w_options w) = false ->
      validate lib req w = validateRequest lib req w
      /\ hooked (snd (validate lib req w)) = hooked w)
  /\ (forall e w1,
        opt_validateRequest (w_options w) = true ->
        validateRequest lib req w = (Throw e, w1) ->
        validate lib req w = (Throw e, w1)).
Proof.
  split; [|split; [|split]].
  - intros Hq Hp. unfold validate. rewrite bind_get_world, Hq.
    unfold bind, ret, get_world. rewrite Hp. reflexivity.
  - intros Hq Hp. unfold validate. rewrite bind_get_world, Hq.
    unfold bind, ret, get_world. rewrite Hp. reflexivity.
  - intros Hq Hp.
    destruct (validateRequest_keeps_hooks lib req w) as [Hf Hh].
    assert (Hv : validate lib req w = validateRequest lib req w).
    { unfold validate. rewrite bind_get_world, Hq. unfold bind at 1.
      destruct (validateRequest lib req w) as [[[]|e] w1] eqn:Hr; [|reflexivity].
      rewrite bind_get_world. simpl in Hf. rewrite Hf, Hp. reflexivity. }
    split; [exact Hv|]. rewrite Hv. exact Hh.
  - intros e w1 Hq Hr. unfold validate. rewrite bind_get_world, Hq.
    unfold bind at 1. rewrite Hr. reflexivity.
Qed.

Lemma validate_follows_flags_witness :
  let w := Demo.world_of (init Demo.lib Examples.stages_off None) in
  validate Demo.lib (Demo.post_item (VNum 3)) w = (Ok tt, w).
Proof.
  intros w.
  destruct (validate_follows_flags Demo.lib (Demo.post_item (VNum 3)) w)
    as [H _].
  apply H; reflexivity.
Defined.

(** ** Schemas the decoration leaves alone, and schemas it fails on *)

Lemma nullable_readable (p : value) :
  unreadable p = false -> nullable p = truthy (own p "x-nullable").
Proof. destruct p; intros H; try discriminate H; reflexivity. Qed.

(** X16.  A schema none of whose properties carries a truthy
    [x-nullable] comes out of the decoration as it went in, and so does
    the contract that holds it. *)
Theorem decorate_without_nullable_unchanged (s : value) :
  (forall k, In k (Object_keys (own s "properties")) ->
             unreadable (own (own s "properties") k) = false
             /\ truthy (own (own (own s "properties") k) "x-nullable") = false) ->
  decorate s = (s, None)
  /\ (forall doc loc, lodash_get doc loc = s ->
                      set_at loc (fst (decorate s)) doc = doc).
Proof.
  intros Hplain.
  assert (Hd : decorate s = (s, None)).
  { unfold decorate. destruct (truthy s) eqn:Hs; [|reflexivity].
    assert (Hg : get_prop s "properties" = Ok (own s "properties"))
      by (destruct s; try discriminate Hs; reflexivity).
    rewrite Hg. destruct (truthy (own s "properties")) eqn:Hp; [|reflexivity].
    rewrite forEach_prop_settled.
    - destruct (own_properties_object _ Hp) as (fs & Hfs & Ha).
      rewrite (set_prop_unchanged s "properties" (own s "properties"));
        [reflexivity|]. rewrite Hfs at 1. exact Ha.
    - apply truthy_readable. exact Hp.
    - intros k Hk. destruct (Hplain k Hk) as [H1 H2].
      split; [exact H1|]. rewrite nullable_readable; assumption. }
  split; [exact Hd|].
  intros doc loc <-. rewrite Hd. apply set_at_same.
Qed.

Lemma decorate_without_nullable_unchanged_witness :
  decorate Examples.plain_schema = (Examples.plain_schema, None).
Proof.
  apply decorate_without_nullable_unchanged.
  intros k [<-|[<-|[]]]; split; reflexivity.
Defined.

Lemma forEach_prop_throws_iff (keys : list string) (props : value) :
  unreadable props = false ->
  snd (forEach_prop keys props) = Some TypeError
  <-> exists k, In k keys /\ unreadable (own props k) = true.
Proof.
  revert props. induction keys as [|k keys IH]; intros props Hr.
  - simpl. split; [discriminate|]. intros (k & [] & _).
  - simpl. rewrite (decorate_prop_cases _ _ Hr).
    destruct (unreadable (own props k)) eqn:Hk.
    + simpl. split; [|reflexivity]. intros _. exists k. split; [left; reflexivity|exact Hk].
    + destruct (nullable (own props k)) eqn:Hn.
      * destruct (nullable_own_present _ _ Hn) as [Ha Hc].
        rewrite IH by (rewrite set_prop_readable; exact Hr).
        split; intros (k' & Hin & Hu).
        -- rewrite (own_set_prop _ _ _ _ _ Hc Ha) in Hu.
           destruct (k' =? k) eqn:Hkk; [discriminate Hu|].
           exists k'. split; [right; exact Hin|exact Hu].
        -- destruct Hin as [<-|Hin]; [congruence|].
           exists k'. split; [exact Hin|].
           rewrite (own_set_prop _ _ _ _ _ Hc Ha).
           destruct (k' =? k) eqn:Hkk; [|exact Hu].
           apply String.eqb_eq in Hkk. subst k'. congruence.
      * rewrite IH by exact Hr.
        split; intros (k' & Hin & Hu).
        -- exists k'. split; [right; exact Hin|exact Hu].
        -- destruct Hin as [<-|Hin]; [congruence|].
           exists k'. split; [exact Hin|exact Hu].
Qed.

(** X17.  The decoration of a schema with properties throws exactly
    when one of the properties is [null] or [undefined], and what it
    throws is a [TypeError]; with [allowNullable], resolving such a
    schema from the contract throws it too. *)
Theorem decorate_throws_on_null_property (s : value) :
  truthy s = true ->
  truthy (own s "properties") = true ->
  (snd (decorate s) = Some TypeError
   <-> exists k, In k (Object_keys (own s "properties"))
                 /\ unreadable (own (own s "properties") k) = true)
  /\ (snd (decorate s) = None \/ snd (decorate s) = Some TypeError)
  /\ (forall w loc,
        lodash_get (contract w) loc = s ->
        snd (decorate s) = Some TypeError ->
        fst (decorateWithNullable (at_loc (contract w) loc) w) = Throw TypeError).
Proof.
  intros Hs Hp.
  assert (Hd : snd (decorate s)
               = snd (forEach_prop (Object_keys (own s "properties"))
                                   (own s "properties"))).
  { unfold decorate. rewrite Hs.
    assert (Hg : get_prop s "properties" = Ok (own s "properties"))
      by (destruct s; try discriminate Hs; reflexivity).
    rewrite Hg, Hp.
    destruct (forEach_prop (Object_keys (own s "properties")) (own s "properties"));
      reflexivity. }
  split; [|split].
  - rewrite Hd. apply forEach_prop_throws_iff. apply truthy_readable. exact Hp.
  - destruct (snd (decorate s)) as [e|] eqn:He; [|left; reflexivity].
    right. rewrite (decorate_throws s e He). reflexivity.
  - intros w loc Hloc Ht. rewrite decorateWithNullable_at_loc, Hloc, Ht.
    reflexivity.
Qed.

Lemma decorate_throws_on_null_property_witness :
  snd (decorate Examples.broken_schema) = Some TypeError.
Proof.
  destruct (decorate_throws_on_null_property Examples.broken_schema
              eq_refl eq_refl) as [[_ H] _].
  apply H. exists "age". split; [right; left; reflexivity|reflexivity].
Defined.

(** ** Initialisation *)

Lemma map_entries_rejected (lib : libraries) (es : list (string * value)) :
  existsb (fun k => match pathToRegexp lib (colon_template k) with
                    | Some _ => false
                    | None => true
                    end) (map fst es) = true ->
  map_entries lib es = Throw TemplateError.
Proof.
  induction es as [|e es IH]; [discriminate|]. simpl. unfold pathObject_of.
  destruct (pathToRegexp lib (colon_template (fst e))) as [re|]; [|reflexivity].
  simpl. intros H. rewrite (IH H). reflexivity.
Qed.

Lemma map_entries_accepted (lib : libraries) (es : list (string * value)) :
  existsb (fun k => match pathToRegexp lib (colon_template k) with
                    | Some _ => false
                    | None => true
                    end) (map fst es) = false ->
  exists objs,
    map_entries lib es = Ok objs
    /\ map path objs = map fst es
    /\ forall obj, In obj objs ->
                   pathToRegexp lib (colon_template (path obj)) = Some (regexp obj).
Proof.
  induction es as [|e es IH].
  - intros _. exists []. repeat split. intros obj [].
  - simpl. unfold pathObject_of.
    destruct (pathToRegexp lib (colon_template (fst e))) as [re|] eqn:Hre;
      [|discriminate].
    simpl. intros H. destruct (IH H) as (objs & -> & Hp & Hre').
    eexists. split; [reflexivity|]. split.
    + simpl. rewrite Hp. reflexivity.
    + intros obj [<-|Hin]; [exact Hre|apply Hre'; exact Hin].
Qed.

(** X18.  [init] fails in three cases, and in no other: with a
    [TypeError] when the options hold no contract to read [paths] from
    or when [paths] is a non-empty array-like collection, whose numeric
    keys are no templates; with the exception of [pathToRegexp] when the
    library rejects the template of one of the paths.  Otherwise it
    registers the paths in their order, each with the matcher compiled
    from its template, and the state it leaves holds the contract
    itself, no hook and nothing emitted, and each flag as given, or
    enabled when it was left undefined. *)
Theorem init_outcomes (lib : libraries) (opts : init_options) (sc : option Z) :
  let paths := own (i_schema opts) "paths" in
  let refused :=
    unreadable (i_schema opts)
    || (isArrayLike paths
        && match own paths "length" with VNum 0 => false | _ => true end) in
  let rejected :=
    negb (isArrayLike paths)
    && existsb (fun k => match pathToRegexp lib (colon_template k) with
                         | Some _ => false
                         | None => true
                         end) (Object_keys paths) in
  (refused = true -> init lib opts sc = Throw TypeError)
  /\ (refused = false -> rejected = true ->
      init lib opts sc = Throw TemplateError)
  /\ (refused = false -> rejected = false ->
      exists w0,
        init lib opts sc = Ok w0
        /\ map path (w_pathObjects w0)
           = (if isArrayLike paths then [] else Object_keys paths)
        /\ (forall obj, In obj (w_pathObjects w0) ->
                        pathToRegexp lib (colon_template (path obj))
                        = Some (regexp obj))
        /\ contract w0 = i_schema opts
        /\ opt_validateRequest (w_options w0) = or_default (i_validateRequest opts) true
        /\ opt_validateResponse (w_options w0) = or_default (i_validateResponse opts) true
        /\ allowNullable (w_options w0) = or_default (i_allowNullable opts) true
        /\ hooked w0 = false /\ trace w0 = []).
Proof.
  intros paths refused rejected. subst refused rejected. unfold init.
  change (schema (defaults opts)) with (i_schema opts).
  assert (Hg : unreadable (i_schema opts) = false ->
               get_prop (i_schema opts) "paths" = Ok paths)
    by (subst paths; destruct (i_schema opts); intros H; try discriminate H;
        reflexivity).
  destruct (unreadable (i_schema opts)) eqn:Hr.
  - split; [|split; discriminate]. intros _.
    destruct (i_schema opts); try discriminate Hr; reflexivity.
  - rewrite (Hg eq_refl). unfold buildPathObjects. simpl orb.
    destruct (isArrayLike paths) eqn:Ha.
    + simpl negb. simpl andb at 3 4.
      destruct (own paths "length") as [| |b|n|t|l|fs];
        try (split; [reflexivity|split; discriminate]).
      destruct n; try (split; [reflexivity|split; discriminate]).
      split; [discriminate|]. split; [discriminate|]. intros _ _.
      eexists. split; [reflexivity|]. split; [reflexivity|].
      split; [intros obj []|repeat split].
    + simpl negb. rewrite !andb_true_l, andb_false_l.
      split; [discriminate|]. split.
      * intros _ Hrej. unfold Object_keys in Hrej.
        rewrite (map_entries_rejected _ _ Hrej). reflexivity.
      * intros _ Hacc. unfold Object_keys in Hacc.
        destruct (map_entries_accepted _ _ Hacc) as (objs & -> & Hp & Hre).
        eexists. split; [reflexivity|]. split; [exact Hp|].
        split; [exact Hre|repeat split].
Qed.

Lemma init_outcomes_witness :
  init Demo.lib (Examples.options_for VUndefined) None = Throw TypeError
  /\ init Demo.lib (Examples.options_for (VObj [("paths", VArr [VStr "/items"])]))
          None = Throw TypeError
  /\ init Demo.lib
       (Examples.options_for (VObj [("paths", VObj [("/items/(+)", VObj [])])]))
       None = Throw TemplateError
  /\ exists w0, init Demo.lib (Examples.options_for Demo.contract_document) None
                = Ok w0.
Proof.
  split; [|split; [|split]].
  - apply (init_outcomes Demo.lib (Examples.options_for VUndefined) None).
    reflexivity.
  - apply (init_outcomes Demo.lib
             (Examples.options_for (VObj [("paths", VArr [VStr "/items"])])) None).
    reflexivity.
  - apply (init_outcomes Demo.lib
             (Examples.options_for
                (VObj [("paths", VObj [("/items/(+)", VObj [])])])) None);
      reflexivity.
  - destruct (init_outcomes Demo.lib (Examples.options_for Demo.contract_document)
                None) as (_ & _ & H).
    destruct (H eq_refl eq_refl) as (w0 & Hw0 & _).
    exists w0. exact Hw0.
Defined.

(** ** An encoding the Buffer cannot be decoded with *)

(** X19.  When the captured [Buffer] cannot be converted to text with
    the encoding of the finalize call, the hook throws a [TypeError] and
    nothing reaches the host.  If the finalize call itself passed a
    [Buffer], the conversion fails in the debug statement, before the
    originals are put back: the capture hooks stay installed.  Otherwise
    it fails after they were put back. *)
Theorem end_hook_unknown_encoding
        (lib : libraries) (req : request) (data : jsdata)
        (encoding : option string) (w w1 : world) (c : captured) :
  capture lib data w = (Ok c, w1) ->
  (forall b, data = JBuffer b ->
             Buffer_toString lib encoding b = None ->
             end_hook lib req data encoding w = (Throw TypeError, w1)
             /\ hooked w1 = hooked w /\ trace w1 = trace w)
  /\ (forall b, isBuffer data = false ->
                c = CBuffer b ->
                Buffer_toString lib encoding b = None ->
                end_hook lib req data encoding w
                = (Throw TypeError, with_hooked w1 false)
                /\ trace w1 = trace w).
Proof.
  intros Hc.
  destruct (capture_world lib data w) as [(_ & _ & _ & Htr) Hh].
  rewrite Hc in Htr, Hh. simpl in Htr, Hh.
  split.
  - intros b -> Hb. split; [|split; [exact Hh|exact Htr]].
    rewrite end_hook_cases. unfold received, assemble, bind.
    rewrite Hc. unfold debug_data, toString, bind. rewrite Hb. reflexivity.
  - intros b Hd -> Hb. split; [|exact Htr].
    rewrite end_hook_cases. unfold received, assemble, bind.
    rewrite Hc.
    assert (Hdbg : debug_data lib data encoding w1 = (Ok tt, w1))
      by (destruct data; [discriminate Hd|reflexivity|reflexivity]).
    rewrite Hdbg. unfold ret, restore, decode, toString, bind.
    rewrite Hb. reflexivity.
Qed.

Lemma end_hook_unknown_encoding_witness :
  let armed := snd (validateResponse Demo.get_item (Demo.start true false false)) in
  end_hook Demo.lib Demo.get_item (JBuffer (list_byte_of_string "42"))
    (Some "latin9") armed
  = (Throw TypeError,
     with_writtenData armed [JBuffer (list_byte_of_string "42")])
  /\ (let w := with_writtenData armed [JBuffer (list_byte_of_string "42")] in
      end_hook Demo.lib Demo.get_item (JVal VUndefined) (Some "latin9") w
      = (Throw TypeError, with_hooked w false)).
Proof.
  intros armed. split.
  - destruct (end_hook_unknown_encoding
                Demo.lib Demo.get_item (JBuffer (list_byte_of_string "42"))
                (Some "latin9") armed
                (with_writtenData armed [JBuffer (list_byte_of_string "42")])
                (CBuffer (list_byte_of_string "42")) eq_refl) as [H _].
    destruct (H (list_byte_of_string "42") eq_refl eq_refl) as [He _].
    exact He.
  - intros w.
    destruct (end_hook_unknown_encoding
                Demo.lib Demo.get_item (JVal VUndefined) (Some "latin9") w w
                (CBuffer (list_byte_of_string "42")) eq_refl) as [_ H].
    destruct (H (list_byte_of_string "42") eq_refl eq_refl eq_refl) as [He _].
    exact He.
Defined.
